(** * Lead enrichment pipeline (enrich_leads.py): shallow embedding and proofs

    The first half is the model, in the order of the source file:
    - [PyStr]      Python [str] as a list of code points, with the string
                   methods the pipeline calls;
    - [PyVal]      the values [json.loads] produces (the lead records and the
                   fused profiles);
    - [Queue]      the three queue readers;
    - [Regex], [TaxId]  the backtracking matcher behind [re.search] and
                   [extract_tax_id];
    - [Signals]    [detect_tech_stack], [detect_whatsapp];
    - [Planner]    [normalize_url] and the crawl plan;
    - [Scrub]      [clean_recursive];
    - [Dyn]        the operations of the pipeline on values of any type, with
                   the exceptions they raise;
    - [Pipeline]   the effectful part: [fetch_hunter_emails], the per-lead
                   body and [main], over an abstract world of external
                   services, with the trace of the actions the program takes;
    - [Scenario]   a small concrete world to run [main] on explicit queues.

    The second half, from [PyStrFacts] on, holds the properties; the ones
    that answer the specification are marked C1 to C10. *)

From Stdlib Require Import String Ascii ZArith NArith Bool Lia.
From stdpp Require Import base option list gmap sets.

Set Default Proof Using "Type".

(* ===================================================================== *)
(** ** Python strings *)
(* ===================================================================== *)

Module PyStr.

(** A Python [str] is a sequence of Unicode code points. *)
Definition char := N.
Definition str := list char.

(** An ASCII literal of the source. *)
Definition py (s : string) : str :=
  List.map N_of_ascii (list_ascii_of_string s).

Arguments py : simpl never.

Definition nl : str := [10%N].

(** What the interpreter decides from its Unicode database: it is not part
    of the repository and changes with the interpreter's Unicode version, so
    the development is parametric in it. *)
Class UnicodeDB : Type := {
  (** [int(s)] on a string: [None] when it raises [ValueError] *)
  parse_int : str -> option Z;
  (** [str.isdigit] on one character *)
  isdigit : char -> bool;
  (** the class [\d] of [re] on [str] patterns *)
  isdecimal : char -> bool;
  (** [str.lower], [str.upper] *)
  lower : str -> str;
  upper : str -> str;
  (** [ci_eq x c]: under [re.IGNORECASE] the text character [x] matches the
      pattern character [c] *)
  ci_eq : char -> char -> bool
}.

(** [str.isspace] on one character; the same set is what [str.strip()]
    removes and what [\s] matches. *)
Definition isspace (c : char) : bool :=
  ((9 <=? c) && (c <=? 13) || (28 <=? c) && (c <=? 32)
   || (c =? 133) || (c =? 160) || (c =? 5760)
   || (8192 <=? c) && (c <=? 8202)
   || (c =? 8232) || (c =? 8233) || (c =? 8239) || (c =? 8287)
   || (c =? 12288))%N.

Fixpoint str_eqb (a b : str) : bool :=
  match a, b with
  | [], [] => true
  | x :: a', y :: b' => (x =? y)%N && str_eqb a' b'
  | _, _ => false
  end.

(** [s.startswith(p)] *)
Fixpoint startswith (s p : str) {struct p} : bool :=
  match p with
  | [] => true
  | c :: p' =>
      match s with
      | [] => false
      | d :: s' => (d =? c)%N && startswith s' p'
      end
  end.

(** [s.endswith(p)] *)
Definition endswith (s p : str) : bool :=
  startswith (rev s) (rev p).

(** [sub in s] *)
Fixpoint contains (sub s : str) : bool :=
  startswith s sub ||
  match s with
  | [] => false
  | _ :: s' => contains sub s'
  end.

(** [s.lstrip(c)] / [s.rstrip(c)] for a one-character argument, and
    [s.strip()] *)
Fixpoint lstrip_where (p : char -> bool) (s : str) : str :=
  match s with
  | [] => []
  | c :: s' => if p c then lstrip_where p s' else s
  end.

Definition rstrip_where (p : char -> bool) (s : str) : str :=
  rev (lstrip_where p (rev s)).

Definition rstrip_char (c : char) (s : str) : str :=
  rstrip_where (N.eqb c) s.

Definition strip (s : str) : str :=
  rstrip_where isspace (lstrip_where isspace s).

(** [s[:n]] *)
Definition slice_to (n : N) (s : str) : str := take (N.to_nat n) s.

(** [sep.join(l)] *)
Fixpoint join (sep : str) (l : list str) : str :=
  match l with
  | [] => []
  | [x] => x
  | x :: l' => x ++ sep ++ join sep l'
  end.

(** [s.replace(old, new)] for a non-empty [old]: leftmost, non-overlapping.
    The fuel is the length of [s]. *)
Fixpoint replace_go (fuel : nat) (old new s : str) : str :=
  match fuel with
  | O => s
  | S fuel' =>
      match s with
      | [] => []
      | c :: s' =>
          if startswith s old
          then new ++ replace_go fuel' old new (drop (length old) s)
          else c :: replace_go fuel' old new s'
      end
  end.

Definition replace (old new s : str) : str :=
  replace_go (length s) old new s.

(** [s.split(sep)[0]] for a one-character separator: the text before the
    first occurrence. *)
Fixpoint split_head (sep : char) (s : str) : str :=
  match s with
  | [] => []
  | c :: s' => if (c =? sep)%N then [] else c :: split_head sep s'
  end.

(** The ASCII-only database used to run the model on ASCII inputs: on ASCII
    text it agrees with the interpreter. *)
Definition ascii_lower_char (c : char) : char :=
  if ((65 <=? c) && (c <=? 90))%N then (c + 32)%N else c.
Definition ascii_upper_char (c : char) : char :=
  if ((97 <=? c) && (c <=? 122))%N then (c - 32)%N else c.
Definition ascii_isdigit (c : char) : bool := ((48 <=? c) && (c <=? 57))%N.

(** The blanks [int(s)] drops around an ASCII text: tab, line feed,
    vertical tab, form feed, carriage return and space, and no other
    (the separators U+001C to U+001F, which [str.strip()] removes, make
    [int] raise). *)
Definition ascii_isblank (c : char) : bool :=
  ((9 <=? c) && (c <=? 13) || (c =? 32))%N.

(** [int(s)] on ASCII text: blanks around, an optional sign, then digits
    that single underscores may separate. *)
Fixpoint ascii_digits_value (acc : Z) (after_digit : bool) (s : str)
  : option Z :=
  match s with
  | [] => if after_digit then Some acc else None
  | c :: s' =>
      if ascii_isdigit c
      then ascii_digits_value (10 * acc + Z.of_N (c - 48)) true s'
      else if (c =? 95)%N && after_digit
           then match s' with
                | d :: _ => if ascii_isdigit d
                            then ascii_digits_value acc false s'
                            else None
                | [] => None
                end
           else None
  end.

Definition ascii_parse_int (s : str) : option Z :=
  match rstrip_where ascii_isblank (lstrip_where ascii_isblank s) with
  | 43%N :: s' => ascii_digits_value 0 false s'
  | 45%N :: s' => option_map Z.opp (ascii_digits_value 0 false s')
  | s' => ascii_digits_value 0 false s'
  end.

Definition ascii_db : UnicodeDB := {|
  parse_int := ascii_parse_int;
  isdigit := ascii_isdigit;
  isdecimal := ascii_isdigit;
  lower := List.map ascii_lower_char;
  upper := List.map ascii_upper_char;
  ci_eq := fun x c => (ascii_lower_char x =? ascii_lower_char c)%N
|}.

End PyStr.
Export PyStr.

(* ===================================================================== *)
(** ** Python values *)
(* ===================================================================== *)

Module PyVal.

(** The values [json.loads] returns. A dict keeps its insertion order; a
    [float] is carried as its binary64 bit pattern and only ever tested for
    zero. *)
#[warnings="-register-all"]
Inductive pyval : Type :=
| PNone
| PBool (b : bool)
| PInt (z : Z)
| PFloat (bits : Z)
| PStr (s : str)
| PList (l : list pyval)
| PDict (d : list (str * pyval)).

(** Structural induction through the lists and dicts. *)
Section Induction.
Variable P : pyval -> Prop.
Hypothesis HNone : P PNone.
Hypothesis HBool : forall b, P (PBool b).
Hypothesis HInt : forall z, P (PInt z).
Hypothesis HFloat : forall f, P (PFloat f).
Hypothesis HStr : forall s, P (PStr s).
Hypothesis HList : forall l, Forall P l -> P (PList l).
Hypothesis HDict : forall d, Forall (fun kv => P (snd kv)) d -> P (PDict d).

Fixpoint pyval_ind' (v : pyval) : P v :=
  match v with
  | PNone => HNone
  | PBool b => HBool b
  | PInt z => HInt z
  | PFloat f => HFloat f
  | PStr s => HStr s
  | PList l =>
      HList l ((fix go (l : list pyval) : Forall P l :=
                  match l with
                  | [] => List.Forall_nil P
                  | x :: l' => @List.Forall_cons _ P x l' (pyval_ind' x) (go l')
                  end) l)
  | PDict d =>
      HDict d ((fix go (d : list (str * pyval))
                  : Forall (fun kv => P (snd kv)) d :=
                  match d with
                  | [] => List.Forall_nil _
                  | kv :: d' =>
                      @List.Forall_cons _ (fun kv => P (snd kv)) kv d'
                        (pyval_ind' (snd kv)) (go d')
                  end) d)
  end.
End Induction.

(** Truth value of an object ([if x:]). *)
Definition truthy (v : pyval) : bool :=
  match v with
  | PNone => false
  | PBool b => b
  | PInt z => negb (z =? 0)%Z
  | PFloat bits => negb (Z.land bits 9223372036854775807 =? 0)%Z
  | PStr s => negb (match s with [] => true | _ => false end)
  | PList l => negb (match l with [] => true | _ => false end)
  | PDict d => negb (match d with [] => true | _ => false end)
  end.

(** [d.get(k)] on the association list of a dict. *)
Fixpoint dict_get (k : str) (d : list (str * pyval)) : option pyval :=
  match d with
  | [] => None
  | (k', v) :: d' => if str_eqb k' k then Some v else dict_get k d'
  end.

(** [d[k] = v]: an existing key keeps its place, a new one goes last. *)
Fixpoint dict_set (k : str) (v : pyval) (d : list (str * pyval))
  : list (str * pyval) :=
  match d with
  | [] => [(k, v)]
  | (k', v') :: d' =>
      if str_eqb k' k then (k', v) :: d' else (k', v') :: dict_set k v d'
  end.

(** [a == b] between a string and any value. *)
Definition eq_str (s : str) (v : pyval) : bool :=
  match v with
  | PStr t => str_eqb s t
  | _ => false
  end.

End PyVal.
Export PyVal.

(* ===================================================================== *)
(** ** Queue readers *)
(* ===================================================================== *)

Module Queue.

(** The reserved line that ends streaming consumption. *)
Definition END_TOKEN : str := py "__END__".

Definition is_empty (s : str) : bool :=
  match s with [] => true | _ => false end.

(** What one pass through a reader's loop body does with the line it got. *)
Inductive line_action : Type :=
| Poll              (* nothing to read yet: sleep, read again *)
| Skip              (* [continue] *)
| Stop              (* [return] *)
| Yield (v : pyval).

(** What one call of [f.readline()] does on a file opened as UTF-8 text:
    it returns a string (the empty string at the current end of the file),
    or it raises [UnicodeDecodeError], when the bytes it gets are not UTF-8
    or the file ends, for now, in the middle of a character. *)
Inductive read : Type :=
| Line (s : str)
| Undecodable.

(** How a generator stands: still in its loop, ended by its [return], or
    ended by an exception that left it. *)
Inductive gen_state : Type := Running | Returned | Aborted.

Record follow_result : Type := FollowResult {
  yielded : list pyval;     (* the objects handed to the consumer, in order *)
  state : gen_state;        (* how the generator stands after the reads *)
  unread : list read        (* results of [readline] never asked for *)
}.

Section Readers.
(** [json.loads]: [None] stands for any exception it raises. *)
Variable json_loads : str -> option pyval.

(** Body of the [while True] of [iter_jsonl_lines_follow], from the
    result of [f.readline()]; the empty string is what [readline] returns
    at the current end of the file. *)
Definition follow_line (line : str) : line_action :=
  if is_empty line then Poll
  else
    let line := strip line in
    if is_empty line then Skip
    else if str_eqb line END_TOKEN then Stop
    else match json_loads line with
         | Some v => Yield v
         | None => Skip
         end.

(** Body of the [for line in f] of [iter_jsonl_objects] (and of the
    [.jsonl] branch of [load_items] when [keep_end] is set, which has no
    test for the marker). *)
Definition objects_line (keep_end : bool) (line : str) : line_action :=
  let line := strip line in
  if is_empty line || (negb keep_end && str_eqb line END_TOKEN) then Skip
  else match json_loads line with
       | Some v => Yield v
       | None => Skip
       end.

(** [iter_jsonl_objects] over the lines of the file. *)
Fixpoint iter_jsonl_objects (lines : list str) : list pyval :=
  match lines with
  | [] => []
  | line :: rest =>
      match objects_line false line with
      | Yield v => v :: iter_jsonl_objects rest
      | _ => iter_jsonl_objects rest
      end
  end.

(** The [.jsonl] branch of [load_items]. *)
Fixpoint load_items_jsonl (lines : list str) : list pyval :=
  match lines with
  | [] => []
  | line :: rest =>
      match objects_line true line with
      | Yield v => v :: load_items_jsonl rest
      | _ => load_items_jsonl rest
      end
  end.

(** [iter_jsonl_lines_follow] run against the successive results of
    [f.readline()]. The call of [readline] is outside the [try], so a read
    that raises ends the generator there. The loop has no other exit but
    the [return] at the marker, so on a finite sequence of reads without
    either the generator is left [Running], waiting for the next read. *)
Fixpoint iter_jsonl_lines_follow (reads : list read) : follow_result :=
  match reads with
  | [] => FollowResult [] Running []
  | Undecodable :: rest => FollowResult [] Aborted rest
  | Line line :: rest =>
      match follow_line line with
      | Stop => FollowResult [] Returned rest
      | Yield v =>
          let r := iter_jsonl_lines_follow rest in
          FollowResult (v :: yielded r) (state r) (unread r)
      | Poll | Skip => iter_jsonl_lines_follow rest
      end
  end.

(** The objects of the lines that are neither blank nor malformed. *)
Definition parsed (line : str) : option pyval :=
  if is_empty (strip line) then None else json_loads (strip line).

End Readers.

(** The reads of a file that keeps growing: what the [n]-th [readline]
    returns. *)
Definition first_reads (reads : nat -> read) (n : nat) : list read :=
  List.map reads (seq 0 n).

End Queue.

(* ===================================================================== *)
(** ** Regular expressions: the fragment of [re] the pattern table uses *)
(* ===================================================================== *)

Module Regex.

Inductive cclass : Type :=
| CLit (c : char)                (* a literal character *)
| CRange (lo hi : char)          (* [lo-hi] *)
| CDigit                         (* \d *)
| CSpace                         (* \s *)
| CUnion (a b : cclass).         (* a set with several members *)

Inductive regex : Type :=
| REps
| RChar (c : cclass)
| RSeq (r1 r2 : regex)
| RRep (r : regex) (lo hi : nat)   (* greedy r{lo,hi} *)
| RNotBehind (c : cclass)          (* (?<!c) *)
| RNotAhead (c : cclass).          (* (?!c) *)

Definition chars_between (lo hi : char) : list char :=
  List.map N.of_nat (seq (N.to_nat lo) (S (N.to_nat hi) - N.to_nat lo)).

Section Matcher.
Context {U : UnicodeDB}.
(** [re.IGNORECASE] *)
Variable ignorecase : bool.

Fixpoint class_match (cl : cclass) (x : char) : bool :=
  match cl with
  | CLit c => (x =? c)%N || (ignorecase && ci_eq x c)
  | CRange lo hi =>
      ((lo <=? x) && (x <=? hi))%N
      || (ignorecase && existsb (ci_eq x) (chars_between lo hi))
  | CDigit => isdecimal x
  | CSpace => isspace x
  | CUnion a b => class_match a x || class_match b x
  end.

(** Backtracking match at one position: [prev] is the character before
    the position, [k] the rest of the pattern; the first success in the
    order the engine explores (one more repetition before fewer) wins.
    The result is the text left after the match. *)
Fixpoint rmatch (r : regex) (prev : option char) (s : str)
    (k : option char -> str -> option str) {struct r} : option str :=
  match r with
  | REps => k prev s
  | RChar cl =>
      match s with
      | x :: s' => if class_match cl x then k (Some x) s' else None
      | [] => None
      end
  | RSeq r1 r2 => rmatch r1 prev s (fun p s' => rmatch r2 p s' k)
  | RRep r0 lo hi =>
      (fix rep (lo hi : nat) (prev : option char) (s : str) {struct hi}
         : option str :=
         match hi with
         | O => match lo with O => k prev s | S _ => None end
         | S hi' =>
             match rmatch r0 prev s (fun p s' => rep (pred lo) hi' p s') with
             | Some rest => Some rest
             | None => match lo with O => k prev s | S _ => None end
             end
         end) lo hi prev s
  | RNotBehind cl =>
      match prev with
      | Some x => if class_match cl x then None else k prev s
      | None => k prev s
      end
  | RNotAhead cl =>
      match s with
      | x :: _ => if class_match cl x then None else k prev s
      | [] => k prev s
      end
  end.

(** [re.search(r, text)]: the match at the leftmost position that has
    one; the result is [match.group(0)]. *)
Fixpoint search_from (r : regex) (prev : option char) (s : str)
  : option str :=
  match rmatch r prev s (fun _ rest => Some rest) with
  | Some rest => Some (take (length s - length rest) s)
  | None =>
      match s with
      | [] => None
      | x :: s' => search_from r (Some x) s'
      end
  end.

Definition re_search (r : regex) (text : str) : option str :=
  search_from r None text.
End Matcher.

(** Pattern syntax. *)
Definition digits (lo hi : nat) : regex := RRep (RChar CDigit) lo hi.
Definition lit (s : string) : regex :=
  fold_right (fun c r => RSeq (RChar (CLit c)) r) REps (py s).
Definition upper_alpha : cclass := CRange 65%N 90%N.      (* [A-Z] *)
Definition upper_alnum : cclass := CUnion (CRange 65%N 90%N) (CRange 48%N 57%N).
Definition ascii_digit : cclass := CRange 48%N 57%N.      (* [0-9] *)
Fixpoint seqs (rs : list regex) : regex :=
  match rs with
  | [] => REps
  | r :: rs' => RSeq r (seqs rs')
  end.

End Regex.

(* ===================================================================== *)
(** ** Tax identifier extraction *)
(* ===================================================================== *)

Module TaxId.
Import Regex.

Record pattern_info : Type := PatternInfo {
  pattern : regex;
  type_ : str;
  name : str
}.

(** The dict the function returns. *)
Record tax_id : Type := MkTaxId {
  tax_type : str;
  tax_value : str;
  tax_country : str;
  tax_name : str
}.

Definition BR_pattern : regex :=
  seqs [digits 2 2; lit "."; digits 3 3; lit "."; digits 3 3; lit "/";
        digits 4 4; lit "-"; digits 2 2].

Definition CNPJ_name : str :=
  py "Cadastro Nacional da Pessoa Jur" ++ [237%N] ++ py "dica".

(** The table [patterns], in source order. *)
Definition patterns : list (str * pattern_info) :=
  [ (py "BR", PatternInfo BR_pattern (py "CNPJ") CNPJ_name);
    (py "US", PatternInfo (seqs [digits 2 2; lit "-"; digits 7 7])
                (py "EIN") (py "Employer Identification Number"));
    (py "GB", PatternInfo
                (seqs [RNotBehind ascii_digit; digits 8 8;
                       RNotAhead ascii_digit])
                (py "Company Number") (py "UK Company Registration Number"));
    (py "AU", PatternInfo
                (seqs [digits 2 2; RRep (RChar CSpace) 0 1; digits 3 3;
                       RRep (RChar CSpace) 0 1; digits 3 3;
                       RRep (RChar CSpace) 0 1; digits 3 3])
                (py "ABN") (py "Australian Business Number"));
    (py "MX", PatternInfo
                (seqs [RRep (RChar upper_alpha) 3 4; digits 6 6;
                       RRep (RChar upper_alnum) 3 3])
                (py "RFC") (py "Registro Federal de Contribuyentes"));
    (py "AR", PatternInfo
                (seqs [digits 2 2; lit "-"; digits 8 8; lit "-"; digits 1 1])
                (py "CUIT")
                (py "Clave " ++ [218%N] ++ py "nica de Identificaci" ++ [243%N]
                 ++ py "n Tributaria"));
    (py "PT", PatternInfo
                (seqs [RNotBehind ascii_digit; digits 9 9;
                       RNotAhead ascii_digit])
                (py "NIF")
                (py "N" ++ [250%N] ++ py "mero de Identifica" ++ [231%N; 227%N]
                 ++ py "o Fiscal"));
    (py "DE", PatternInfo (seqs [lit "DE"; digits 9 9])
                (py "VAT") (py "Umsatzsteuer-Identifikationsnummer"));
    (py "FR", PatternInfo (seqs [lit "FR"; digits 11 11])
                (py "VAT")
                (py "Num" ++ [233%N] ++ py "ro de TVA intracommunautaire"));
    (py "ES", PatternInfo
                (seqs [lit "ES"; RChar upper_alnum; digits 7 7;
                       RChar upper_alnum])
                (py "NIF/CIF")
                (py "N" ++ [250%N] ++ py "mero de Identificaci" ++ [243%N]
                 ++ py "n Fiscal"));
    (py "IT", PatternInfo (seqs [lit "IT"; digits 11 11])
                (py "VAT") (py "Partita IVA"));
    (py "CA", PatternInfo
                (seqs [digits 9 9; RRep (RChar upper_alpha) 2 2; digits 4 4])
                (py "BN") (py "Business Number")) ].

Definition eu_vat_pattern : regex :=
  seqs [RRep (RChar upper_alpha) 2 2; digits 9 12].

Fixpoint table_get {A} (k : str) (t : list (str * A)) : option A :=
  match t with
  | [] => None
  | (k', v) :: t' => if str_eqb k' k then Some v else table_get k t'
  end.

Section Extract.
Context {U : UnicodeDB}.

(** First [if]: the hinted country's own pattern, case-insensitively. *)
Definition hinted_match (text : str) (country_code : option str)
  : option tax_id :=
  match country_code with
  | Some cc =>
      if negb (Queue.is_empty cc) then
        match table_get (upper cc) patterns with
        | Some info =>
            match re_search true (pattern info) text with
            | Some m => Some (MkTaxId (type_ info) m (upper cc) (name info))
            | None => None
            end
        | None => None
        end
      else None
  | None => None
  end.

(** Guard of the second [if]:
    [not country_code or country_code.upper() == 'BR']. *)
Definition br_guard (country_code : option str) : bool :=
  match country_code with
  | None => true
  | Some cc => Queue.is_empty cc || str_eqb (upper cc) (py "BR")
  end.

Definition br_match (text : str) : option tax_id :=
  match re_search false BR_pattern text with
  | Some m => Some (MkTaxId (py "CNPJ") m (py "BR") CNPJ_name)
  | None => None
  end.

(** Last resort, on the upper-cased text. *)
Definition vat_match (text : str) : option tax_id :=
  match re_search false eu_vat_pattern (upper text) with
  | Some v => Some (MkTaxId (py "VAT") v (take 2 v) (py "VAT Number"))
  | None => None
  end.

Definition extract_tax_id (text : str) (country_code : option str)
  : option tax_id :=
  if Queue.is_empty text then None
  else
    match hinted_match text country_code with
    | Some r => Some r
    | None =>
        match (if br_guard country_code then br_match text else None) with
        | Some r => Some r
        | None => vat_match text
        end
    end.
End Extract.

End TaxId.

(* ===================================================================== *)
(** ** Detectors *)
(* ===================================================================== *)

Module Signals.

Definition quote : str := [34%N].

(** The table [checks] of [detect_tech_stack], in source order. *)
Definition checks : list (str * list str) :=
  [ (py "WordPress",
      [py "wp-content";
       py "generator" ++ quote ++ py " content=" ++ quote ++ py "wordpress"]);
    (py "Wix", [py "wix.com"; py "wix-dns"]);
    (py "RD Station", [py "d335luupugsy2.cloudfront.net"; py "rdstation"]);
    (py "Shopify", [py "shopify"]);
    (py "Google Analytics", [py "googletagmanager"; py "ua-"; py "g-"]);
    (py "Facebook Pixel", [py "fbevents.js"]);
    (py "Hotjar", [py "hotjar"]);
    (py "Vercel", [py "vercel"]);
    (py "Next.js", [py "__next"]);
    (py "Nuxt.js", [py "__nuxt"]) ].

Section Detectors.
Context {U : UnicodeDB}.

Definition detect_tech_stack (html_content : str) : list str :=
  if Queue.is_empty html_content then []
  else
    let lower_html := lower html_content in
    List.map fst
      (List.filter
         (fun tk => existsb (fun k => contains k lower_html) (snd tk))
         checks).

(** The part of [detect_whatsapp] after the digits are taken out. *)
Definition whatsapp_of_digits (digits : str) : option str :=
  if (length digits =? 11)%nat then Some (py "https://wa.me/55" ++ digits)
  else if (length digits =? 10)%nat then None
  else if (12 <=? length digits)%nat && startswith digits (py "55") then
    if (length digits =? 13)%nat then Some (py "https://wa.me/" ++ digits)
    else None
  else None.

(** [detect_whatsapp] on a string. *)
Definition detect_whatsapp (phone : str) : option str :=
  if Queue.is_empty phone then None
  else whatsapp_of_digits (List.filter isdigit phone).
End Detectors.

End Signals.

(* ===================================================================== *)
(** ** Crawl planner *)
(* ===================================================================== *)

Module Planner.

Definition slash : char := 47%N.

(** The helper [normalize_url] (the same text in the three copies of the
    per-lead body). *)
Definition normalize_url (link_url base : str) : str :=
  if negb (startswith link_url (py "http")) then
    if negb (endswith base [slash]) && negb (startswith link_url [slash])
    then base ++ [slash] ++ link_url
    else if endswith base [slash] && startswith link_url [slash]
    then base ++ drop 1 link_url
    else base ++ link_url
  else link_url.

Definition keywords : list (str * list str) :=
  [ (py "contact", [py "contato"; py "contact"; py "fale"; py "atendimento"]);
    (py "about", [py "sobre"; py "about"; py "quem-somos"; py "institucional";
                  py "empresa"; py "imobiliaria"]);
    (py "services", [py "servicos"; py "services"; py "produtos";
                     py "products"; py "imoveis"]) ].

Definition social_keywords : list (str * list str) :=
  [ (py "instagram", [py "instagram.com"]);
    (py "facebook", [py "facebook.com"]);
    (py "linktree", [py "linktr.ee"]);
    (py "linkedin", [py "linkedin.com"]) ].

(** The three accumulators of the loop over the internal links. *)
Record plan : Type := Plan {
  unique_internal_urls : gset str;
  priority_links : list str;
  other_links : list str
}.

Definition empty_plan : plan := Plan ∅ [] [].

(** [key in d] / [d[key] = v] on the insertion-ordered dict
    [social_links_to_crawl]. *)
Definition has_key (k : str) (d : list (str * str)) : bool :=
  existsb (fun kv => str_eqb (fst kv) k) d.

Section Plan.
Context {U : UnicodeDB}.

Definition is_priority (href : str) : bool :=
  let lower_href := lower href in
  existsb (fun kw => existsb (fun w => contains w lower_href) (snd kw))
    keywords.

(** One pass of [for link in internal_links]; [href] is
    [link.get('href', '')]. *)
Definition plan_step (base_url : str) (p : plan) (href : str) : plan :=
  if Queue.is_empty href then p
  else
    let full_url := normalize_url href base_url in
    if bool_decide (full_url ∈ unique_internal_urls p)
       || str_eqb (rstrip_char slash full_url) (rstrip_char slash base_url)
    then p
    else
      let seen := unique_internal_urls p ∪ {[ full_url ]} in
      if is_priority href
      then Plan seen (priority_links p ++ [full_url]) (other_links p)
      else Plan seen (priority_links p) (other_links p ++ [full_url]).

Definition plan_internal (base_url : str) (internal_links : list str)
  : plan :=
  fold_left (plan_step base_url) internal_links empty_plan.

(** [final_crawl_list = priority_links + other_links] *)
Definition final_crawl_list (base_url : str) (internal_links : list str)
  : list str :=
  let p := plan_internal base_url internal_links in
  priority_links p ++ other_links p.

(** One pass of [for link in external_links]: every platform not yet
    recorded whose domain occurs in the lower-cased href takes the link. *)
Definition social_step (social : list (str * str)) (href : str)
  : list (str * str) :=
  let lower_href := lower href in
  fold_left
    (fun soc kd =>
       if negb (has_key (fst kd) soc)
          && existsb (fun d => contains d lower_href) (snd kd)
       then soc ++ [(fst kd, href)]
       else soc)
    social_keywords social.

Definition plan_social (external_links : list str) : list (str * str) :=
  fold_left social_step external_links [].
End Plan.

End Planner.

(* ===================================================================== *)
(** ** Placeholder scrub *)
(* ===================================================================== *)

Module Scrub.

Definition PENDING : str := py "Pendente".

(** [clean_recursive]: the source mutates the dicts in place and returns
    nothing; the function here returns the object as it is left. A dict
    value that is a string with the token becomes [None]; any other value is
    visited; on a list every element is visited; on anything else (a string
    among them) the call does nothing. *)
Fixpoint clean_recursive (obj : pyval) : pyval :=
  match obj with
  | PDict d =>
      PDict (List.map
               (fun kv =>
                  match snd kv with
                  | PStr s =>
                      if contains PENDING s then (fst kv, PNone)
                      else (fst kv, clean_recursive (snd kv))
                  | _ => (fst kv, clean_recursive (snd kv))
                  end) d)
  | PList l => PList (List.map clean_recursive l)
  | _ => obj
  end.

(** No dict value, at any depth, is a string that holds the token. *)
Fixpoint fields_clean (v : pyval) : bool :=
  match v with
  | PDict d =>
      forallb
        (fun kv =>
           match snd kv with
           | PStr s => negb (contains PENDING s)
           | _ => fields_clean (snd kv)
           end) d
  | PList l => forallb fields_clean l
  | _ => true
  end.

End Scrub.

(* ===================================================================== *)
(** ** Dynamic typing: the operations of the pipeline on arbitrary values *)
(* ===================================================================== *)

Module Dyn.

(** The exceptions the modelled code can raise. *)
Inductive exn : Type :=
| AttributeError
| TypeError
| KeyError
| ValueError
| UnboundLocalError
| UnicodeDecodeError
| ExternalError.        (* raised inside an external library *)

Definition res (A : Type) : Type := exn + A.

Definition res_bind {A B} (r : res A) (f : A -> res B) : res B :=
  match r with
  | inl e => inl e
  | inr a => f a
  end.

(** [needle in v] for a string [needle]. *)
Definition py_in (needle : str) (v : pyval) : res bool :=
  match v with
  | PStr s => inr (contains needle s)
  | PList l => inr (existsb (eq_str needle) l)
  | PDict d => inr (existsb (fun kv => str_eqb (fst kv) needle) d)
  | _ => inl TypeError
  end.

(** [v.get(k)]; an absent key gives [None]. *)
Definition py_get (v : pyval) (k : str) : res pyval :=
  match v with
  | PDict d => inr (default PNone (dict_get k d))
  | _ => inl AttributeError
  end.

(** [v.get(k, dflt)] *)
Definition py_get_default (v : pyval) (k : str) (dflt : pyval) : res pyval :=
  match v with
  | PDict d => inr (default dflt (dict_get k d))
  | _ => inl AttributeError
  end.

(** [v[k]] for a string key. *)
Definition py_getitem (v : pyval) (k : str) : res pyval :=
  match v with
  | PDict d =>
      match dict_get k d with
      | Some x => inr x
      | None => inl KeyError
      end
  | _ => inl TypeError
  end.

(** [v[k] = x] for a string key. *)
Definition py_setitem (v : pyval) (k : str) (x : pyval) : res pyval :=
  match v with
  | PDict d => inr (PDict (dict_set k x d))
  | _ => inl TypeError
  end.

(** [for x in v] *)
Definition py_iter (v : pyval) : res (list pyval) :=
  match v with
  | PList l => inr l
  | PDict d => inr (List.map (fun kv => PStr (fst kv)) d)
  | PStr s => inr (List.map (fun c => PStr [c]) s)
  | _ => inl TypeError
  end.

(** [s.upper()] on the value of [x or ''] *)
Definition or_empty (v : pyval) : pyval :=
  if truthy v then v else PStr [].

Section Digits.
Context {U : UnicodeDB}.

(** [s.isdigit()] *)
Definition str_isdigit (s : str) : bool :=
  negb (Queue.is_empty s) && forallb isdigit s.

(** ["".join(filter(str.isdigit, v))] *)
Fixpoint join_digit_items (l : list pyval) : res str :=
  match l with
  | [] => inr []
  | PStr s :: l' =>
      res_bind (join_digit_items l')
        (fun rest => inr (if str_isdigit s then s ++ rest else rest))
  | _ :: _ => inl TypeError
  end.

Definition digits_of (v : pyval) : res str :=
  res_bind (py_iter v) join_digit_items.

(** [detect_whatsapp] on whatever the phone list holds. *)
Definition detect_whatsapp_val (phone : pyval) : res (option str) :=
  if negb (truthy phone) then inr None
  else res_bind (digits_of phone)
         (fun d => inr (Signals.whatsapp_of_digits d)).

Definition py_upper (v : pyval) : res str :=
  match v with
  | PStr s => inr (upper s)
  | _ => inl AttributeError
  end.
End Digits.

End Dyn.

(* ===================================================================== *)
(** ** The effectful pipeline *)
(* ===================================================================== *)

Module Pipeline.
Import Dyn.

(** What the crawling capability hands back for one page ([result.success]
    being true): the text, the markup when the attribute is there and not
    empty, and the href values of the two classified link lists (the empty
    string where a link has none). *)
Record crawl_result : Type := CrawlResult {
  markdown : str;
  html : option str;
  internal : list str;
  external : list str
}.

(** What [requests.get] hands back from the email-discovery service. *)
Record http_response : Type := HttpResponse {
  status_code : Z;
  retry_after : option str;       (* [response.headers.get('Retry-After')] *)
  json_body : option pyval        (* [response.json()], [None] if it raises *)
}.

(** What [validate_email(..., check_deliverability=True)] does. *)
Inductive email_check : Type :=
| Normalized (addr : str)         (* returns, with [.normalized] *)
| NotValid                        (* raises [EmailNotValidError] *)
| CheckFailed.                    (* raises anything else *)

(** The variable parts of the prompt of [analyze_with_gpt]; the running
    text around them is fixed. *)
Record fusion_request : Type := FusionRequest {
  lang_instruction : str;
  country_instruction : str;
  raw_lead_data : pyval;
  hunter_data : list str;         (* the verified emails block, if any *)
  content : str;                  (* [content[:20000]] *)
  company_profile : pyval
}.

(** The actions the program takes on the outside, in order. *)
Inductive event : Type :=
| EvExists (path : str)
| EvOpen (path : str)
| EvReadline (handle : nat) (line : str)
| EvReadFailed (handle : nat)               (* a read that raised *)
| EvPoll                                    (* [time.sleep(poll_interval)] *)
| EvLoadJson (path : str)
| EvCrawl (url : str)
| EvHttpGet (url : str) (resp : option http_response)
| EvSleep (seconds : Z)
| EvValidate (addr : pyval)
| EvCompletion (req : fusion_request)
| EvRegistry (digits : str)
| EvWriteJson (path : str) (data : list pyval) (failed : option exn)
| EvRemove (path : str).

(** The external collaborators, as transitions of an abstract world. *)
Record services (W : Type) : Type := Services {
  os_path_exists : str -> W -> W * bool;
  (** [open(path, "r")]: a fresh handle, or the exception *)
  open_read : str -> W -> W * option nat;
  (** [f.readline()], or the next line of [for line in f]: the empty
      string at the current end of the file, [Undecodable] when the read
      raises [UnicodeDecodeError] *)
  readline : nat -> W -> W * Queue.read;
  (** [json.load] of the whole file *)
  load_json : str -> W -> W * option pyval;
  (** [crawl_page]: [None] for a failed fetch or an exception *)
  crawl : str -> W -> W * option crawl_result;
  (** [requests.get(url, timeout=10)]: [None] when it raises *)
  requests_get : str -> W -> W * option http_response;
  (** [time.sleep(n)]: whether it raised *)
  time_sleep : Z -> W -> W * option exn;
  validate_email : pyval -> W -> W * email_check;
  (** [time.sleep(poll_interval)] of the follow loop *)
  poll_sleep : W -> W * unit;
  (** the completion request: the text of the reply, [None] when the call
      raises *)
  completion : fusion_request -> W -> W * option str;
  (** the registry request and the restructuring of its reply inside the
      [try] of [fetch_cnpja_data] *)
  registry : str -> W -> W * option pyval;
  (** [open(final_file, 'w')] and [json.dump] *)
  write_json : str -> list pyval -> W -> W * option exn;
  os_remove : str -> W -> W * option exn
}.

Arguments os_path_exists {W}.
Arguments open_read {W}.
Arguments readline {W}.
Arguments load_json {W}.
Arguments crawl {W}.
Arguments requests_get {W}.
Arguments time_sleep {W}.
Arguments validate_email {W}.
Arguments poll_sleep {W}.
Arguments completion {W}.
Arguments registry {W}.
Arguments write_json {W}.
Arguments os_remove {W}.

(** How a computation ends. *)
Inductive outcome (A : Type) : Type :=
| Ok (a : A)
| Raise (e : exn)
| OutOfFuel.             (* the loop was still going when the fuel ran out *)

Arguments Ok {A}.
Arguments Raise {A}.
Arguments OutOfFuel {A}.

Section Monad.
Variable W : Type.

(** A computation: from the world to its outcome, the new world and the
    actions taken. *)
Definition M (A : Type) : Type := W -> outcome A * W * list event.

Definition ret {A} (a : A) : M A := fun w => (Ok a, w, []).

Definition raise {A} (e : exn) : M A := fun w => (Raise e, w, []).

Definition bind {A B} (m : M A) (f : A -> M B) : M B :=
  fun w =>
    match m w with
    | (Ok a, w1, t1) =>
        let '(r, w2, t2) := f a w1 in (r, w2, t1 ++ t2)
    | (Raise e, w1, t1) => (Raise e, w1, t1)
    | (OutOfFuel, w1, t1) => (OutOfFuel, w1, t1)
    end.

(** [try: m  except Exception: h] *)
Definition try_except {A} (m : M A) (h : M A) : M A :=
  fun w =>
    match m w with
    | (Raise _, w1, t1) =>
        let '(r, w2, t2) := h w1 in (r, w2, t1 ++ t2)
    | r => r
    end.

Definition out_of_fuel {A} : M A := fun w => (OutOfFuel, w, []).

Definition lift {A} (r : res A) : M A :=
  match r with
  | inl e => raise e
  | inr a => ret a
  end.

(** One call of a collaborator, logged. *)
Definition call {A} (f : W -> W * A) (ev : A -> event) : M A :=
  fun w => let '(w1, a) := f w in (Ok a, w1, [ev a]).

(** [for x in l: body], threading the loop's variables. *)
Fixpoint for_each {A S} (l : list A) (body : S -> A -> M S) (s : S)
  : M S :=
  match l with
  | [] => ret s
  | x :: l' => bind (body s x) (for_each l' body)
  end.
End Monad.

Arguments ret {W A}.
Arguments raise {W A}.
Arguments bind {W A B}.
Arguments try_except {W A}.
Arguments lift {W A}.
Arguments out_of_fuel {W A}.
Arguments call {W A}.
Arguments for_each {W A S}.

Declare Scope pipeline_scope.
Delimit Scope pipeline_scope with pipeline.
Notation "x <- m ;; k" := (bind m (fun x => k))
  (at level 100, m at next level, right associativity) : pipeline_scope.
Notation "m ;;; k" := (bind m (fun _ => k))
  (at level 100, right associativity) : pipeline_scope.
Open Scope pipeline_scope.

(** *** Email discovery *)

Definition BLACKLIST_DOMAINS : list str :=
  [py "instagram.com"; py "facebook.com"; py "linkedin.com"; py "linktr.ee";
   py "twitter.com"; py "youtube.com"; py "tiktok.com"].

Definition max_attempts : nat := 3.

Section Hunter.
Context {U : UnicodeDB} {W : Type}.
Variable svc : services W.
(** The text of [HUNTER_API_KEY] in the request URL. *)
Variable hunter_api_key : str.

(** [verify_email_address] *)
Definition verify_email_address (email : pyval) : M W (option str) :=
  r <- call (validate_email svc email) (fun _ => EvValidate email) ;;
  match r with
  | Normalized a => ret (Some a)
  | NotValid => ret None
  | CheckFailed => raise ExternalError
  end.

(** [if v: l.append(v)] for the result of [verify_email_address]. *)
Definition append_if_valid (l : list str) (v : option str) : list str :=
  match v with
  | Some a => if Queue.is_empty a then l else l ++ [a]
  | None => l
  end.

(** The branch for status 200. *)
Definition hunter_valid_emails (response : http_response)
  : M W (list str) :=
  data <- lift (match json_body response with
                | Some d => inr d
                | None => inl ExternalError
                end) ;;
  inner <- lift (py_get_default data (py "data") (PDict [])) ;;
  raw_emails <- lift (py_get_default inner (py "emails") (PList [])) ;;
  entries <- lift (py_iter raw_emails) ;;
  for_each entries
    (fun valid_emails e =>
       email_val <- lift (py_get e (py "value")) ;;
       if truthy email_val then
         verified <- verify_email_address email_val ;;
         ret (append_if_valid valid_emails verified)
       else ret valid_emails)
    [].

(** [int(retry_after) if retry_after else 2 ** attempts], with the
    fallback of the [except]. *)
Definition wait_seconds (response : http_response) (attempts : nat) : Z :=
  match retry_after response with
  | Some h =>
      if Queue.is_empty h then 2 ^ Z.of_nat attempts
      else match parse_int h with
           | Some n => n
           | None => 2 ^ Z.of_nat attempts
           end
  | None => 2 ^ Z.of_nat attempts
  end.

(** The [while attempts < max_attempts] loop; [attempts] is the counter
    on entry to the test, the fuel is the number of passes left. *)
Fixpoint hunter_loop (fuel attempts : nat) (url : str) : M W (list str) :=
  if (attempts <? max_attempts)%nat then
    match fuel with
    | O => out_of_fuel
    | S fuel' =>
        let attempts := S attempts in
        got <- call (requests_get svc url) (EvHttpGet url) ;;
        match got with
        | None => raise ExternalError
        | Some response =>
            if (status_code response =? 200)%Z then
              hunter_valid_emails response
            else if (status_code response =? 429)%Z then
              let wait := wait_seconds response attempts in
              slept <- call (time_sleep svc wait) (fun _ => EvSleep wait) ;;
              match slept with
              | Some e => raise e
              | None => hunter_loop fuel' attempts url
              end
            else ret []
        end
    end
  else ret [].

Definition hunter_url (domain : str) : str :=
  py "https://api.hunter.io/v2/domain-search?domain=" ++ domain
  ++ py "&api_key=" ++ hunter_api_key.

Definition fetch_hunter_emails (domain : str) : M W (list str) :=
  if existsb (fun b => contains b domain) BLACKLIST_DOMAINS then ret []
  else try_except (hunter_loop max_attempts 0 (hunter_url domain)) (ret []).
End Hunter.

(** *** The per-lead body *)

Definition NAO_DISPONIVEL : str :=
  py "N" ++ [227%N] ++ py "o dispon" ++ [237%N] ++ py "vel".

Definition country_map : list (str * str) :=
  [ (py "Brazil", py "BR"); (py "Brasil", py "BR"); (py "USA", py "US");
    (py "United States", py "US"); (py "France", py "FR");
    (py "Germany", py "DE"); (py "UK", py "GB");
    (py "United Kingdom", py "GB"); (py "Australia", py "AU");
    (py "Mexico", py "MX"); (py "M" ++ [233%N] ++ py "xico", py "MX");
    (py "Argentina", py "AR"); (py "Portugal", py "PT");
    (py "Spain", py "ES"); (py "Italy", py "IT"); (py "Canada", py "CA") ].

Definition lang_names : list (str * str) :=
  [ (py "pt", py "Portuguese"); (py "en", py "English");
    (py "es", py "Spanish"); (py "fr", py "French"); (py "de", py "German");
    (py "it", py "Italian"); (py "ja", py "Japanese");
    (py "zh", py "Chinese"); (py "ko", py "Korean"); (py "ar", py "Arabic");
    (py "ru", py "Russian") ].

(** [key.capitalize()] for the keys of [social_keywords], which are
    lower-case ASCII words. *)
Definition capitalize (s : str) : str :=
  match s with
  | [] => []
  | c :: s' => ascii_upper_char c :: List.map ascii_lower_char s'
  end.

Definition opt_to_list {A} (o : option A) : list A :=
  match o with
  | Some a => [a]
  | None => []
  end.

Section Lead.
Context {U : UnicodeDB} {W : Type}.
Variable svc : services W.
Variable json_loads : str -> option pyval.
Variable hunter_api_key : str.
(** The module-level [COMPANY_PROFILE]. *)
Variable COMPANY_PROFILE : pyval.
Variable output_lang : str.
Variable search_country : option str.

Definition crawl_page (url : str) : M W (option crawl_result) :=
  call (crawl svc url) (fun _ => EvCrawl url).

(** [analyze_with_gpt]: [None] is the value [PNone]. *)
Definition analyze_with_gpt (full_content : str) (raw_lead : pyval)
    (hunter_emails : list str) : M W pyval :=
  _company_name <- lift (py_get_default raw_lead (py "nome_empresa")
                           (PStr (py "Unknown"))) ;;
  let lang :=
    py "OUTPUT ALL TEXT FIELDS IN "
    ++ upper (default (py "English") (TaxId.table_get output_lang lang_names))
    ++ py "." in
  let country :=
    match search_country with
    | Some c =>
        if Queue.is_empty c then []
        else py "The business is located in " ++ c
             ++ py ". Include country and country_code "
             ++ py "(ISO 3166-1 alpha-2) in address_components."
    | None => []
    end in
  let req := FusionRequest lang country raw_lead hunter_emails
               (slice_to 20000%N full_content) COMPANY_PROFILE in
  reply <- call (completion svc req) (fun _ => EvCompletion req) ;;
  match reply with
  | Some text => ret (default PNone (json_loads text))
  | None => ret PNone
  end.

(** The test that sets [has_website], and [base_url] with its protocol. *)
Definition website_of (item base_url : pyval) : M W (option str) :=
  if truthy base_url then
    is_maps <- lift (py_in (py "google.com") base_url) ;;
    if is_maps then ret None
    else
      site <- lift (py_get item (py "website")) ;;
      if eq_str NAO_DISPONIVEL site then ret None
      else
        match base_url with
        | PStr s =>
            ret (Some (if startswith s (py "http") then s
                       else py "http://" ++ s))
        | _ => raise AttributeError
        end
  else ret None.

(** What the website stage leaves in the local variables. *)
Record site_data : Type := SiteData {
  home_result : option crawl_result;
  full_content : str;
  lead : pyval;                (* [item], with the social fields added *)
  hunter_emails : list str
}.

(** The body of [if has_website:]. *)
Definition website_stage (item : pyval) (base_url : str) : M W site_data :=
  home <- crawl_page base_url ;;
  let content0 :=
    match home with
    | Some r => py "# Homepage" ++ nl ++ markdown r ++ nl
    | None => []
    end in
  let internal_links := match home with Some r => internal r | None => [] end in
  let external_links := match home with Some r => external r | None => [] end in
  let social_links_to_crawl := Planner.plan_social external_links in
  content1 <-
    for_each (Planner.final_crawl_list base_url internal_links)
      (fun acc link_url =>
         sub <- crawl_page link_url ;;
         match sub with
         | Some r =>
             ret (acc ++ nl ++ py "# Page: " ++ link_url ++ nl
                  ++ markdown r ++ nl)
         | None => ret acc
         end)
      content0 ;;
  both <-
    for_each social_links_to_crawl
      (fun (acc : str * pyval) kl =>
         sub <- crawl_page (snd kl) ;;
         match sub with
         | Some r =>
             item' <- lift (py_setitem (snd acc) (fst kl) (PStr (snd kl))) ;;
             ret (fst acc ++ nl ++ py "# Social Media ("
                  ++ capitalize (fst kl) ++ py ")" ++ nl
                  ++ slice_to 2000%N (markdown r) ++ nl, item')
         | None => ret acc
         end)
      (content1, item) ;;
  emails <-
    try_except
      (if Queue.is_empty base_url then ret []
       else
         let domain :=
           split_head Planner.slash
             (replace (py "https://") []
                (replace (py "http://") [] base_url)) in
         fetch_hunter_emails svc hunter_api_key domain)
      (ret []) ;;
  ret (SiteData home (fst both) (snd both) emails).

(** The system-detected block appended to the content. *)
Definition system_context (home : option crawl_result) : str :=
  let detected_tax_id :=
    match home with
    | Some r =>
        let code :=
          match search_country with
          | Some c =>
              if Queue.is_empty c then None
              else TaxId.table_get c country_map
          | None => None
          end in
        TaxId.extract_tax_id (markdown r) code
    | None => None
    end in
  let detected_tech_stack :=
    match home with
    | Some r =>
        match html r with
        | Some h => Signals.detect_tech_stack h
        | None => []
        end
    | None => []
    end in
  nl ++ nl ++ py "[SYSTEM DETECTED DATA (High Confidence)]" ++ nl
  ++ match detected_tax_id with
     | Some t => py "TAX ID: " ++ TaxId.tax_type t ++ py " - "
                 ++ TaxId.tax_value t ++ nl
     | None => []
     end
  ++ match detected_tech_stack with
     | [] => []
     | _ => py "TECH STACK: " ++ join (py ", ") detected_tech_stack ++ nl
     end.
End Lead.

(** *** Post-processing and the loops of [main] *)

Section Main.
Context {U : UnicodeDB} {W : Type}.
Variable svc : services W.
Variable json_loads : str -> option pyval.
Variable hunter_api_key : str.
Variable COMPANY_PROFILE : pyval.
(** [os.path.join(out_dir, "final_leads.json")] *)
Variable final_file : str.
(** [os.path.splitext(p)[1]] *)
Variable path_ext : str -> str.
Variable output_lang : str.
Variable search_country : option str.

(** [fetch_cnpja_data] *)
Definition fetch_cnpja_data (cnpj : pyval) : M W pyval :=
  if negb (truthy cnpj) then ret PNone
  else
    digits <- lift (digits_of cnpj) ;;
    if negb (length digits =? 14)%nat then ret PNone
    else
      r <- call (registry svc digits) (fun _ => EvRegistry digits) ;;
      ret (default PNone r).

(** Step 1 of the post-processing, on [clean_profile['contact_details']]. *)
Definition validate_emails (details : pyval) : M W pyval :=
  has <- lift (py_in (py "emails") details) ;;
  if has then
    raw_final_emails <- lift (py_getitem details (py "emails")) ;;
    mails <- lift (py_iter raw_final_emails) ;;
    validated <-
      for_each mails
        (fun acc mail =>
           v_mail <- verify_email_address svc mail ;;
           ret (append_if_valid acc v_mail))
        [] ;;
    lift (py_setitem details (py "emails") (PList (List.map PStr validated)))
  else ret details.

(** Step 2, on the same object. *)
Definition attach_whatsapp (details : pyval) : M W pyval :=
  has <- lift (py_in (py "phones") details) ;;
  if has then
    phones <- lift (py_getitem details (py "phones")) ;;
    ps <- lift (py_iter phones) ;;
    whatsapp_links <-
      for_each ps
        (fun acc p =>
           wa <- lift (detect_whatsapp_val p) ;;
           match wa with
           | Some link =>
               ret (acc ++ [PDict [(py "phone", p); (py "link", PStr link)]])
           | None => ret acc
           end)
        [] ;;
    match whatsapp_links with
    | [] => ret details
    | _ => lift (py_setitem details (py "whatsapp_verified")
                   (PList whatsapp_links))
    end
  else ret details.

(** Step 4: the registry lookup for a Brazilian identifier. *)
Definition registry_data (clean_profile : pyval) : M W pyval :=
  info <- lift (py_get_default clean_profile (py "company_info") (PDict [])) ;;
  tax_id_info <- lift (py_get info (py "tax_id")) ;;
  match tax_id_info with
  | PDict (_ :: _) =>
      t <- lift (py_get tax_id_info (py "type")) ;;
      tax_type <- lift (py_upper (or_empty t)) ;;
      tax_value <- lift (py_get tax_id_info (py "value")) ;;
      c <- lift (py_get tax_id_info (py "country")) ;;
      tax_country <- lift (py_upper (or_empty c)) ;;
      if str_eqb tax_type (py "CNPJ") || str_eqb tax_country (py "BR") then
        if truthy tax_value then fetch_cnpja_data tax_value else ret PNone
      else ret PNone
  | _ => ret PNone
  end.

(** The body of [if clean_profile:], up to the object that is appended to
    [final_leads]. *)
Definition post_process (clean_profile : pyval) : M W pyval :=
  has <- lift (py_in (py "contact_details") clean_profile) ;;
  profile1 <-
    (if has then
       details <- lift (py_getitem clean_profile (py "contact_details")) ;;
       details1 <- validate_emails details ;;
       details2 <- attach_whatsapp details1 ;;
       lift (py_setitem clean_profile (py "contact_details") details2)
     else ret clean_profile) ;;
  let profile2 := Scrub.clean_recursive profile1 in
  cnpja_data <- registry_data profile2 ;;
  lift (py_setitem profile2 (py "cnpja_data") cnpja_data).

(** One pass of the per-lead logic, from the test on [base_url] to the
    append; the result is the profile appended to [final_leads], if any. *)
Definition lead_body (item base_url : pyval) : M W (option pyval) :=
  site <- website_of item base_url ;;
  data <-
    match site with
    | Some url => website_stage svc hunter_api_key item url
    | None => ret (SiteData None [] item [])
    end ;;
  let full :=
    full_content data ++ system_context search_country (home_result data) in
  clean_profile <-
    analyze_with_gpt svc json_loads COMPANY_PROFILE output_lang
      search_country full (lead data) (hunter_emails data) ;;
  if truthy clean_profile then
    final <- post_process clean_profile ;;
    ret (Some final)
  else ret None.

(** A loop pass of the streaming copies: the first two statements and
    the body. *)
Definition process_item (final_leads : list pyval) (item : pyval)
  : M W (list pyval) :=
  base_url <- lift (py_get item (py "website")) ;;
  added <- lead_body item base_url ;;
  ret (final_leads ++ opt_to_list added).

Definition open_queue (path : str) : M W nat :=
  h <- call (open_read svc path) (fun _ => EvOpen path) ;;
  match h with
  | Some fd => ret fd
  | None => raise ExternalError
  end.

(** One read of a line from an open file: the line, or the exception of a
    read that cannot be decoded, which none of the loops catches. *)
Definition read_line (fd : nat) : M W str :=
  r <- call (readline svc fd)
         (fun r => match r with
                   | Queue.Line line => EvReadline fd line
                   | Queue.Undecodable => EvReadFailed fd
                   end) ;;
  match r with
  | Queue.Line line => ret line
  | Queue.Undecodable => raise UnicodeDecodeError
  end.

(** [for item in iter_jsonl_objects(json_file)]: the file iterator ends
    where [readline] has nothing more to give. *)
Fixpoint backfill_loop (fuel : nat) (fd : nat) (final_leads : list pyval)
  : M W (list pyval) :=
  match fuel with
  | O => out_of_fuel
  | S fuel' =>
      line <- read_line fd ;;
      if Queue.is_empty line then ret final_leads
      else
        match Queue.objects_line json_loads false line with
        | Queue.Yield item =>
            leads <- process_item final_leads item ;;
            backfill_loop fuel' fd leads
        | _ => backfill_loop fuel' fd final_leads
        end
  end.

(** [for item in iter_jsonl_lines_follow(json_file)] *)
Fixpoint follow_loop (fuel : nat) (fd : nat) (final_leads : list pyval)
  : M W (list pyval) :=
  match fuel with
  | O => out_of_fuel
  | S fuel' =>
      line <- read_line fd ;;
      match Queue.follow_line json_loads line with
      | Queue.Poll =>
          call (poll_sleep svc) (fun _ => EvPoll) ;;;
          follow_loop fuel' fd final_leads
      | Queue.Skip => follow_loop fuel' fd final_leads
      | Queue.Stop => ret final_leads
      | Queue.Yield item =>
          leads <- process_item final_leads item ;;
          follow_loop fuel' fd leads
      end
  end.

(** The [if stream_mode:] branch: two readers on the same path, one after
    the other. *)
Definition stream_run (fuel : nat) (json_file : str) : M W (list pyval) :=
  fd1 <- open_queue json_file ;;
  leads <- backfill_loop fuel fd1 [] ;;
  fd2 <- open_queue json_file ;;
  follow_loop fuel fd2 leads.

(** The [else:] branch. The [for] holds only the two assignments; the
    per-lead logic comes after it and runs once, on the variables as the
    loop left them. *)
Definition bounded_run (items : pyval) : M W (list pyval) :=
  its <- lift (py_iter items) ;;
  last_vars <-
    for_each its
      (fun _ item =>
         base_url <- lift (py_get item (py "website")) ;;
         ret (Some (item, base_url)))
      None ;;
  match last_vars with
  | None => raise UnboundLocalError
  | Some (item, base_url) =>
      added <- lead_body item base_url ;;
      ret (opt_to_list added)
  end.

(** Reading the lines of a file to its end, for [load_items]. *)
Fixpoint read_lines (fuel : nat) (fd : nat) : M W (list str) :=
  match fuel with
  | O => out_of_fuel
  | S fuel' =>
      line <- read_line fd ;;
      if Queue.is_empty line then ret []
      else rest <- read_lines fuel' fd ;; ret (line :: rest)
  end.

Definition load_items (fuel : nat) (input_path : str) : M W pyval :=
  if str_eqb (path_ext (lower input_path)) (py ".jsonl") then
    fd <- open_queue input_path ;;
    lines <- read_lines fuel fd ;;
    ret (PList (Queue.load_items_jsonl json_loads lines))
  else
    r <- call (load_json svc input_path) (fun _ => EvLoadJson input_path) ;;
    match r with
    | Some v => ret v
    | None => raise ExternalError
    end.

Definition stream_mode_of (json_file : str) : bool :=
  endswith (lower json_file) (py ".jsonl").

(** The end of [main]: the output file, then the deletion of the input. *)
Definition finish (stream_mode : bool) (json_file : str)
    (final_leads : list pyval) : M W unit :=
  wrote <- call (write_json svc final_file final_leads)
             (EvWriteJson final_file final_leads) ;;
  match wrote with
  | Some e => raise e
  | None =>
      try_except
        (if negb stream_mode then
           there <- call (os_path_exists svc json_file)
                      (fun _ => EvExists json_file) ;;
           if there then
             removed <- call (os_remove svc json_file)
                          (fun _ => EvRemove json_file) ;;
             match removed with
             | Some e => raise e
             | None => ret tt
             end
           else ret tt
         else ret tt)
        (ret tt)
  end.
End Main.

Section Entry.
Context {U : UnicodeDB} {W : Type}.
Variable svc : services W.
Variable json_loads : str -> option pyval.
Variable hunter_api_key : str.
Variable COMPANY_PROFILE : pyval.
Variable final_file : str.
Variable path_ext : str -> str.

(** [main], from [sys.argv]. The fuel bounds the number of lines each
    reader may ask for; a run is complete when the outcome is not
    [OutOfFuel]. *)
Definition main (fuel : nat) (argv : list str) : M W unit :=
  match argv with
  | _ :: json_file :: options =>
      let output_lang :=
        match options with
        | l :: _ => l
        | [] => py "en"
        end in
      let search_country :=
        match options with
        | _ :: c :: _ => Some c
        | _ => None
        end in
      there <- call (os_path_exists svc json_file)
                 (fun _ => EvExists json_file) ;;
      if negb there then ret tt
      else
        let stream_mode := stream_mode_of json_file in
        items <- (if stream_mode then ret (PList [])
                  else load_items svc json_loads path_ext fuel json_file) ;;
        final_leads <-
          (if stream_mode
           then stream_run svc json_loads hunter_api_key COMPANY_PROFILE
                  output_lang search_country fuel json_file
           else bounded_run svc json_loads hunter_api_key COMPANY_PROFILE
                  output_lang search_country items) ;;
        finish svc final_file stream_mode json_file final_leads
  | _ => ret tt
  end.
End Entry.

End Pipeline.

(* ===================================================================== *)
(** ** A small concrete world, to run the pipeline on explicit inputs *)
(* ===================================================================== *)

Module Scenario.
Import Pipeline Dyn.

(** The JSON text of a value built from strings, lists, dicts, booleans and
    null, for strings that need no escape. *)
Fixpoint json_text (v : pyval) : str :=
  match v with
  | PNone => py "null"
  | PBool true => py "true"
  | PBool false => py "false"
  | PStr s => Signals.quote ++ s ++ Signals.quote
  | PList l => py "[" ++ join (py ", ") (List.map json_text l) ++ py "]"
  | PDict d =>
      py "{"
      ++ join (py ", ")
           (List.map
              (fun kv => Signals.quote ++ fst kv ++ Signals.quote ++ py ": "
                         ++ json_text (snd kv)) d)
      ++ py "}"
  | _ => []
  end.

(** [json.loads] on the texts of the listed values; every other text is
    taken as malformed. *)
Definition json_loads_on (known : list pyval) (text : str) : option pyval :=
  List.find (fun v => str_eqb (json_text v) text) known.

Record world : Type := World {
  text_files : list (str * list str);    (* path, lines with their newline *)
  json_files : list (str * pyval);       (* path, what [json.load] gives *)
  handles : list (str * nat);            (* open readers: path, lines read *)
  pages : list (str * crawl_result);     (* the pages that can be fetched *)
  http_replies : list (option http_response)
}.

Definition has_path {A} (p : str) (t : list (str * A)) : bool :=
  existsb (fun kv => str_eqb (fst kv) p) t.

Definition drop_path {A} (p : str) (t : list (str * A)) : list (str * A) :=
  List.filter (fun kv => negb (str_eqb (fst kv) p)) t.

Definition sc_open (p : str) (w : world) : world * option nat :=
  if has_path p (text_files w)
  then (World (text_files w) (json_files w) (handles w ++ [(p, 0)])
          (pages w) (http_replies w),
        Some (length (handles w)))
  else (w, None).

Definition sc_readline (fd : nat) (w : world) : world * Queue.read :=
  match handles w !! fd with
  | Some (p, pos) =>
      match TaxId.table_get p (text_files w) with
      | Some lines =>
          match lines !! pos with
          | Some line =>
              (World (text_files w) (json_files w)
                 (<[fd := (p, S pos)]> (handles w)) (pages w) (http_replies w),
               Queue.Line line)
          | None => (w, Queue.Line [])
          end
      | None => (w, Queue.Line [])
      end
  | None => (w, Queue.Line [])
  end.

Definition sc_get (w : world) : world * option http_response :=
  match http_replies w with
  | r :: rest =>
      (World (text_files w) (json_files w) (handles w) (pages w) rest, r)
  | [] => (w, None)
  end.

Definition sc_validate (addr : pyval) : email_check :=
  match addr with
  | PStr a => if contains (py "@") a then Normalized a else NotValid
  | _ => CheckFailed
  end.

(** The fused profile the completion service of the scenarios replies
    with: the company name of the lead it was given. *)
Definition profile_of (raw_lead : pyval) : pyval :=
  PDict [(py "company_info",
          PDict [(py "name",
                  match raw_lead with
                  | PDict d => default PNone (dict_get (py "nome_empresa") d)
                  | _ => PNone
                  end)])].

Definition sc_remove (p : str) (w : world) : world * option exn :=
  (World (drop_path p (text_files w)) (drop_path p (json_files w))
     (handles w) (pages w) (http_replies w), None).

Definition sc_services : services world := {|
  os_path_exists := fun p w =>
    (w, has_path p (text_files w) || has_path p (json_files w));
  open_read := sc_open;
  readline := sc_readline;
  load_json := fun p w => (w, TaxId.table_get p (json_files w));
  crawl := fun url w => (w, TaxId.table_get url (pages w));
  requests_get := fun _ => sc_get;
  time_sleep := fun n w => (w, if (n <? 0)%Z then Some ValueError else None);
  validate_email := fun a w => (w, sc_validate a);
  poll_sleep := fun w => (w, tt);
  completion := fun req w =>
    (w, Some (json_text (profile_of (raw_lead_data req))));
  registry := fun _ w => (w, None);
  write_json := fun _ _ w => (w, None);
  os_remove := sc_remove
|}.

(** Extension of a path name, for names with one dot and no directory. *)
Definition sc_ext (p : str) : str :=
  lstrip_where (fun c => negb (c =? 46)%N) p.

Definition final_file : str := py "final_leads.json".

Definition lead_named (n : string) : pyval :=
  PDict [(py "nome_empresa", PStr (py n))].

Definition lead_a : pyval := lead_named "Padaria A".
Definition lead_b : pyval := lead_named "Oficina B".

Definition known_values : list pyval :=
  [lead_a; lead_b; profile_of lead_a; profile_of lead_b].

(** The profile that ends up in the output for a lead of the scenarios. *)
Definition enriched (raw_lead : pyval) : pyval :=
  match profile_of raw_lead with
  | PDict d => PDict (d ++ [(py "cnpja_data", PNone)])
  | v => v
  end.

Definition run_main (w : world) (fuel : nat) (argv : list str)
  : outcome unit * world * list event :=
  main (U := ascii_db) sc_services (json_loads_on known_values) (py "key")
    (PDict []) final_file sc_ext fuel argv w.

(** A finished queue: one lead, then the marker. *)
Definition stream_world : world :=
  World [(py "queue.jsonl", [json_text lead_a ++ nl; py "__END__" ++ nl])]
    [] [] [] [].

(** A bounded queue of two leads without a website. *)
Definition bounded_world : world :=
  World [] [(py "leads.json", PList [lead_a; lead_b])] [] [] [].

(** An email-discovery service that answers 429 twice (the first time with
    a [Retry-After] of two seconds) and then finds one address. *)
Definition found_emails : pyval :=
  PDict [(py "data",
          PDict [(py "emails",
                  PList [PDict [(py "value", PStr (py "ana@site.com"))]])])].

Definition rate_limited_world : world :=
  World [] [] [] []
    [Some (HttpResponse 429 (Some (py "2")) None);
     Some (HttpResponse 429 None None);
     Some (HttpResponse 200 None (Some found_emails))].

Definition run_hunter (w : world) (domain : str)
  : outcome (list str) * world * list event :=
  fetch_hunter_emails (U := ascii_db) sc_services (py "key") domain w.

(** What that run is expected to do: sleep 2, ask again, sleep 4, ask a
    third and last time, check the address found. *)
Definition rate_limited_trace : list event :=
  let get := EvHttpGet
               (py "https://api.hunter.io/v2/domain-search?domain=site.com"
                ++ py "&api_key=key") in
  [get (Some (HttpResponse 429 (Some (py "2")) None)); EvSleep 2;
   get (Some (HttpResponse 429 None None)); EvSleep 4;
   get (Some (HttpResponse 200 None (Some found_emails)));
   EvValidate (PStr (py "ana@site.com"))].

(** The output written during a run. *)
Definition written (t : list event) : list (list pyval) :=
  omap (fun e => match e with
                 | EvWriteJson _ data _ => Some data
                 | _ => None
                 end) t.

(** The leads handed to the completion service, in order. *)
Definition fused (t : list event) : list pyval :=
  omap (fun e => match e with
                 | EvCompletion req => Some (raw_lead_data req)
                 | _ => None
                 end) t.

End Scenario.

(* ===================================================================== *)
(** ** Vocabulary of the properties: predicates on plans and traces *)
(* ===================================================================== *)

Module Traces.
Import Dyn Pipeline Planner.

(** What the loop over the internal links keeps true of its three
    accumulators. *)
Record plan_ok (base_url : str) (links : list str) (p : plan) : Prop :=
  PlanOk {
  ok_nodup : NoDup (priority_links p ++ other_links p);
  ok_seen : forall u,
      u ∈ priority_links p ++ other_links p <-> u ∈ unique_internal_urls p;
  ok_not_root : forall u,
      u ∈ unique_internal_urls p ->
      rstrip_char slash u <> rstrip_char slash base_url;
  ok_source : forall u,
      u ∈ unique_internal_urls p ->
      exists href, href ∈ links /\ u = normalize_url href base_url
}.

(** Where each URL of the two lists comes from. *)
Record classified {U : UnicodeDB} (base_url : str) (links : list str)
    (p : plan) : Prop := Classified {
  priority_from : forall u,
      u ∈ priority_links p ->
      exists href, href ∈ links /\ is_priority href = true
                   /\ u = normalize_url href base_url;
  other_from : forall u,
      u ∈ other_links p ->
      exists href, href ∈ links /\ is_priority href = false
                   /\ u = normalize_url href base_url
}.

(** [any(d in href for d in domains)], [href] being the lower-cased href
    of the link. *)
Definition social_match {U : UnicodeDB} (domains : list str) (href : str)
  : bool :=
  existsb (fun d => contains d (lower href)) domains.

(** What the loop over the external links keeps true of the dictionary of
    social links: one entry per platform, each the first link of the list
    that matches the platform, and no matched platform left out. *)
Record social_ok {U : UnicodeDB} (links : list str)
    (social : list (str * str)) : Prop := SocialOk {
  soc_nodup : NoDup (map fst social);
  soc_first : forall k h,
      (k, h) ∈ social ->
      exists domains pre post,
        (k, domains) ∈ social_keywords /\ links = pre ++ h :: post
        /\ social_match domains h = true
        /\ forall h', h' ∈ pre -> social_match domains h' = false;
  soc_all : forall k domains h,
      (k, domains) ∈ social_keywords -> h ∈ links ->
      social_match domains h = true -> k ∈ map fst social
}.

(** The same dictionary while the platforms are tried on the link [href]
    that comes after [done_links]. *)
Definition social_mid {U : UnicodeDB} (done_links : list str) (href : str)
    (social : list (str * str)) : Prop :=
  NoDup (map fst social)
  /\ (forall k h,
        (k, h) ∈ social ->
        exists domains pre post,
          (k, domains) ∈ social_keywords
          /\ done_links ++ [href] = pre ++ h :: post
          /\ social_match domains h = true
          /\ forall h', h' ∈ pre -> social_match domains h' = false)
  /\ (forall k domains h,
        (k, domains) ∈ social_keywords -> h ∈ done_links ->
        social_match domains h = true -> k ∈ map fst social).

(** One platform tried on one link: the body of the inner [for]. *)
Definition try_platform {U : UnicodeDB} (href : str)
    (social : list (str * str)) (kd : str * list str) : list (str * str) :=
  if negb (has_key (fst kd) social) && social_match (snd kd) href
  then social ++ [(fst kd, href)] else social.

Definition outcome_of {W A} (r : outcome A * W * list event) : outcome A :=
  fst (fst r).
Definition trace_of {W A} (r : outcome A * W * list event) : list event :=
  snd r.

(** Every action of [m], from any world, satisfies [P]. *)
Definition emits {W A} (P : event -> Prop) (m : M W A) : Prop :=
  forall w, Forall P (trace_of (m w)).

(** [m] never stops for want of fuel. *)
Definition total {W A} (m : M W A) : Prop :=
  forall w, outcome_of (m w) <> OutOfFuel.

Definition is_validate (e : event) : Prop :=
  match e with
  | EvValidate _ => True
  | _ => False
  end.

Definition is_request (e : event) : bool :=
  match e with
  | EvHttpGet _ _ => true
  | _ => false
  end.

(** The requests of a trace. *)
Definition requests (t : list event) : list event := List.filter is_request t.

(** What the [except] around the loop makes of an outcome. *)
Definition caught {A} (dflt : A) (o : outcome A) : outcome A :=
  match o with
  | Raise _ => Ok dflt
  | _ => o
  end.

Section Attempts.
Context {U : UnicodeDB}.

(** The shapes a run of the loop can take, from the pass that finds the
    counter at [k]: the outcome of the loop and its trace. *)
Inductive attempt_run (url : str)
  : nat -> outcome (list str) -> list event -> Prop :=
| run_exhausted k :
    (max_attempts <= k)%nat ->
    attempt_run url k (Ok []) []
| run_get_raised k :
    (k < max_attempts)%nat ->
    attempt_run url k (Raise ExternalError) [EvHttpGet url None]
| run_ok k r out tail :
    (k < max_attempts)%nat ->
    status_code r = 200%Z ->
    out <> OutOfFuel ->
    Forall is_validate tail ->
    attempt_run url k out (EvHttpGet url (Some r) :: tail)
| run_other k r :
    (k < max_attempts)%nat ->
    status_code r <> 200%Z -> status_code r <> 429%Z ->
    attempt_run url k (Ok []) [EvHttpGet url (Some r)]
| run_sleep_raised k r e :
    (k < max_attempts)%nat ->
    status_code r = 429%Z ->
    attempt_run url k (Raise e)
      [EvHttpGet url (Some r); EvSleep (wait_seconds r (S k))]
| run_retry k r out rest :
    (k < max_attempts)%nat ->
    status_code r = 429%Z ->
    attempt_run url (S k) out rest ->
    attempt_run url k out
      (EvHttpGet url (Some r) :: EvSleep (wait_seconds r (S k)) :: rest).
End Attempts.

(** Actions that touch neither the output file nor the input queue. *)
Definition quiet (e : event) : Prop :=
  match e with
  | EvWriteJson _ _ _ | EvRemove _ => False
  | _ => True
  end.

(** The three traces [finish] can leave. *)
Inductive finish_trace (final_file json_file : str) (stream_mode : bool)
  : list event -> Prop :=
| finish_written data failed :
    finish_trace final_file json_file stream_mode
      [EvWriteJson final_file data failed]
| finish_absent data :
    stream_mode = false ->
    finish_trace final_file json_file stream_mode
      [EvWriteJson final_file data None; EvExists json_file]
| finish_removed data :
    stream_mode = false ->
    finish_trace final_file json_file stream_mode
      [EvWriteJson final_file data None; EvExists json_file;
       EvRemove json_file].

(** A trace that is quiet up to a possible run of [finish] at its end. *)
Definition ends_with_finish (final_file json_file : str) (stream_mode : bool)
    (t : list event) : Prop :=
  exists pre post,
    t = pre ++ post /\ Forall quiet pre
    /\ (post = [] \/ finish_trace final_file json_file stream_mode post).

(** The values of the [website] field that keep [has_website] false: an
    absent field or any falsy value, a string that holds [google.com], the
    text the scraper writes for a missing site. *)
Definition unusable_website (v : pyval) : Prop :=
  truthy v = false
  \/ exists s, v = PStr s
              /\ (contains (py "google.com") s = true \/ s = NAO_DISPONIVEL).

Definition is_site_action (e : event) : Prop :=
  match e with
  | EvCrawl _ | EvHttpGet _ _ | EvSleep _ => True
  | _ => False
  end.

(** The entry [{"phone": p, "link": wa}] of a phone that is taken for a
    WhatsApp number. *)
Definition whatsapp_entry {U : UnicodeDB} (phone : str) : option pyval :=
  match Signals.detect_whatsapp phone with
  | Some link =>
      Some (PDict [(py "phone", PStr phone); (py "link", PStr link)])
  | None => None
  end.

(** The answers the validator gives to the addresses of a list, asked in
    turn from the world [w], and the world it leaves. *)
Fixpoint validator_answers {W} (svc : services W) (mails : list pyval)
    (w : W) : list email_check * W :=
  match mails with
  | [] => ([], w)
  | mail :: rest =>
      let (w1, r) := validate_email svc mail w in
      let (rs, w2) := validator_answers svc rest w1 in
      (r :: rs, w2)
  end.

(** The address an answer of the validator adds to the validated list:
    the normalized form of an accepted address, unless it is empty. *)
Definition accepted (r : email_check) : option str :=
  match r with
  | Normalized a => if Queue.is_empty a then None else Some a
  | _ => None
  end.

(** The value [m] returns, whenever it returns one, satisfies [Q]. *)
Definition returns {W A} (Q : A -> Prop) (m : M W A) : Prop :=
  forall w, match outcome_of (m w) with
            | Ok a => Q a
            | _ => True
            end.

(** The pages fetched, in order. *)
Definition crawled (t : list event) : list str :=
  omap (fun e => match e with
                 | EvCrawl u => Some u
                 | _ => None
                 end) t.

(** A profile that carries the registry field. *)
Definition has_registry_field (p : pyval) : Prop :=
  exists d, p = PDict d /\ is_Some (dict_get (py "cnpja_data") d).

Section Requests.
Context {U : UnicodeDB}.
Variable hunter_api_key : str.
Variable COMPANY_PROFILE : pyval.
Variable final_file : str.

(** A registry request carries fourteen characters, all digits. *)
Definition registry_ok (e : event) : Prop :=
  match e with
  | EvRegistry digits =>
      length digits = 14%nat /\ forallb isdigit digits = true
  | _ => True
  end.

(** A completion request carries at most 20000 characters of content and
    the configured company profile. *)
Definition prompt_ok (e : event) : Prop :=
  match e with
  | EvCompletion req =>
      (N.of_nat (length (content req)) <= 20000)%N
      /\ company_profile req = COMPANY_PROFILE
  | _ => True
  end.

(** An email-discovery request is the search URL of a domain that holds
    none of the blacklisted names. *)
Definition discovery_ok (e : event) : Prop :=
  match e with
  | EvHttpGet url _ =>
      exists domain,
        url = hunter_url hunter_api_key domain
        /\ Forall (fun b => contains b domain = false) BLACKLIST_DOMAINS
  | _ => True
  end.

(** The three conditions on the requests together. *)
Definition request_ok (e : event) : Prop :=
  registry_ok e /\ prompt_ok e /\ discovery_ok e.

(** A write goes to the output file and holds only profiles with the
    registry field. *)
Definition write_ok (e : event) : Prop :=
  match e with
  | EvWriteJson path data _ =>
      path = final_file /\ Forall has_registry_field data
  | _ => True
  end.
End Requests.

End Traces.

(* ===================================================================== *)
(** ** What a pattern accepts, independently of the search order *)
(* ===================================================================== *)

Module RegexSpec.
Import Regex.

Section Consumes.
Context {U : UnicodeDB}.
Variable ignorecase : bool.

(** [consumes r prev s prev' s']: at a position that comes after the
    character [prev], the pattern [r] accepts the part of [s] that ends
    where [s'] begins, [prev'] being the character before that point. *)
Inductive consumes
  : regex -> option char -> str -> option char -> str -> Prop :=
| consumes_eps prev s :
    consumes REps prev s prev s
| consumes_char cl x prev s :
    class_match ignorecase cl x = true ->
    consumes (RChar cl) prev (x :: s) (Some x) s
| consumes_seq r1 r2 prev s p1 s1 p2 s2 :
    consumes r1 prev s p1 s1 ->
    consumes r2 p1 s1 p2 s2 ->
    consumes (RSeq r1 r2) prev s p2 s2
| consumes_rep_stop r hi prev s :
    consumes (RRep r 0 hi) prev s prev s
| consumes_rep_more r lo hi prev s p1 s1 p2 s2 :
    consumes r prev s p1 s1 ->
    consumes (RRep r (pred lo) hi) p1 s1 p2 s2 ->
    consumes (RRep r lo (S hi)) prev s p2 s2
| consumes_not_behind cl prev s :
    match prev with
    | Some x => class_match ignorecase cl x = false
    | None => True
    end ->
    consumes (RNotBehind cl) prev s prev s
| consumes_not_ahead cl prev s :
    match s with
    | x :: _ => class_match ignorecase cl x = false
    | [] => True
    end ->
    consumes (RNotAhead cl) prev s prev s.
End Consumes.

(** [m] occurs in [text]. *)
Definition occurs_in (m text : str) : Prop :=
  exists before after, text = before ++ m ++ after.

End RegexSpec.

(* ===================================================================== *)
(** * Properties *)
(* ===================================================================== *)

(** ** Strings *)

Module PyStrFacts.

Lemma str_eqb_eq (a b : str) : str_eqb a b = true <-> a = b.
Proof.
  revert b. induction a as [|x a IH]; intros [|y b]; simpl; try easy.
  rewrite andb_true_iff, N.eqb_eq, IH. split.
  - intros [-> ->]. reflexivity.
  - intros [= -> ->]. auto.
Qed.

Lemma str_eqb_refl (a : str) : str_eqb a a = true.
Proof. apply str_eqb_eq. reflexivity. Qed.

Lemma str_eqb_neq (a b : str) : str_eqb a b = false <-> a <> b.
Proof.
  rewrite <- str_eqb_eq. destruct (str_eqb a b); split; congruence.
Qed.

Lemma startswith_prefix (s p : str) :
  startswith s p = true <-> exists t, s = p ++ t.
Proof.
  revert s. induction p as [|c p IH]; intros s; simpl.
  - split; [intros _; by exists s | done].
  - destruct s as [|d s]; simpl.
    + split; [discriminate | intros [t Ht]; discriminate].
    + rewrite andb_true_iff, N.eqb_eq, IH. split.
      * intros [-> [t ->]]. eauto.
      * intros [t [= -> ->]]. eauto.
Qed.

Lemma startswith_app (s t p : str) :
  startswith s p = true -> startswith (s ++ t) p = true.
Proof.
  rewrite !startswith_prefix. intros [u ->]. exists (u ++ t).
  by rewrite app_assoc.
Qed.

Lemma lstrip_where_app_stop (p : char -> bool) (s : str) (c : char) (t : str) :
  p c = false -> Forall (fun x => p x = true) s ->
  lstrip_where p (s ++ c :: t) = c :: t.
Proof.
  intros Hc. induction 1 as [|x s Hx _ IH]; simpl.
  - by rewrite Hc.
  - by rewrite Hx.
Qed.

(** Adding the stripped character at the end changes nothing for
    [rstrip]. *)
Lemma rstrip_char_snoc (c : char) (s : str) :
  rstrip_char c (s ++ [c]) = rstrip_char c s.
Proof.
  unfold rstrip_char, rstrip_where. rewrite rev_app_distr. simpl.
  by rewrite N.eqb_refl.
Qed.

End PyStrFacts.
Import PyStrFacts.

(** ** URL normalization *)

Module PlannerFacts.
Import Planner Traces.

(** C7. [normalize_url] is idempotent against a base that begins with
    [http]: normalizing the already normalized link against the same base
    gives the same URL. *)
Theorem normalize_url_idempotent (link_url base : str) :
  startswith base (py "http") = true ->
  normalize_url (normalize_url link_url base) base
  = normalize_url link_url base.
Proof.
  intros Hbase.
  assert (Hall : forall rest,
             normalize_url (base ++ rest) base = base ++ rest).
  { intros rest. unfold normalize_url.
    by rewrite (startswith_app base rest _ Hbase). }
  assert (Hcases : normalize_url link_url base = link_url
                   /\ startswith link_url (py "http") = true
                   \/ exists rest, normalize_url link_url base = base ++ rest).
  { unfold normalize_url.
    destruct (startswith link_url (py "http")) eqn:Hlink; simpl.
    - by left.
    - right.
      repeat match goal with
             | |- context [if ?b then _ else _] => destruct b
             end; eauto. }
  destruct Hcases as [[Heq Hlink] | [rest Heq]]; rewrite Heq.
  - exact Heq.
  - apply Hall.
Qed.

Lemma normalize_url_idempotent_witness :
  normalize_url (normalize_url (py "contato") (py "http://site.com"))
    (py "http://site.com")
  = normalize_url (py "contato") (py "http://site.com")
  /\ normalize_url (py "contato") (py "http://site.com")
     = py "http://site.com/contato".
Proof.
  split.
  - apply (normalize_url_idempotent (py "contato") (py "http://site.com")).
    reflexivity.
  - reflexivity.
Defined.

Section CrawlPlan.
Context {U : UnicodeDB}.
Variable base_url : str.

Lemma plan_ok_empty : plan_ok base_url [] empty_plan.
Proof.
  split; simpl.
  - constructor.
  - intros u. rewrite elem_of_nil, elem_of_empty. tauto.
  - intros u Hu. by apply elem_of_empty in Hu.
  - intros u Hu. by apply elem_of_empty in Hu.
Qed.

Lemma plan_ok_more (links : list str) (href : str) (p : plan) :
  plan_ok base_url links p -> plan_ok base_url (links ++ [href]) p.
Proof.
  intros [Hnd Hseen Hnot Hfrom]. split; auto.
  intros u Hu. destruct (Hfrom u Hu) as [h [Hh ->]].
  exists h. split; [apply elem_of_app; by left | done].
Qed.

Lemma plan_step_ok (links : list str) (p : plan) (href : str) :
  plan_ok base_url links p -> plan_ok base_url (links ++ [href]) (plan_step base_url p href).
Proof.
  intros Hok. unfold plan_step.
  destruct (Queue.is_empty href); [by apply plan_ok_more|].
  set (full_url := normalize_url href base_url).
  destruct (bool_decide (full_url ∈ unique_internal_urls p)) eqn:Hseen;
    simpl; [by apply plan_ok_more|].
  destruct (str_eqb (rstrip_char slash full_url) (rstrip_char slash base_url))
    eqn:Hroot; [by apply plan_ok_more|].
  apply bool_decide_eq_false in Hseen. apply str_eqb_neq in Hroot.
  destruct Hok as [Hnd Hseen' Hnot Hfrom].
  assert (Hfresh : full_url ∉ priority_links p ++ other_links p)
    by (by rewrite Hseen').
  assert (Hsrc : forall u,
             u ∈ unique_internal_urls p ∪ {[full_url]} ->
             exists h, h ∈ links ++ [href] /\ u = normalize_url h base_url).
  { intros u [Hu | Hu]%elem_of_union.
    - destruct (Hfrom u Hu) as [h [Hh ->]]. exists h.
      split; [apply elem_of_app; by left | done].
    - apply elem_of_singleton in Hu as ->. exists href.
      split; [|done].
      apply elem_of_app; right; by apply list_elem_of_singleton. }
  assert (Hnr : forall u,
             u ∈ unique_internal_urls p ∪ {[full_url]} ->
             rstrip_char slash u <> rstrip_char slash base_url).
  { intros u [Hu | Hu]%elem_of_union; [by apply Hnot|].
    by apply elem_of_singleton in Hu as ->. }
  assert (Hmem : forall u pre post,
             (u ∈ priority_links p ++ other_links p <-> u ∈ pre ++ post) ->
             (u ∈ (pre ++ [full_url]) ++ post
              <-> u ∈ unique_internal_urls p ∪ {[full_url]})
             /\ (u ∈ pre ++ post ++ [full_url]
                 <-> u ∈ unique_internal_urls p ∪ {[full_url]})).
  { intros u pre post Hpp.
    rewrite elem_of_union, elem_of_singleton, <- (Hseen' u), Hpp.
    rewrite !elem_of_app, !list_elem_of_singleton. tauto. }
  apply NoDup_app in Hnd as (Hp & Hdisj & Ho).
  rewrite elem_of_app in Hfresh.
  destruct (is_priority href); split; simpl; auto.
  - rewrite <- app_assoc. simpl.
    apply NoDup_app. split_and!; [done | | ].
    + intros x Hx [-> | Hxo]%elem_of_cons.
      * apply Hfresh. by left.
      * by apply (Hdisj x).
    + apply NoDup_cons. split; [|done]. intros Hin. apply Hfresh. by right.
  - intros u. by apply (Hmem u (priority_links p) (other_links p)).
  - apply NoDup_app. split_and!; [done | | ].
    + intros x Hx [Hxo | ->%list_elem_of_singleton]%elem_of_app.
      * by apply (Hdisj x).
      * apply Hfresh. by left.
    + apply NoDup_app. split_and!; [done | | apply NoDup_singleton].
      intros x Hx ->%list_elem_of_singleton. apply Hfresh. by right.
  - intros u. by apply (Hmem u (priority_links p) (other_links p)).
Qed.

Lemma plan_fold_ok (links done_links : list str) (p : plan) :
  plan_ok base_url done_links p ->
  plan_ok base_url (done_links ++ links) (fold_left (plan_step base_url) links p).
Proof.
  revert done_links p. induction links as [|href links IH];
    intros done_links p Hok; simpl.
  - by rewrite app_nil_r.
  - replace (done_links ++ href :: links)
      with ((done_links ++ [href]) ++ links) by (by rewrite <- app_assoc).
    apply IH. by apply plan_step_ok.
Qed.

Lemma plan_internal_ok (internal_links : list str) :
  plan_ok base_url internal_links (plan_internal base_url internal_links).
Proof. apply (plan_fold_ok internal_links [] empty_plan plan_ok_empty). Qed.
End CrawlPlan.

(** C6. The crawl plan built from any list of internal links and any base
    URL (priority list followed by general list) holds no URL twice, and
    none of its URLs is the lead's root up to trailing slashes:
    in particular none is the base URL, the base URL with a slash added,
    or the base URL with its last slash removed. Every URL of the plan is
    the normalized form of one of the links. *)
Theorem crawl_plan_nodup_no_root {U : UnicodeDB}
    (base_url : str) (internal_links : list str) :
  NoDup (final_crawl_list base_url internal_links)
  /\ forall u, u ∈ final_crawl_list base_url internal_links ->
       rstrip_char slash u <> rstrip_char slash base_url
       /\ u <> base_url
       /\ u <> base_url ++ [slash]
       /\ u ++ [slash] <> base_url
       /\ exists href, href ∈ internal_links
                       /\ u = normalize_url href base_url.
Proof.
  destruct (plan_internal_ok base_url internal_links) as [H1 H2 H3 H4].
  unfold final_crawl_list. split; [exact H1|].
  intros u Hu. apply H2 in Hu. pose proof (H3 u Hu) as Hne.
  split_and!; [done | | | | by apply H4].
  - intros ->. by apply Hne.
  - intros ->. apply Hne. apply rstrip_char_snoc.
  - intros <-. apply Hne. symmetry. apply rstrip_char_snoc.
Qed.

Lemma crawl_plan_nodup_no_root_witness :
  let pages :=
    final_crawl_list (U := ascii_db) (py "http://site.com")
      [py "/contato"; py "/"; py "blog"; py "/contato";
       py "http://site.com/"] in
  pages = [py "http://site.com/contato"; py "http://site.com/blog"]
  /\ NoDup pages
  /\ py "http://site.com/blog" <> py "http://site.com".
Proof.
  pose proof (crawl_plan_nodup_no_root (U := ascii_db) (py "http://site.com")
                [py "/contato"; py "/"; py "blog"; py "/contato";
                 py "http://site.com/"]) as [Hnd Hall].
  assert (Heval : final_crawl_list (U := ascii_db) (py "http://site.com")
                    [py "/contato"; py "/"; py "blog"; py "/contato";
                     py "http://site.com/"]
                  = [py "http://site.com/contato"; py "http://site.com/blog"])
    by (vm_compute; reflexivity).
  simpl. split_and!; [exact Heval | exact Hnd |].
  apply (Hall (py "http://site.com/blog")).
  rewrite Heval. apply list_elem_of_In. simpl. auto.
Defined.

End PlannerFacts.

(** ** Messaging deep-link *)

Module SignalsFacts.
Import Signals.

(** C8. For every phone string, with [digits] its digit sequence:
    eleven digits give the messaging URL of [55] followed by the digits;
    thirteen digits that begin with [55] give the messaging URL of the
    digits as they are; every other phone string (empty, 7, 10 or 12 digits
    among them) gives no link. *)
Theorem detect_whatsapp_exact {U : UnicodeDB} (phone : str) :
  let digits := List.filter isdigit phone in
  (length digits = 11 ->
   detect_whatsapp phone = Some (py "https://wa.me/55" ++ digits))
  /\ (length digits = 13 -> startswith digits (py "55") = true ->
      detect_whatsapp phone = Some (py "https://wa.me/" ++ digits))
  /\ (length digits <> 11 ->
      ~ (length digits = 13 /\ startswith digits (py "55") = true) ->
      detect_whatsapp phone = None).
Proof.
  intros digits.
  assert (Hcore : detect_whatsapp phone = whatsapp_of_digits digits).
  { unfold detect_whatsapp. destruct phone; reflexivity. }
  rewrite Hcore. unfold whatsapp_of_digits.
  destruct (Nat.eqb_spec (length digits) 11) as [H11|H11];
    [split_and!; [done | intros; lia | done] |].
  destruct (Nat.eqb_spec (length digits) 10) as [H10|H10];
    [split_and!; [done | intros; lia | done] |].
  destruct (Nat.eqb_spec (length digits) 13) as [H13|H13].
  - destruct (Nat.leb_spec 12 (length digits)); [|lia]. cbn [andb].
    destruct (startswith digits (py "55")) eqn:H55.
    + split_and!; [done | done | intros _ Hno; exfalso; by apply Hno].
    + split_and!; done.
  - split_and!; [done | done |]. intros _ _.
    by destruct (12 <=? length digits)%nat, (startswith digits (py "55")).
Qed.

Lemma detect_whatsapp_exact_witness :
  detect_whatsapp (U := ascii_db) (py "+5511999999999")
  = Some (py "https://wa.me/5511999999999")
  /\ detect_whatsapp (U := ascii_db) (py "(11) 99999-9999")
     = Some (py "https://wa.me/5511999999999")
  /\ detect_whatsapp (U := ascii_db) (py "1234567") = None
  /\ detect_whatsapp (U := ascii_db) (py "551199999999") = None.
Proof.
  split_and!.
  - apply (detect_whatsapp_exact (U := ascii_db) (py "+5511999999999"));
      reflexivity.
  - apply (detect_whatsapp_exact (U := ascii_db) (py "(11) 99999-9999")).
    reflexivity.
  - apply (detect_whatsapp_exact (U := ascii_db) (py "1234567")).
    + vm_compute. lia.
    + vm_compute. intros [H _]. lia.
  - apply (detect_whatsapp_exact (U := ascii_db) (py "551199999999")).
    + vm_compute. lia.
    + vm_compute. intros [H _]. lia.
Defined.

(** On a string, the version of the pipeline (which takes whatever the phone
    list holds) is [detect_whatsapp]. *)
Lemma detect_whatsapp_val_str {U : UnicodeDB} (phone : str) :
  Dyn.detect_whatsapp_val (PStr phone) = inr (detect_whatsapp phone).
Proof.
  unfold Dyn.detect_whatsapp_val, detect_whatsapp.
  destruct phone as [|c phone]; [reflexivity|].
  cbn [truthy negb Queue.is_empty].
  assert (Hdigits : forall s,
             Dyn.digits_of (PStr s) = inr (List.filter isdigit s)).
  { unfold Dyn.digits_of. simpl. induction s as [|x s IH]; [reflexivity|].
    simpl. rewrite IH. simpl. unfold Dyn.str_isdigit. simpl.
    rewrite andb_true_r. by destruct (isdigit x). }
  by rewrite Hdigits.
Qed.

End SignalsFacts.

(** ** Queue readers *)

Module QueueFacts.
Import Queue.

Section Follow.
Variable json_loads : str -> option pyval.

(** A read that is not the marker leaves the generator where it was,
    with at most one more object handed out. *)
Lemma follow_line_not_stop (line : str) :
  strip line <> END_TOKEN -> follow_line json_loads line <> Stop.
Proof.
  intros Hne. unfold follow_line.
  destruct (is_empty line); [done|].
  destruct (is_empty (strip line)); [done|].
  destruct (str_eqb (strip line) END_TOKEN) eqn:Heq.
  - by apply str_eqb_eq in Heq.
  - by destruct (json_loads (strip line)).
Qed.

Lemma follow_line_stop (line : str) :
  strip line = END_TOKEN -> follow_line json_loads line = Stop.
Proof.
  intros Heq. unfold follow_line.
  destruct line as [|c line]; [by vm_compute in Heq|].
  simpl. rewrite Heq. reflexivity.
Qed.

(** The objects a run of decoded reads without the marker hands out. *)
Lemma follow_yields (reads : list str) :
  Forall (fun l => strip l <> END_TOKEN) reads ->
  yielded (iter_jsonl_lines_follow json_loads (List.map Line reads))
  = omap (parsed json_loads) reads.
Proof.
  induction 1 as [|line reads Hne _ IH]; [reflexivity|].
  simpl. unfold parsed, follow_line in *.
  destruct line as [|c line]; [done|].
  cbn [is_empty].
  destruct (is_empty (strip (c :: line))); [done|].
  destruct (str_eqb (strip (c :: line)) END_TOKEN) eqn:Heq;
    [by apply str_eqb_eq in Heq|].
  destruct (json_loads (strip (c :: line))); simpl; by rewrite IH.
Qed.

(** Decoded reads without the marker leave the generator running, with
    every read taken. *)
Lemma follow_running (reads : list str) :
  Forall (fun l => strip l <> END_TOKEN) reads ->
  state (iter_jsonl_lines_follow json_loads (List.map Line reads)) = Running
  /\ unread (iter_jsonl_lines_follow json_loads (List.map Line reads)) = [].
Proof.
  induction 1 as [|line l Hne _ IH]; [done|]. simpl.
  pose proof (follow_line_not_stop line Hne).
  destruct (follow_line json_loads line); simpl; tauto.
Qed.

(** What comes after such reads decides alone what state they lead to and
    what is left unread; the objects handed out add up. *)
Lemma follow_after (pre : list str) (rest : list read) :
  Forall (fun l => strip l <> END_TOKEN) pre ->
  iter_jsonl_lines_follow json_loads (List.map Line pre ++ rest)
  = FollowResult
      (omap (parsed json_loads) pre
       ++ yielded (iter_jsonl_lines_follow json_loads rest))
      (state (iter_jsonl_lines_follow json_loads rest))
      (unread (iter_jsonl_lines_follow json_loads rest)).
Proof.
  induction 1 as [|line l Hne _ IH]; simpl.
  - by destruct (iter_jsonl_lines_follow json_loads rest).
  - pose proof (follow_line_not_stop line Hne) as Hns.
    unfold parsed. unfold follow_line in *.
    destruct line as [|c line]; [by rewrite IH|]. cbn [is_empty] in *.
    destruct (is_empty (strip (c :: line))); [by rewrite IH|].
    destruct (str_eqb (strip (c :: line)) END_TOKEN); [done|].
    destruct (json_loads (strip (c :: line))); by rewrite IH.
Qed.

(** The marker after them makes it return, leaving the rest unread. *)
Lemma follow_stops_at (pre : list str) (post : list read) (s : str) :
  Forall (fun l => strip l <> END_TOKEN) pre ->
  strip s = END_TOKEN ->
  iter_jsonl_lines_follow json_loads (List.map Line pre ++ Line s :: post)
  = FollowResult
      (yielded (iter_jsonl_lines_follow json_loads (List.map Line pre)))
      Returned post.
Proof.
  intros Hpre Hs. rewrite (follow_after pre _ Hpre), (follow_yields pre Hpre).
  simpl. rewrite (follow_line_stop s Hs). simpl. by rewrite app_nil_r.
Qed.

(** A read that cannot be decoded ends the generator without the marker:
    what follows is never read, the marker included. *)
Lemma follow_aborts_at (pre : list str) (post : list read) :
  Forall (fun l => strip l <> END_TOKEN) pre ->
  iter_jsonl_lines_follow json_loads (List.map Line pre ++ Undecodable :: post)
  = FollowResult (omap (parsed json_loads) pre) Aborted post.
Proof.
  intros Hpre. rewrite (follow_after pre _ Hpre). simpl.
  by rewrite app_nil_r.
Qed.

(** What holds of the follow loop on reads that all decode: it returns
    exactly at the first read that strips to the marker. For every sequence
    of such reads [pre] without the marker: after them the generator is
    still running, having taken every read (a blank line, a malformed line
    or an empty read never ends it), and what it has handed out are the
    objects of the well-formed lines; if the next read strips to the
    marker, the generator returns there, whatever follows ([post]) is never
    read, and nothing of it is handed out. On a file whose reads all decode
    and never show the marker the generator is running after any number of
    reads. *)
Theorem follow_returns_exactly_at_marker (pre : list str)
    (post : list read) :
  Forall (fun l => strip l <> END_TOKEN) pre ->
  (state (iter_jsonl_lines_follow json_loads (List.map Line pre)) = Running
   /\ unread (iter_jsonl_lines_follow json_loads (List.map Line pre)) = []
   /\ yielded (iter_jsonl_lines_follow json_loads (List.map Line pre))
      = omap (parsed json_loads) pre)
  /\ (forall s, strip s = END_TOKEN ->
        iter_jsonl_lines_follow json_loads
          (List.map Line pre ++ Line s :: post)
        = FollowResult
            (yielded (iter_jsonl_lines_follow json_loads (List.map Line pre)))
            Returned post)
  /\ (forall reads : nat -> str,
        (forall n, strip (reads n) <> END_TOKEN) ->
        forall n,
          state (iter_jsonl_lines_follow json_loads
                   (first_reads (fun k => Line (reads k)) n))
          = Running).
Proof.
  intros Hpre. split_and!.
  - by apply follow_running.
  - by apply follow_running.
  - by apply follow_yields.
  - intros s Hs. by apply follow_stops_at.
  - intros reads Hnever n. unfold first_reads.
    rewrite <- (List.map_map reads Line).
    apply follow_running.
    apply Forall_forall. intros l Hl.
    apply list_elem_of_In, in_map_iff in Hl as [k [<- _]]. apply Hnever.
Qed.

(** On the lines of a file at rest (a line read from a file is never the
    empty string) the first reader hands out the objects of all the lines. *)
Lemma objects_yields (lines : list str) :
  Forall (fun l => strip l <> END_TOKEN) lines ->
  iter_jsonl_objects json_loads lines = omap (parsed json_loads) lines.
Proof.
  induction 1 as [|line lines Hne _ IH]; [reflexivity|].
  simpl. unfold parsed, objects_line in *.
  destruct (is_empty (strip line)); [done|]. cbn [orb negb andb].
  apply str_eqb_neq in Hne. rewrite Hne.
  destruct (json_loads (strip line)); simpl; by rewrite IH.
Qed.

(** X2. The two readers of the streaming branch, each from the top of the
    same finished file: the second hands out again every object the first
    handed out from the lines before the marker. *)
Lemma both_readers_yield_the_lines_before_marker
    (lines post : list str) (s : str) :
  Forall (fun l => strip l <> END_TOKEN) lines ->
  strip s = END_TOKEN ->
  yielded (iter_jsonl_lines_follow json_loads
             (List.map Line (lines ++ s :: post)))
  = iter_jsonl_objects json_loads lines.
Proof.
  intros Hlines Hs. rewrite map_app. cbn [List.map].
  rewrite (follow_stops_at lines (List.map Line post) s Hlines Hs). simpl.
  rewrite (follow_yields lines Hlines). symmetry. by apply objects_yields.
Qed.

End Follow.

(** A queue of one lead, a blank line, a broken line, the marker and one
    more lead: the loop hands out the first lead only and never asks for
    the line after the marker. *)
Lemma follow_returns_exactly_at_marker_witness :
  let loads := Scenario.json_loads_on Scenario.known_values in
  let l1 := Scenario.json_text Scenario.lead_a ++ nl in
  let l2 := Scenario.json_text Scenario.lead_b ++ nl in
  iter_jsonl_lines_follow loads
    (List.map Line [l1; nl; py "{broken" ++ nl; []]
     ++ Line (py " __END__ " ++ nl) :: [Line l2])
  = FollowResult [Scenario.lead_a] Returned [Line l2].
Proof.
  intros loads l1 l2.
  pose proof (follow_returns_exactly_at_marker loads
                [l1; nl; py "{broken" ++ nl; []] [Line l2]) as H.
  destruct H as (_ & Hstop & _).
  - repeat constructor; vm_compute; discriminate.
  - etrans; [apply (Hstop (py " __END__ " ++ nl)); reflexivity|].
    vm_compute. reflexivity.
Defined.

(** C9. The follow loop on a queue that is being written: one lead, then
    a read that cannot be decoded (the writer has flushed the first byte of
    a two-byte character and no more), then the marker. The generator hands
    out the lead and ends at the second read with the exception of
    [readline], which is called outside the [try]: it has ended although no
    marker was read, and the marker is never read (the specification has
    the loop go on until the marker, for every sequence of lines, with
    malformed lines passed over). The same for every run of decoded reads
    without the marker that such a read follows. A marker that reaches the
    reader in two reads is not seen either: the generator stays in its
    loop. *)
Theorem follow_aborts_on_undecodable_read :
  let loads := Scenario.json_loads_on Scenario.known_values in
  let l1 := Scenario.json_text Scenario.lead_a ++ nl in
  let marker := Line (py "__END__" ++ nl) in
  iter_jsonl_lines_follow loads [Line l1; Undecodable; marker]
  = FollowResult [Scenario.lead_a] Aborted [marker]
  /\ (forall (json_loads : str -> option pyval) (pre : list str)
             (post : list read),
        Forall (fun l => strip l <> END_TOKEN) pre ->
        iter_jsonl_lines_follow json_loads
          (List.map Line pre ++ Undecodable :: post)
        = FollowResult (omap (parsed json_loads) pre) Aborted post)
  /\ iter_jsonl_lines_follow loads
       [Line l1; Line (py "__EN"); Line (py "D__" ++ nl); Line []]
     = FollowResult [Scenario.lead_a] Running [].
Proof.
  split_and!.
  - vm_compute. reflexivity.
  - intros json_loads pre post Hpre. by apply follow_aborts_at.
  - vm_compute. reflexivity.
Qed.

End QueueFacts.

(** ** Scrub and tax identifier: what the code does on the inputs where it
    parts from the specification *)

Module ScrubFacts.
Import Scrub.

(** What does hold: a string that is the value of a dict key is replaced
    when it holds the token, at the top of the profile... *)
Lemma clean_recursive_dict_value (k : str) (s : str) (d : list (str * pyval)) :
  contains PENDING s = true ->
  clean_recursive (PDict ((k, PStr s) :: d))
  = match clean_recursive (PDict d) with
    | PDict d' => PDict ((k, PNone) :: d')
    | v => v
    end.
Proof. intros H. simpl. by rewrite H. Qed.

(** ...and a list of strings is left as it is, whatever the strings hold. *)
Lemma clean_recursive_list_of_strings (l : list str) :
  clean_recursive (PList (List.map PStr l)) = PList (List.map PStr l).
Proof.
  simpl. f_equal. induction l as [|s l IH]; [done|]. simpl. by rewrite IH.
Qed.

(** What the scrub does achieve, at any depth: afterwards no dict value is
    a string with the token... *)
Lemma clean_recursive_cleans_fields (v : pyval) :
  fields_clean (clean_recursive v) = true.
Proof.
  induction v as [| | | | |l IH|d IH] using pyval_ind'; try reflexivity.
  - simpl. induction IH as [|x l Hx _ IHl]; [done|]. simpl.
    rewrite IHl, andb_true_r. exact Hx.
  - simpl. induction IH as [|[k x] d Hx _ IHd]; [done|]. simpl in *.
    rewrite IHd, andb_true_r.
    destruct x as [| | | |s| |]; try exact Hx; try reflexivity.
    destruct (contains PENDING s) eqn:Hs; simpl; [done|]. by rewrite Hs.
Qed.

(** ...and an object whose dict values are already free of it is left as it
    is: the fields without the token are not altered. *)
Lemma clean_recursive_keeps_clean (v : pyval) :
  fields_clean v = true -> clean_recursive v = v.
Proof.
  induction v as [| | | | |l IH|d IH] using pyval_ind'; try reflexivity.
  - simpl. intros Hl. f_equal.
    induction IH as [|x l Hx _ IHl]; [done|]. simpl in *.
    apply andb_true_iff in Hl as [Hc Hl]. by rewrite Hx, IHl.
  - simpl. intros Hd. f_equal.
    induction IH as [|[k x] d Hx _ IHd]; [done|]. simpl in *.
    apply andb_true_iff in Hd as [Hc Hd]. rewrite (IHd Hd). f_equal.
    destruct x as [| | | |s| |]; try (by rewrite (Hx Hc)); try reflexivity.
    apply negb_true_iff in Hc. by rewrite Hc.
Qed.

(** C3. The scrub applied to a profile with the token as a dict value two
    levels down and as an element of a list: the dict value becomes [None],
    the list element stays (the specification wants it replaced too). A list of
    strings is returned unchanged whatever it holds. *)
Theorem clean_recursive_misses_list_elements :
  clean_recursive
    (PDict [(py "a", PDict [(py "b", PStr (py "Pendente"))]);
            (py "phones", PList [PStr (py "Pendente"); PStr (py "+5511")])])
  = PDict [(py "a", PDict [(py "b", PNone)]);
           (py "phones", PList [PStr (py "Pendente"); PStr (py "+5511")])]
  /\ forall l : list str,
       clean_recursive (PList (List.map PStr l)) = PList (List.map PStr l).
Proof.
  split; [vm_compute; reflexivity | apply clean_recursive_list_of_strings].
Qed.

End ScrubFacts.

Module TaxIdFacts.
Import Regex TaxId.

Section Guard.
Context {U : UnicodeDB}.

(** With a hint that is not Brazil, the Brazilian pattern is never
    consulted: the result is the hinted match or else the generic one. *)
Lemma extract_tax_id_hint_not_br (text cc : str) :
  text <> [] -> cc <> [] -> upper cc <> py "BR" ->
  extract_tax_id text (Some cc)
  = match hinted_match text (Some cc) with
    | Some r => Some r
    | None => vat_match text
    end.
Proof.
  intros Ht Hc Hbr. unfold extract_tax_id.
  destruct text as [|c text]; [done|]. cbn [Queue.is_empty].
  destruct (hinted_match (c :: text) (Some cc)); [done|].
  unfold br_guard. destruct cc as [|c' cc]; [done|]. cbn [Queue.is_empty orb].
  apply str_eqb_neq in Hbr. by rewrite Hbr.
Qed.

(** Without a hint the Brazilian pattern comes first. *)
Lemma extract_tax_id_no_hint (text : str) :
  text <> [] ->
  extract_tax_id text None
  = match br_match text with
    | Some r => Some r
    | None => vat_match text
    end.
Proof. intros Ht. unfold extract_tax_id. by destruct text. Qed.
End Guard.

(** C4. A text with a CNPJ and the hint [US]: the hinted pattern finds
    nothing, the Brazilian pattern would match, yet the function returns
    nothing, because the fallback is tried only without a hint or with the
    hint [BR] (the specification has it tried after any hint that did not
    match).
    Without a hint the same text gives the CNPJ. *)
Theorem extract_tax_id_unmatched_hint_skips_br :
  let text := py "CNPJ 12.345.678/0001-90" in
  let cnpj :=
    MkTaxId (py "CNPJ") (py "12.345.678/0001-90") (py "BR") CNPJ_name in
  hinted_match (U := ascii_db) text (Some (py "US")) = None
  /\ br_match (U := ascii_db) text = Some cnpj
  /\ extract_tax_id (U := ascii_db) text (Some (py "US")) = None
  /\ extract_tax_id (U := ascii_db) text None = Some cnpj.
Proof. vm_compute. auto. Qed.

End TaxIdFacts.

(** ** The effectful pipeline *)

Module PipelineFacts.
Import Dyn Pipeline Traces.

Section MonadFacts.
Context {W : Type}.
Variable P : event -> Prop.

Lemma emits_ret {A} (a : A) : emits P (ret (W := W) a).
Proof. intros w. constructor. Qed.

Lemma emits_raise {A} (e : exn) : emits P (raise (W := W) (A := A) e).
Proof. intros w. constructor. Qed.

Lemma emits_out_of_fuel {A} : emits P (out_of_fuel (W := W) (A := A)).
Proof. intros w. constructor. Qed.

Lemma emits_lift {A} (r : res A) : emits P (lift (W := W) r).
Proof. destruct r; [apply emits_raise | apply emits_ret]. Qed.

Lemma emits_call {A} (f : W -> W * A) (ev : A -> event) :
  (forall a, P (ev a)) -> emits P (call f ev).
Proof.
  intros H w. unfold call, trace_of. destruct (f w) as [w1 a]. simpl.
  constructor; [apply H | constructor].
Qed.

Lemma emits_bind {A B} (m : M W A) (f : A -> M W B) :
  emits P m -> (forall a, emits P (f a)) -> emits P (bind m f).
Proof.
  intros Hm Hf w. unfold bind, trace_of. specialize (Hm w).
  unfold trace_of in Hm.
  destruct (m w) as [[[a| e |] w1] t1]; simpl in *; try done.
  specialize (Hf a w1). unfold trace_of in Hf.
  destruct (f a w1) as [[r w2] t2]. simpl in *.
  apply Forall_app. by split.
Qed.

Lemma emits_try {A} (m h : M W A) :
  emits P m -> emits P h -> emits P (try_except m h).
Proof.
  intros Hm Hh w. unfold try_except, trace_of. specialize (Hm w).
  unfold trace_of in Hm.
  destruct (m w) as [[[a| e |] w1] t1]; simpl in *; try done.
  specialize (Hh w1). unfold trace_of in Hh.
  destruct (h w1) as [[r w2] t2]. simpl in *.
  apply Forall_app. by split.
Qed.

Lemma emits_for_each {A S} (l : list A) (body : S -> A -> M W S) (s : S) :
  (forall s x, emits P (body s x)) -> emits P (for_each l body s).
Proof.
  intros Hb. revert s. induction l as [|x l IH]; intros s; simpl.
  - apply emits_ret.
  - apply emits_bind; [apply Hb | apply IH].
Qed.
End MonadFacts.

Section TotalFacts.
Context {W : Type}.

Lemma total_ret {A} (a : A) : total (ret (W := W) a).
Proof. intros w. done. Qed.

Lemma total_raise {A} (e : exn) : total (raise (W := W) (A := A) e).
Proof. intros w. done. Qed.

Lemma total_lift {A} (r : res A) : total (lift (W := W) r).
Proof. destruct r; [apply total_raise | apply total_ret]. Qed.

Lemma total_call {A} (f : W -> W * A) (ev : A -> event) :
  total (call f ev).
Proof. intros w. unfold call, outcome_of. by destruct (f w). Qed.

Lemma total_bind {A B} (m : M W A) (f : A -> M W B) :
  total m -> (forall a, total (f a)) -> total (bind m f).
Proof.
  intros Hm Hf w. unfold bind, outcome_of. specialize (Hm w).
  unfold outcome_of in Hm.
  destruct (m w) as [[[a| e |] w1] t1]; simpl in *; try done.
  specialize (Hf a w1). unfold outcome_of in Hf.
  by destruct (f a w1) as [[r w2] t2].
Qed.

Lemma total_try {A} (m h : M W A) :
  total m -> total h -> total (try_except m h).
Proof.
  intros Hm Hh w. unfold try_except, outcome_of. specialize (Hm w).
  unfold outcome_of in Hm.
  destruct (m w) as [[[a| e |] w1] t1]; simpl in *; try done.
  specialize (Hh w1). unfold outcome_of in Hh.
  by destruct (h w1) as [[r w2] t2].
Qed.

Lemma total_for_each {A S} (l : list A) (body : S -> A -> M W S) (s : S) :
  (forall s x, total (body s x)) -> total (for_each l body s).
Proof.
  intros Hb. revert s. induction l as [|x l IH]; intros s; simpl.
  - apply total_ret.
  - apply total_bind; [apply Hb | apply IH].
Qed.
End TotalFacts.

(** Syntax-directed proof of [emits] and [total] goals: one rule per
    construct of the monad, a case split where the code branches, and the
    lemmas of the database [pipeline] for the functions already covered. *)
Create HintDb pipeline.

Ltac monad_step :=
  first
    [ assumption
    | solve [auto with pipeline]
    | apply emits_ret | apply emits_raise | apply emits_out_of_fuel
    | apply emits_lift
    | apply emits_call; intros; exact I
    | apply emits_bind; [|intros ?]
    | apply emits_try
    | apply emits_for_each; intros ? ?
    | apply total_ret | apply total_raise | apply total_lift
    | apply total_call
    | apply total_bind; [|intros ?]
    | apply total_try
    | apply total_for_each; intros ? ?
    | match goal with
      | |- emits _ (match ?x with _ => _ end) => destruct x
      | |- total (match ?x with _ => _ end) => destruct x
      | |- emits _ (let _ := _ in _) => cbv zeta
      | |- total (let _ := _ in _) => cbv zeta
      end ].

Ltac monad_solve := repeat monad_step.

(** *** Email discovery: the retry contract *)

Section HunterFacts.
Context {U : UnicodeDB} {W : Type}.
Variable svc : services W.
Variable hunter_api_key : str.

Lemma verify_email_address_emits (email : pyval) :
  emits is_validate (verify_email_address svc email).
Proof. unfold verify_email_address. monad_solve. Qed.

Lemma verify_email_address_total (email : pyval) :
  total (verify_email_address svc email).
Proof. unfold verify_email_address. monad_solve. Qed.

Lemma hunter_valid_emails_emits (r : http_response) :
  emits is_validate (hunter_valid_emails svc r).
Proof.
  unfold hunter_valid_emails. monad_solve.
Qed.

Lemma hunter_valid_emails_total (r : http_response) :
  total (hunter_valid_emails svc r).
Proof.
  unfold hunter_valid_emails. monad_solve.
Qed.

Lemma hunter_loop_run (url : str) (fuel k : nat) (w w' : W)
    (out : outcome (list str)) (t : list event) :
  (max_attempts - k <= fuel)%nat ->
  hunter_loop svc fuel k url w = (out, w', t) ->
  attempt_run url k out t.
Proof.
  revert k w w' out t.
  induction fuel as [|fuel IH]; intros k w w' out t Hfuel Hrun.
  - assert (Hk : (max_attempts <= k)%nat) by lia.
    simpl in Hrun. apply Nat.ltb_ge in Hk. rewrite Hk in Hrun.
    injection Hrun as <- <- <-.
    apply run_exhausted. by apply Nat.ltb_ge.
  - simpl in Hrun. destruct (Nat.ltb_spec k max_attempts) as [Hk|Hk];
      [|injection Hrun as <- <- <-; by apply run_exhausted].
    unfold bind at 1, call at 1 in Hrun.
    destruct (requests_get svc url w) as [w1 [r|]];
      [|injection Hrun as <- <- <-; by apply run_get_raised].
    destruct (Z.eqb_spec (status_code r) 200) as [H200|H200].
    + pose proof (hunter_valid_emails_emits r w1) as Hev.
      pose proof (hunter_valid_emails_total r w1) as Htot.
      unfold trace_of, outcome_of in *.
      destruct (hunter_valid_emails svc r w1) as [[o w2] t2]; simpl in *.
      injection Hrun as <- <- <-. by apply run_ok.
    + destruct (Z.eqb_spec (status_code r) 429) as [H429|H429];
        [|injection Hrun as <- <- <-; by apply run_other].
      unfold bind at 1, call at 1 in Hrun.
      destruct (time_sleep svc (wait_seconds r (S k)) w1) as [w2 [e|]];
        [injection Hrun as <- <- <-; by apply run_sleep_raised|].
      destruct (hunter_loop svc fuel (S k) url w2) as [[o w3] t3] eqn:Hrec.
      apply IH in Hrec; [|lia].
      injection Hrun as <- <- <-. by apply run_retry.
Qed.

Lemma validate_no_request (tail : list event) :
  Forall is_validate tail -> requests tail = [].
Proof.
  induction 1 as [|e tail He _ IH]; [done|].
  unfold requests in *. simpl. by destruct e.
Qed.

Lemma validate_not_split (tail pre post : list event) (u : str)
    (r : option http_response) :
  Forall is_validate tail -> tail <> pre ++ EvHttpGet u r :: post.
Proof.
  intros Hv ->. apply Forall_app in Hv as [_ Hv].
  by apply Forall_cons in Hv as [Hv _].
Qed.

Lemma requests_nil_head (e : event) (t : list event) :
  is_request e = true -> requests (e :: t) <> [].
Proof. intros He. unfold requests. simpl. by rewrite He. Qed.

Lemma run_head (url : str) (k : nat) (out : outcome (list str))
    (t : list event) :
  attempt_run url k out t ->
  t = [] \/ exists r tl, t = EvHttpGet url r :: tl.
Proof. destruct 1; eauto. Qed.

Lemma run_total (url : str) (k : nat) (out : outcome (list str))
    (t : list event) :
  attempt_run url k out t -> out <> OutOfFuel.
Proof. induction 1; done. Qed.

Lemma run_requests_bound (url : str) (k : nat) (out : outcome (list str))
    (t : list event) :
  attempt_run url k out t ->
  (length (requests t) <= max_attempts - k)%nat.
Proof.
  induction 1 as [k Hk | k Hk | k r out tail Hk _ _ Hv | k r Hk _ _
                 | k r e Hk _ | k r out rest Hk _ _ IH];
    unfold requests in *; cbn [List.filter is_request length] in *;
    try lia.
  fold (requests tail). rewrite (validate_no_request tail Hv).
  cbn [length]. lia.
Qed.

(** A request that is not the first comes right after a sleep of the
    computed length, itself right after a 429 reply. *)
Lemma run_followup (url : str) (k : nat) (out : outcome (list str))
    (t : list event) :
  attempt_run url k out t ->
  forall pre u r post,
    t = pre ++ EvHttpGet u r :: post -> requests pre <> [] ->
    exists pre' r1,
      pre = pre' ++ [EvHttpGet u (Some r1);
                     EvSleep (wait_seconds r1 (k + length (requests pre)))]
      /\ status_code r1 = 429%Z.
Proof.
  induction 1 as [k Hk | k Hk | k r0 out tail Hk _ _ Hv | k r0 Hk _ _
                 | k r0 e Hk _ | k r0 out rest Hk H429 Hrest IH];
    intros pre u r post Hsplit Hpre.
  - by destruct pre.
  - destruct pre as [|ev pre]; [done|]. injection Hsplit as _ Hsplit.
    by destruct pre.
  - destruct pre as [|ev pre]; [done|]. injection Hsplit as _ Hsplit.
    by apply validate_not_split in Hsplit.
  - destruct pre as [|ev pre]; [done|]. injection Hsplit as _ Hsplit.
    by destruct pre.
  - destruct pre as [|ev pre]; [done|]. injection Hsplit as _ Hsplit.
    destruct pre as [|ev' pre]; [done|]. injection Hsplit as _ Hsplit.
    by destruct pre.
  - destruct pre as [|ev pre]; [done|]. injection Hsplit as <- Hsplit.
    destruct pre as [|ev' pre]; [done|]. injection Hsplit as <- Hsplit.
    destruct (run_head _ _ _ _ Hrest) as [-> | (r' & tl & Hhead)];
      [by destruct pre|].
    destruct pre as [|ev'' pre].
    + simpl in Hsplit. rewrite Hsplit in Hhead. injection Hhead as -> _ _.
      exists [], r0. split; [|done]. simpl. by rewrite Nat.add_1_r.
    + assert (He'' : ev'' = EvHttpGet url r').
      { rewrite Hhead in Hsplit. by injection Hsplit. }
      destruct (IH (ev'' :: pre) u r post Hsplit) as (pre' & r1 & Hp & Hs).
      { apply requests_nil_head. by rewrite He''. }
      exists (EvHttpGet url (Some r0)
              :: EvSleep (wait_seconds r0 (S k)) :: pre'),
        r1.
      split; [|done].
      assert (Hlen : (k + length (requests (EvHttpGet url (Some r0)
                        :: EvSleep (wait_seconds r0 (S k)) :: ev'' :: pre))
                      = S k + length (requests (ev'' :: pre)))%nat).
      { unfold requests. cbn [List.filter is_request length]. lia. }
      rewrite Hlen. clear Hlen.
      set (n := (S k + length (requests (ev'' :: pre)))%nat) in *.
      by rewrite Hp.
Qed.

(** A reply that is neither 200 nor 429 is the last action; the result is
    empty. *)
Lemma run_other_status (url : str) (k : nat) (out : outcome (list str))
    (t : list event) :
  attempt_run url k out t ->
  forall pre u r post,
    t = pre ++ EvHttpGet u (Some r) :: post ->
    status_code r <> 200%Z -> status_code r <> 429%Z ->
    post = [] /\ out = Ok [].
Proof.
  induction 1 as [k Hk | k Hk | k r0 out tail Hk H200 _ Hv | k r0 Hk _ _
                 | k r0 e Hk H429 | k r0 out rest Hk H429 Hrest IH];
    intros pre u r post Hsplit Hn200 Hn429.
  - by destruct pre.
  - destruct pre as [|ev pre]; [done|]. injection Hsplit as _ Hsplit.
    by destruct pre.
  - destruct pre as [|ev pre].
    + injection Hsplit as _ Hr _. congruence.
    + injection Hsplit as _ Hsplit. by apply validate_not_split in Hsplit.
  - destruct pre as [|ev pre].
    + by injection Hsplit as _ _ <-.
    + injection Hsplit as _ Hsplit. by destruct pre.
  - destruct pre as [|ev' pre].
    + injection Hsplit as _ Hr _. congruence.
    + injection Hsplit as _ Hsplit.
      destruct pre as [|ev'' pre]; [done|]. injection Hsplit as _ Hsplit.
      by destruct pre.
  - destruct pre as [|ev' pre].
    + injection Hsplit as _ Hr _. congruence.
    + injection Hsplit as _ Hsplit.
      destruct pre as [|ev'' pre]; [done|]. injection Hsplit as _ Hsplit.
      by apply (IH pre u r post).
Qed.

(** A 429 reply to the last request allowed ends the run: no request
    follows and, once the [except] has had its say, the result is empty. *)
Lemma run_exhaust (url : str) (k : nat) (out : outcome (list str))
    (t : list event) :
  attempt_run url k out t ->
  forall pre u r post,
    t = pre ++ EvHttpGet u (Some r) :: post ->
    status_code r = 429%Z ->
    (S (k + length (requests pre)) = max_attempts)%nat ->
    requests post = [] /\ caught [] out = Ok [].
Proof.
  induction 1 as [k Hk | k Hk | k r0 out tail Hk H200 _ Hv
                 | k r0 Hk Hn200 Hn429
                 | k r0 e Hk H429 | k r0 out rest Hk H429 Hrest IH];
    intros pre u r post Hsplit Hs Hlast.
  - by destruct pre.
  - destruct pre as [|ev pre]; [done|]. injection Hsplit as _ Hsplit.
    by destruct pre.
  - destruct pre as [|ev pre].
    + injection Hsplit as _ Hr _. congruence.
    + injection Hsplit as _ Hsplit. by apply validate_not_split in Hsplit.
  - destruct pre as [|ev pre].
    + injection Hsplit as _ Hr _. congruence.
    + injection Hsplit as _ Hsplit. by destruct pre.
  - destruct pre as [|ev' pre].
    + by injection Hsplit as _ _ <-.
    + injection Hsplit as _ Hsplit.
      destruct pre as [|ev'' pre]; [done|]. injection Hsplit as _ Hsplit.
      by destruct pre.
  - destruct pre as [|ev' pre].
    + injection Hsplit as _ _ <-. simpl in Hlast.
      inversion Hrest; subst; try lia. done.
    + injection Hsplit as <- Hsplit.
      destruct pre as [|ev'' pre]; [done|]. injection Hsplit as <- Hsplit.
      apply (IH pre u r post Hsplit Hs).
      revert Hlast. unfold requests. simpl. lia.
Qed.

Lemma wait_seconds_header (r : http_response) (k : nat) :
  (forall h n, retry_after r = Some h -> h <> [] -> parse_int h = Some n ->
               wait_seconds r k = n)
  /\ (retry_after r = None -> wait_seconds r k = (2 ^ Z.of_nat k)%Z).
Proof.
  unfold wait_seconds. split.
  - intros h n -> Hh Hn. destruct h; [done|]. simpl. by rewrite Hn.
  - by intros ->.
Qed.

(** A header that is empty, or that [int] rejects, gives the backoff as
    well. *)
Lemma wait_seconds_fallback (r : http_response) (k : nat) (h : str) :
  retry_after r = Some h -> h = [] \/ parse_int h = None ->
  wait_seconds r k = (2 ^ Z.of_nat k)%Z.
Proof.
  unfold wait_seconds. intros -> [-> | Hn]; [done|].
  destruct h; [done|]. simpl. by rewrite Hn.
Qed.

(** C5. Email discovery for any domain, in any world: it always
    returns a list; it issues at most 3 requests; a request that is not
    the first comes right after a sleep, which comes right after a reply
    with status 429, and the sleep lasts the integer value of the
    [Retry-After] header of that reply when the header is there (and reads
    as an integer), else 2 to the number of requests made so far, which is
    also the sleep when the header is empty or does not read as an integer;
    a reply with a status other than 200 and 429 is the last action and
    gives the empty result; so does a 429 reply to the third request, after
    which no request is made. *)
Theorem fetch_hunter_emails_retry_contract
    (domain : str) (w w' : W) (out : outcome (list str)) (t : list event) :
  fetch_hunter_emails svc hunter_api_key domain w = (out, w', t) ->
  (exists emails, out = Ok emails)
  /\ (length (requests t) <= 3)%nat
  /\ (forall pre u r post,
        t = pre ++ EvHttpGet u r :: post -> requests pre <> [] ->
        exists pre' r1 secs,
          pre = pre' ++ [EvHttpGet u (Some r1); EvSleep secs]
          /\ status_code r1 = 429%Z
          /\ (forall h n, retry_after r1 = Some h -> h <> [] ->
                          parse_int h = Some n -> secs = n)
          /\ (retry_after r1 = None ->
              secs = (2 ^ Z.of_nat (length (requests pre)))%Z)
          /\ (forall h, retry_after r1 = Some h ->
                        h = [] \/ parse_int h = None ->
                        secs = (2 ^ Z.of_nat (length (requests pre)))%Z))
  /\ (forall pre u r post,
        t = pre ++ EvHttpGet u (Some r) :: post ->
        status_code r <> 200%Z -> status_code r <> 429%Z ->
        post = [] /\ out = Ok [])
  /\ (forall pre u r post,
        t = pre ++ EvHttpGet u (Some r) :: post ->
        status_code r = 429%Z -> length (requests pre) = 2%nat ->
        requests post = [] /\ out = Ok []).
Proof.
  intros Hrun. unfold fetch_hunter_emails in Hrun.
  destruct (existsb _ BLACKLIST_DOMAINS).
  { injection Hrun as <- <- <-.
    split_and!; [by exists [] | simpl; lia | | | ];
      intros pre u r post Hsplit; by destruct pre. }
  unfold try_except in Hrun.
  destruct (hunter_loop svc max_attempts 0 (hunter_url hunter_api_key domain) w)
    as [[o w1] t1] eqn:Hloop.
  apply hunter_loop_run in Hloop; [|lia].
  assert (out = caught [] o /\ t = t1) as [-> ->].
  { destruct o; simpl in Hrun; injection Hrun as <- <- <-;
      by rewrite ?app_nil_r. }
  split_and!.
  - pose proof (run_total _ _ _ _ Hloop).
    destruct o; simpl; eauto. done.
  - apply (run_requests_bound _ _ _ _ Hloop).
  - intros pre u r post Hsplit Hpre.
    destruct (run_followup _ _ _ _ Hloop pre u r post Hsplit Hpre)
      as (pre' & r1 & Hp & Hs).
    exists pre', r1, (wait_seconds r1 (0 + length (requests pre))).
    split_and!; [done | done | | | ].
    + intros h n Hh Hne Hn.
      by apply (proj1 (wait_seconds_header r1 _) h n).
    + intros Hh. by apply (proj2 (wait_seconds_header r1 _)).
    + intros h Hh Hbad. by apply (wait_seconds_fallback r1 _ h).
  - intros pre u r post Hsplit H200 H429.
    destruct (run_other_status _ _ _ _ Hloop pre u r post Hsplit H200 H429)
      as [-> ->].
    done.
  - intros pre u r post Hsplit H429 Hlen.
    apply (run_exhaust _ _ _ _ Hloop pre u r post Hsplit H429).
    rewrite Hlen. reflexivity.
Qed.
End HunterFacts.

(** The service answers 429 with [Retry-After: 2], then 429 without the
    header, then 200: the pipeline sleeps 2, asks again, sleeps 4, asks a
    third and last time. *)
Lemma fetch_hunter_emails_retry_contract_witness :
  Scenario.run_hunter Scenario.rate_limited_world (py "site.com")
  = (Ok [py "ana@site.com"], Scenario.World [] [] [] [] [],
     Scenario.rate_limited_trace)
  /\ (length (requests Scenario.rate_limited_trace) <= 3)%nat.
Proof.
  split; [vm_compute; reflexivity|].
  apply (fetch_hunter_emails_retry_contract (U := ascii_db)
           Scenario.sc_services (py "key") (py "site.com")
           Scenario.rate_limited_world (Scenario.World [] [] [] [] [])
           (Ok [py "ana@site.com"]) Scenario.rate_limited_trace).
  vm_compute. reflexivity.
Defined.

(** *** The end of the run: the output file and the input queue *)

Section Quiet.
Context {U : UnicodeDB} {W : Type}.
Variable svc : services W.
Variable json_loads : str -> option pyval.
Variable hunter_api_key : str.
Variable COMPANY_PROFILE : pyval.
Variable path_ext : str -> str.
Variable output_lang : str.
Variable search_country : option str.

Lemma hunter_loop_quiet (fuel k : nat) (url : str) :
  emits quiet (hunter_loop svc fuel k url).
Proof.
  revert k. induction fuel as [|fuel IH]; intros k; simpl; monad_solve.
Qed.
#[local] Hint Resolve hunter_loop_quiet : pipeline.

Lemma fetch_hunter_emails_quiet (domain : str) :
  emits quiet (fetch_hunter_emails svc hunter_api_key domain).
Proof. unfold fetch_hunter_emails. monad_solve. Qed.
#[local] Hint Resolve fetch_hunter_emails_quiet : pipeline.

Lemma website_stage_quiet (item : pyval) (base_url : str) :
  emits quiet (website_stage svc hunter_api_key item base_url).
Proof. unfold website_stage, crawl_page. monad_solve. Qed.
#[local] Hint Resolve website_stage_quiet : pipeline.

Lemma post_process_quiet (clean_profile : pyval) :
  emits quiet (post_process svc clean_profile).
Proof.
  unfold post_process, validate_emails, attach_whatsapp, registry_data,
    fetch_cnpja_data, verify_email_address.
  monad_solve.
Qed.
#[local] Hint Resolve post_process_quiet : pipeline.

Lemma lead_body_quiet (item base_url : pyval) :
  emits quiet
    (lead_body svc json_loads hunter_api_key COMPANY_PROFILE output_lang
       search_country item base_url).
Proof.
  unfold lead_body, website_of, analyze_with_gpt. monad_solve.
Qed.
#[local] Hint Resolve lead_body_quiet : pipeline.

Lemma process_item_quiet (final_leads : list pyval) (item : pyval) :
  emits quiet
    (process_item svc json_loads hunter_api_key COMPANY_PROFILE output_lang
       search_country final_leads item).
Proof. unfold process_item. monad_solve. Qed.
#[local] Hint Resolve process_item_quiet : pipeline.

Lemma read_line_quiet (fd : nat) : emits quiet (read_line svc fd).
Proof.
  unfold read_line. apply emits_bind.
  - apply emits_call. by intros [line|].
  - intros [line|]; [apply emits_ret | apply emits_raise].
Qed.
#[local] Hint Resolve read_line_quiet : pipeline.

Lemma backfill_loop_quiet (fuel fd : nat) (final_leads : list pyval) :
  emits quiet
    (backfill_loop svc json_loads hunter_api_key COMPANY_PROFILE output_lang
       search_country fuel fd final_leads).
Proof.
  revert final_leads. induction fuel as [|fuel IH]; intros final_leads;
    simpl; monad_solve.
Qed.
#[local] Hint Resolve backfill_loop_quiet : pipeline.

Lemma follow_loop_quiet (fuel fd : nat) (final_leads : list pyval) :
  emits quiet
    (follow_loop svc json_loads hunter_api_key COMPANY_PROFILE output_lang
       search_country fuel fd final_leads).
Proof.
  revert final_leads. induction fuel as [|fuel IH]; intros final_leads;
    simpl; monad_solve.
Qed.
#[local] Hint Resolve follow_loop_quiet : pipeline.

Lemma stream_run_quiet (fuel : nat) (json_file : str) :
  emits quiet
    (stream_run svc json_loads hunter_api_key COMPANY_PROFILE output_lang
       search_country fuel json_file).
Proof. unfold stream_run, open_queue. monad_solve. Qed.

Lemma bounded_run_quiet (items : pyval) :
  emits quiet
    (bounded_run svc json_loads hunter_api_key COMPANY_PROFILE output_lang
       search_country items).
Proof. unfold bounded_run. monad_solve. Qed.

Lemma read_lines_quiet (fuel fd : nat) :
  emits quiet (read_lines svc fuel fd).
Proof. induction fuel as [|fuel IH]; simpl; monad_solve. Qed.
#[local] Hint Resolve read_lines_quiet : pipeline.

Lemma load_items_quiet (fuel : nat) (input_path : str) :
  emits quiet (load_items svc json_loads path_ext fuel input_path).
Proof. unfold load_items, open_queue. monad_solve. Qed.
End Quiet.

Section Finish.
Context {U : UnicodeDB} {W : Type}.
Variable svc : services W.
Variable json_loads : str -> option pyval.
Variable hunter_api_key : str.
Variable COMPANY_PROFILE : pyval.
Variable final_file : str.
Variable path_ext : str -> str.

Lemma finish_shape (stream_mode : bool) (json_file : str)
    (final_leads : list pyval) (w : W) :
  finish_trace final_file json_file stream_mode
    (trace_of (finish svc final_file stream_mode json_file final_leads w)).
Proof.
  unfold finish, bind, call, try_except, trace_of.
  destruct (write_json svc final_file final_leads w) as [w1 [e|]]; simpl;
    [apply finish_written|].
  destruct stream_mode; simpl; [apply finish_written|].
  destruct (os_path_exists svc json_file w1) as [w2 [|]]; simpl;
    [|by apply finish_absent].
  destruct (os_remove svc json_file w2) as [w3 [e|]]; simpl;
    by apply finish_removed.
Qed.

Lemma ends_quiet {A} (m : M W A) (json_file : str) (sm : bool) (w : W) :
  emits quiet m -> ends_with_finish final_file json_file sm (trace_of (m w)).
Proof.
  intros Hm. exists (trace_of (m w)), []. rewrite app_nil_r.
  split_and!; [done | apply Hm | by left].
Qed.

Lemma ends_bind {A B} (m : M W A) (f : A -> M W B) (json_file : str)
    (sm : bool) (w : W) :
  emits quiet m ->
  (forall a w1, ends_with_finish final_file json_file sm (trace_of (f a w1))) ->
  ends_with_finish final_file json_file sm (trace_of (bind m f w)).
Proof.
  intros Hm Hf. specialize (Hm w). unfold bind, trace_of in *.
  destruct (m w) as [[[a| e |] w1] t1]; simpl in *;
    try (exists t1, []; rewrite app_nil_r; split_and!; [done | done | by left]).
  specialize (Hf a w1).
  destruct (f a w1) as [[r w2] t2]. simpl in *.
  destruct Hf as (pre & post & -> & Hpre & Hpost).
  exists (t1 ++ pre), post. rewrite app_assoc.
  split_and!; [done | by apply Forall_app | done].
Qed.

Lemma main_ends (fuel : nat) (script json_file : str) (options : list str)
    (w : W) :
  ends_with_finish final_file json_file (stream_mode_of json_file)
    (trace_of
       (main svc json_loads hunter_api_key COMPANY_PROFILE final_file
          path_ext fuel (script :: json_file :: options) w)).
Proof.
  unfold main. apply ends_bind; [monad_solve|]. intros there w1.
  destruct there; cbn [negb]; [|apply (ends_quiet (ret tt)); monad_solve].
  apply ends_bind.
  { destruct (stream_mode_of json_file); [monad_solve|].
    apply load_items_quiet. }
  intros items w2. apply ends_bind.
  { destruct (stream_mode_of json_file);
      [apply stream_run_quiet | apply bounded_run_quiet]. }
  intros final_leads w3.
  exists [], (trace_of (finish svc final_file (stream_mode_of json_file)
                          json_file final_leads w3)).
  split_and!; [done | constructor | right; apply finish_shape].
Qed.

(** C10. Whatever the arguments, the fuel and the world: when the queue
    is a [.jsonl] file the run never deletes anything, so the queue is
    left in place; and a deletion, when there is one, is the last action
    of a run on a queue that is not [.jsonl], it deletes that queue, and it
    comes right after the output file was written without error and the
    queue was found to exist, with no other write or deletion before. *)
Theorem main_deletes_queue_only_when_bounded
    (fuel : nat) (argv : list str) (w : W) :
  let t := trace_of (main svc json_loads hunter_api_key COMPANY_PROFILE
                       final_file path_ext fuel argv w) in
  (forall script json_file options,
      argv = script :: json_file :: options ->
      stream_mode_of json_file = true ->
      Forall (fun e => forall p, e <> EvRemove p) t)
  /\ (forall pre p post,
        t = pre ++ EvRemove p :: post ->
        exists script options data pre0,
          argv = script :: p :: options
          /\ stream_mode_of p = false
          /\ pre = pre0 ++ [EvWriteJson final_file data None; EvExists p]
          /\ post = []
          /\ Forall quiet pre0).
Proof.
  intros t.
  assert (Hshort : forall v, (argv = [] \/ argv = [v]) -> t = []).
  { intros v [-> | ->]; reflexivity. }
  split.
  - intros script json_file options -> Hsm.
    destruct (main_ends fuel script json_file options w)
      as (pre & post & Ht & Hpre & Hpost).
    fold t in Ht. rewrite Ht. apply Forall_app. split.
    + eapply Forall_impl; [exact Hpre|]. intros e He p ->. exact He.
    + destruct Hpost as [-> | Hfin]; [constructor|].
      destruct Hfin as [data failed | data Hb | data Hb];
      [repeat constructor; done | congruence | congruence].
  - intros pre p post Hsplit.
    destruct argv as [|script [|json_file options]];
      [rewrite (Hshort []) in Hsplit by auto; by destruct pre
      |rewrite (Hshort script) in Hsplit by auto; by destruct pre |].
    destruct (main_ends fuel script json_file options w)
      as (pre0 & post0 & Ht & Hpre & Hpost).
    fold t in Ht. rewrite Hsplit in Ht.
    apply app_eq_inv in Ht as [(mid & -> & Hmid) | (mid & -> & Hmid)].
    + destruct Hpost as [-> | Hfin]; [by destruct mid|].
      destruct Hfin as [data failed | data Hb | data Hb].
      * destruct mid as [|? mid]; [done|]. injection Hmid as _ Hmid.
        by destruct mid.
      * destruct mid as [|? mid]; [done|]. injection Hmid as _ Hmid.
        destruct mid as [|? mid]; [done|]. injection Hmid as _ Hmid.
        by destruct mid.
      * destruct mid as [|? mid]; [done|]. injection Hmid as <- Hmid.
        destruct mid as [|? mid]; [done|]. injection Hmid as <- Hmid.
        destruct mid as [|? mid].
        -- injection Hmid as <- <-.
           exists script, options, data, pre0. by rewrite Hb.
        -- injection Hmid as _ Hmid. by destruct mid.
    + destruct mid as [|ev mid].
      * simpl in Hmid. subst post0.
        destruct Hpost as [Hnil | Hfin]; [done | inversion Hfin].
      * simpl in Hmid. injection Hmid as <- _.
        apply Forall_app in Hpre as [_ Hpre].
        by apply Forall_cons in Hpre as [Hpre _].
Qed.
End Finish.

Lemma main_deletes_queue_only_when_bounded_witness :
  let argv := [py "enrich_leads.py"; py "queue.jsonl"] in
  Forall (fun e => forall p, e <> EvRemove p)
    (trace_of (Scenario.run_main Scenario.stream_world 10 argv))
  /\ drop 2 (trace_of (Scenario.run_main Scenario.bounded_world 10
                        [py "enrich_leads.py"; py "leads.json"]))
     = [EvCompletion
          (FusionRequest (py "OUTPUT ALL TEXT FIELDS IN ENGLISH.") []
             Scenario.lead_b []
             (nl ++ nl ++ py "[SYSTEM DETECTED DATA (High Confidence)]" ++ nl)
             (PDict []));
        EvWriteJson Scenario.final_file [Scenario.enriched Scenario.lead_b]
          None;
        EvExists (py "leads.json"); EvRemove (py "leads.json")].
Proof.
  intros argv. split; [|vm_compute; reflexivity].
  apply (main_deletes_queue_only_when_bounded (U := ascii_db)
           Scenario.sc_services
           (Scenario.json_loads_on Scenario.known_values) (py "key")
           (PDict []) Scenario.final_file Scenario.sc_ext 10 argv
           Scenario.stream_world)
    with (script := py "enrich_leads.py") (json_file := py "queue.jsonl")
         (options := []); reflexivity.
Defined.

(** *** Leads without a usable website, and the bounded loop *)

Section LeadFacts.
Context {U : UnicodeDB} {W : Type}.
Variable svc : services W.
Variable json_loads : str -> option pyval.
Variable hunter_api_key : str.
Variable COMPANY_PROFILE : pyval.
Variable output_lang : str.
Variable search_country : option str.

Lemma bind_ret_l {A B} (a : A) (f : A -> M W B) (w : W) :
  bind (ret a) f w = f a w.
Proof. unfold bind, ret. by destruct (f a w) as [[r w2] t2]. Qed.

Lemma website_of_unusable (d : list (str * pyval)) (w : W) :
  unusable_website (default PNone (dict_get (py "website") d)) ->
  website_of (PDict d) (default PNone (dict_get (py "website") d)) w
  = (Ok None, w, []).
Proof.
  unfold website_of. set (v := default PNone (dict_get (py "website") d)).
  intros [Hfalsy | (s & Hv & Hs)].
  - by rewrite Hfalsy.
  - rewrite Hv. destruct (truthy (PStr s)); [|done].
    change (lift (py_in (py "google.com") (PStr s)))
      with (ret (W := W) (contains (py "google.com") s)).
    rewrite bind_ret_l.
    destruct (contains (py "google.com") s) eqn:Hg; [done|].
    destruct Hs as [Hs | ->]; [done|].
    change (lift (py_get (PDict d) (py "website"))) with (ret (W := W) v).
    rewrite bind_ret_l, Hv. cbn [eq_str].
    by rewrite str_eqb_refl.
Qed.

(** For a lead whose website is absent or unusable the body is the fusion
    of the raw record alone, on a content that holds only the (empty)
    system block, followed by the post-processing: no website stage. *)
Lemma lead_body_without_website (d : list (str * pyval)) (w : W) :
  unusable_website (default PNone (dict_get (py "website") d)) ->
  lead_body svc json_loads hunter_api_key COMPANY_PROFILE output_lang
    search_country (PDict d) (default PNone (dict_get (py "website") d)) w
  = (clean_profile <-
       analyze_with_gpt svc json_loads COMPANY_PROFILE output_lang
         search_country (system_context search_country None) (PDict d) [] ;;
     if truthy clean_profile then
       final <- post_process svc clean_profile ;; ret (Some final)
     else ret None) w.
Proof.
  intros Hun. unfold lead_body.
  unfold bind at 1. rewrite (website_of_unusable d w Hun).
  rewrite bind_ret_l. cbn [full_content home_result lead hunter_emails app].
  by destruct (bind _ _ w) as [[r w2] t2].
Qed.

(** X23. For a lead whose website is absent or unusable, the first action
    of the per-lead body is the completion request, for the raw record alone
    and with no discovered email; no page fetch, discovery request or sleep
    comes after it. *)
Lemma lead_body_without_website_fuses (d : list (str * pyval)) (w : W) :
  unusable_website (default PNone (dict_get (py "website") d)) ->
  exists req rest,
    trace_of (lead_body svc json_loads hunter_api_key COMPANY_PROFILE
                output_lang search_country (PDict d)
                (default PNone (dict_get (py "website") d)) w)
    = EvCompletion req :: rest
    /\ raw_lead_data req = PDict d
    /\ hunter_data req = []
    /\ Forall (fun e => ~ is_site_action e) rest.
Proof.
  intros Hun. rewrite (lead_body_without_website d w Hun).
  unfold analyze_with_gpt.
  change (lift (py_get_default (PDict d) (py "nome_empresa")
                  (PStr (py "Unknown"))))
    with (ret (W := W)
            (default (PStr (py "Unknown")) (dict_get (py "nome_empresa") d))).
  set (req := FusionRequest _ _ _ _ _ _).
  assert (Hrest : emits (fun e => ~ is_site_action e)
                    (fun w1 : W =>
                       (if truthy (default PNone
                                     (match completion svc req w with
                                      | (_, Some text) => json_loads text
                                      | (_, None) => None
                                      end))
                        then final <- post_process svc
                                        (default PNone
                                           (match completion svc req w with
                                            | (_, Some text) => json_loads text
                                            | (_, None) => None
                                            end)) ;;
                             ret (Some final)
                        else ret None) w1)).
  { destruct (truthy _); [|apply emits_ret].
    apply emits_bind; [|intros; apply emits_ret].
    unfold post_process, validate_emails, attach_whatsapp, registry_data,
      fetch_cnpja_data, verify_email_address.
    repeat first
      [ apply emits_ret | apply emits_raise | apply emits_lift
      | apply emits_call; intros; simpl; tauto
      | apply emits_bind; [|intros ?]
      | apply emits_for_each; intros ? ?
      | match goal with
        | |- emits _ (match ?x with _ => _ end) => destruct x
        end ]. }
  exists req. unfold bind at 1. rewrite bind_ret_l.
  unfold bind at 1, call at 1, trace_of.
  specialize (Hrest (fst (completion svc req w))). unfold trace_of in Hrest.
  destruct (completion svc req w) as [w1 [text|]]; simpl in *.
  - destruct (truthy (default PNone (json_loads text))).
    + destruct (bind _ _ w1) as [[r w2] t2]. simpl in *. eauto.
    + simpl. eauto.
  - eauto.
Qed.

(** X24. The bounded branch on a queue of records: whatever comes before
    the last record, the run is the body on the last record, once. *)
Lemma bounded_run_runs_body_on_last_item
    (before : list (list (str * pyval))) (d : list (str * pyval)) (w : W) :
  bounded_run svc json_loads hunter_api_key COMPANY_PROFILE output_lang
    search_country (PList (List.map PDict before ++ [PDict d])) w
  = (added <- lead_body svc json_loads hunter_api_key COMPANY_PROFILE
                output_lang search_country (PDict d)
                (default PNone (dict_get (py "website") d)) ;;
     ret (opt_to_list added)) w.
Proof.
  unfold bounded_run.
  change (lift (py_iter (PList (List.map PDict before ++ [PDict d]))))
    with (ret (W := W) (List.map PDict before ++ [PDict d])).
  rewrite bind_ret_l.
  assert (Hloop : forall s,
             for_each (List.map PDict before ++ [PDict d])
               (fun (_ : option (pyval * pyval)) item =>
                  base_url <- lift (py_get item (py "website")) ;;
                  ret (Some (item, base_url))) s w
             = (Ok (Some (PDict d,
                          default PNone (dict_get (py "website") d))), w, [])).
  { induction before as [|d0 before IH]; intros s; simpl.
    - reflexivity.
    - unfold bind at 1. simpl. by rewrite IH. }
  unfold bind at 1. rewrite Hloop.
  by destruct (bind _ _ w) as [[r w2] t2].
Qed.
End LeadFacts.

(** *** The two loops of [main] on explicit queues *)

(** C1. A streaming run on a finished queue of one lead followed by the
    marker: the run completes, the lead's line is read by the first reader
    and again by the second, which starts at the top of the file; the lead
    is fused twice and the output holds two profiles for it (the specification
    allows one). *)
Theorem stream_run_processes_backfilled_lead_twice :
  let r := Scenario.run_main Scenario.stream_world 10
             [py "enrich_leads.py"; py "queue.jsonl"] in
  let line := Scenario.json_text Scenario.lead_a ++ nl in
  outcome_of r = Ok tt
  /\ List.filter
       (fun e => match e with
                 | EvOpen _ | EvReadline _ _ => true
                 | _ => false
                 end) (trace_of r)
     = [EvOpen (py "queue.jsonl");
        EvReadline 0 line; EvReadline 0 (py "__END__" ++ nl); EvReadline 0 [];
        EvOpen (py "queue.jsonl");
        EvReadline 1 line; EvReadline 1 (py "__END__" ++ nl)]
  /\ Scenario.fused (trace_of r) = [Scenario.lead_a; Scenario.lead_a]
  /\ Scenario.written (trace_of r)
     = [[Scenario.enriched Scenario.lead_a; Scenario.enriched Scenario.lead_a]].
Proof. vm_compute. auto. Qed.

(** C2. A bounded run on a queue of two leads, neither with a website: the
    run completes, no page is fetched, but only the last lead is fused and
    only its profile is written (the specification wants one for every such
    entry). *)
Theorem bounded_run_processes_only_last_lead :
  let r := Scenario.run_main Scenario.bounded_world 10
             [py "enrich_leads.py"; py "leads.json"] in
  outcome_of r = Ok tt
  /\ Scenario.fused (trace_of r) = [Scenario.lead_b]
  /\ Scenario.written (trace_of r) = [[Scenario.enriched Scenario.lead_b]]
  /\ Forall (fun e => match e with
                      | EvCrawl _ | EvHttpGet _ _ => False
                      | _ => True
                      end) (trace_of r).
Proof. vm_compute. split_and!; auto. repeat constructor. Qed.

End PipelineFacts.

(** ** The matcher against what the patterns accept *)

Module RegexFacts.
Import Regex RegexSpec.

Section Soundness.
Context {U : UnicodeDB}.
Variable ignorecase : bool.

(** A successful match at a position went through a part of the text the
    pattern accepts, and the rest of the pattern succeeded from there. *)
Lemma rmatch_sound (r : regex) :
  forall prev s k res,
    rmatch ignorecase r prev s k = Some res ->
    exists p' s',
      consumes ignorecase r prev s p' s' /\ k p' s' = Some res.
Proof.
  induction r as [|cl|r1 IH1 r2 IH2|r IH lo hi|cl|cl]; intros prev s k res H.
  - exists prev, s. split; [constructor | exact H].
  - simpl in H. destruct s as [|x s]; [discriminate|].
    destruct (class_match ignorecase cl x) eqn:Hx; [|discriminate].
    exists (Some x), s. split; [by constructor | exact H].
  - simpl in H. apply IH1 in H as (p1 & s1 & Hc1 & H).
    apply IH2 in H as (p2 & s2 & Hc2 & H).
    exists p2, s2. split; [econstructor; eauto | exact H].
  - simpl in H. revert lo prev s H.
    induction hi as [|hi IHhi]; intros lo prev s H.
    + destruct lo; [|discriminate].
      exists prev, s. split; [constructor | exact H].
    + match type of H with
      | match ?m with _ => _ end = _ => destruct m as [rest|] eqn:Hm
      end.
      * injection H as ->.
        apply IH in Hm as (p1 & s1 & Hc1 & Hm).
        apply IHhi in Hm as (p2 & s2 & Hc2 & Hm).
        exists p2, s2. split; [econstructor; eauto | exact Hm].
      * destruct lo; [|discriminate].
        exists prev, s. split; [constructor | exact H].
  - simpl in H. exists prev, s. destruct prev as [x|].
    + destruct (class_match ignorecase cl x) eqn:Hx; [discriminate|].
      split; [by constructor | exact H].
    + split; [by constructor | exact H].
  - simpl in H. exists prev, s. destruct s as [|x s].
    + split; [by constructor | exact H].
    + destruct (class_match ignorecase cl x) eqn:Hx; [discriminate|].
      split; [by constructor | exact H].
Qed.

(** What is accepted is a prefix of the text at that position. *)
Lemma consumes_prefix (r : regex) (prev p' : option char) (s s' : str) :
  consumes ignorecase r prev s p' s' -> exists m, s = m ++ s'.
Proof.
  induction 1 as [prev s|cl x prev s Hx|r1 r2 prev s p1 s1 p2 s2 _ [m1 ->] _ [m2 ->]
                 |r hi prev s|r lo hi prev s p1 s1 p2 s2 _ [m1 ->] _ [m2 ->]
                 |cl prev s _|cl prev s _].
  - by exists [].
  - by exists [x].
  - exists (m1 ++ m2). by rewrite app_assoc.
  - by exists [].
  - exists (m1 ++ m2). by rewrite app_assoc.
  - by exists [].
  - by exists [].
Qed.

Lemma search_from_unfold (r : regex) (prev : option char) (s : str) :
  search_from ignorecase r prev s
  = match rmatch ignorecase r prev s (fun _ rest => Some rest) with
    | Some rest => Some (take (length s - length rest) s)
    | None =>
        match s with
        | [] => None
        | x :: s' => search_from ignorecase r (Some x) s'
        end
    end.
Proof. by destruct s. Qed.

(** [re.search] returns a piece of the text that the pattern accepts where
    it stands. *)
Lemma search_from_sound (r : regex) (s : str) :
  forall prev m,
    search_from ignorecase r prev s = Some m ->
    exists before after p0 p1,
      s = before ++ m ++ after
      /\ consumes ignorecase r p0 (m ++ after) p1 after.
Proof.
  induction s as [|x s IH]; intros prev m H; rewrite search_from_unfold in H.
  - destruct (rmatch ignorecase r prev [] (fun _ rest => Some rest))
      as [rest|] eqn:Hm; [|discriminate].
    injection H as <-.
    apply rmatch_sound in Hm as (p' & s' & Hc & [= ->]).
    destruct (consumes_prefix _ _ _ _ _ Hc) as [m Hs].
    destruct m; [|discriminate]. simpl in Hs. subst rest.
    exists [], [], prev, p'. split; [reflexivity | exact Hc].
  - remember (x :: s) as xs eqn:Hxs.
    destruct (rmatch ignorecase r prev xs (fun _ rest => Some rest))
      as [rest|] eqn:Hm.
    + injection H as <-.
      apply rmatch_sound in Hm as (p' & s' & Hc & [= ->]).
      destruct (consumes_prefix _ _ _ _ _ Hc) as [m Hs].
      rewrite Hs in *.
      replace (length (m ++ rest) - length rest)%nat with (length m)
        by (rewrite length_app; lia).
      rewrite take_app_length.
      exists [], rest, prev, p'. split; [reflexivity | exact Hc].
    + subst xs. apply IH in H as (before & after & p0 & p1 & -> & Hc).
      exists (x :: before), after, p0, p1. split; [reflexivity | exact Hc].
Qed.

Lemma re_search_occurs (r : regex) (text m : str) :
  re_search ignorecase r text = Some m -> occurs_in m text.
Proof.
  intros H. apply search_from_sound in H as (b & a & _ & _ & -> & _).
  by exists b, a.
Qed.

(** A bounded repetition of one character class takes between [lo] and [hi]
    characters of the class. *)
Lemma consumes_rep_char (cl : cclass) (hi : nat) :
  forall lo prev s p' s',
    consumes ignorecase (RRep (RChar cl) lo hi) prev s p' s' ->
    exists ds,
      s = ds ++ s' /\ (lo <= length ds <= hi)%nat
      /\ Forall (fun x => class_match ignorecase cl x = true) ds.
Proof.
  induction hi as [|hi IH]; intros lo prev s p' s' H.
  - inversion H; subst. exists [].
    split; [done | split; [simpl; lia | constructor]].
  - inversion H as [| | |r0 hi0 prev0 s0
                    |r0 lo0 hi0 prev0 s0 p1 s1 p2 s2 Hone Hrest| |]; subst.
    + exists []. split; [done | split; [simpl; lia | constructor]].
    + inversion Hone; subst.
      apply IH in Hrest as (ds & -> & Hlen & Hall).
      exists (x :: ds).
      split; [done | split; [simpl; lia | by constructor]].
Qed.

(** A pattern that is a sequence: the first part, then the others. *)
Lemma consumes_seqs_cons (r : regex) (rs : list regex)
    (prev p' : option char) (s s' : str) :
  consumes ignorecase (seqs (r :: rs)) prev s p' s' ->
  exists p1 s1,
    consumes ignorecase r prev s p1 s1
    /\ consumes ignorecase (seqs rs) p1 s1 p' s'.
Proof. simpl. inversion 1; subst. eauto. Qed.

Lemma consumes_seqs_nil (prev p' : option char) (s s' : str) :
  consumes ignorecase (seqs []) prev s p' s' -> s = s'.
Proof. simpl. by inversion 1. Qed.
End Soundness.

(** Case-sensitive, a one-character literal takes that character. *)
Lemma consumes_lit_char {U : UnicodeDB} (c : char)
    (prev p' : option char) (s s' : str) :
  consumes false (RSeq (RChar (CLit c)) REps) prev s p' s' -> s = c :: s'.
Proof.
  inversion 1 as [| |r1 r2 prev0 s0 p1 s1 p2 s2 Hc He| | | |]; subst.
  inversion Hc as [|cl x prev1 s2 Hx| | | | |]; subst. inversion He; subst.
  simpl in Hx. rewrite orb_false_r in Hx.
  by apply N.eqb_eq in Hx as ->.
Qed.

End RegexFacts.

(** ** What [extract_tax_id] can return *)

Module TaxIdValues.
Import Regex RegexSpec RegexFacts TaxId.

Section Values.
Context {U : UnicodeDB}.

Lemma hinted_match_occurs (text : str) (cc : option str) (t : tax_id) :
  hinted_match text cc = Some t -> occurs_in (tax_value t) text.
Proof.
  unfold hinted_match. destruct cc as [cc|]; [|discriminate].
  destruct (negb (Queue.is_empty cc)); [|discriminate].
  destruct (table_get (upper cc) patterns) as [info|]; [|discriminate].
  destruct (re_search true (pattern info) text) as [m|] eqn:Hm;
    [|discriminate].
  intros [= <-]. simpl. by apply re_search_occurs in Hm.
Qed.

Lemma br_match_inv (text : str) (t : tax_id) :
  br_match text = Some t ->
  t = MkTaxId (py "CNPJ") (tax_value t) (py "BR") CNPJ_name
  /\ re_search false BR_pattern text = Some (tax_value t).
Proof.
  unfold br_match.
  destruct (re_search false BR_pattern text) as [m|]; [|discriminate].
  by intros [= <-].
Qed.

Lemma vat_match_inv (text : str) (t : tax_id) :
  vat_match text = Some t ->
  t = MkTaxId (py "VAT") (tax_value t) (take 2 (tax_value t)) (py "VAT Number")
  /\ re_search false eu_vat_pattern (upper text) = Some (tax_value t).
Proof.
  unfold vat_match.
  destruct (re_search false eu_vat_pattern (upper text)) as [m|];
    [|discriminate].
  by intros [= <-].
Qed.

(** The three places a result can come from. *)
Lemma extract_tax_id_inv (text : str) (cc : option str) (t : tax_id) :
  extract_tax_id text cc = Some t ->
  hinted_match text cc = Some t
  \/ br_match text = Some t
  \/ vat_match text = Some t.
Proof.
  unfold extract_tax_id. destruct (Queue.is_empty text); [discriminate|].
  destruct (hinted_match text cc); [by left|].
  destruct (br_guard cc).
  - destruct (br_match text); [intros; right; by left | intros; by do 2 right].
  - intros. by do 2 right.
Qed.

(** X4. Whatever [extract_tax_id] returns, the value is a piece of the
    text it was given: of the text itself for the hinted and the Brazilian
    pattern, of the upper-cased text for the generic one (whose results
    carry the name [VAT Number]). Nothing is made up or reformatted. *)
Theorem extract_tax_id_value_occurs
    (text : str) (cc : option str) (t : tax_id) :
  extract_tax_id text cc = Some t ->
  occurs_in (tax_value t) text
  \/ (tax_name t = py "VAT Number" /\ occurs_in (tax_value t) (upper text)).
Proof.
  intros [Hh | [Hb | Hv]]%extract_tax_id_inv.
  - left. by apply hinted_match_occurs in Hh.
  - left. apply br_match_inv in Hb as [_ Hb]. by apply re_search_occurs in Hb.
  - right. apply vat_match_inv in Hv as [Ht Hv]. split.
    + by rewrite Ht.
    + by apply re_search_occurs in Hv.
Qed.

(** The layout [dd.ddd.ddd/dddd-dd]. *)
Lemma br_pattern_layout (p0 p1 : option char) (s s' : str) :
  consumes false BR_pattern p0 s p1 s' ->
  exists a b c d e,
    s = (a ++ py "." ++ b ++ py "." ++ c ++ py "/" ++ d ++ py "-" ++ e) ++ s'
    /\ (length a = 2 /\ length b = 3 /\ length c = 3
        /\ length d = 4 /\ length e = 2)%nat
    /\ Forall (fun x => isdecimal x = true) (a ++ b ++ c ++ d ++ e).
Proof.
  unfold BR_pattern. intros H.
  apply consumes_seqs_cons in H as (q1 & s1 & Ha & H).
  apply consumes_seqs_cons in H as (q2 & s2 & Hd1 & H).
  apply consumes_seqs_cons in H as (q3 & s3 & Hb & H).
  apply consumes_seqs_cons in H as (q4 & s4 & Hd2 & H).
  apply consumes_seqs_cons in H as (q5 & s5 & Hc & H).
  apply consumes_seqs_cons in H as (q6 & s6 & Hsl & H).
  apply consumes_seqs_cons in H as (q7 & s7 & Hd & H).
  apply consumes_seqs_cons in H as (q8 & s8 & Hda & H).
  apply consumes_seqs_cons in H as (q9 & s9 & He & H).
  apply consumes_seqs_nil in H as ->.
  apply consumes_rep_char in Ha as (a & -> & Hla & Ha).
  apply (consumes_lit_char 46%N) in Hd1 as ->.
  apply consumes_rep_char in Hb as (b & -> & Hlb & Hb).
  apply (consumes_lit_char 46%N) in Hd2 as ->.
  apply consumes_rep_char in Hc as (c & -> & Hlc & Hc).
  apply (consumes_lit_char 47%N) in Hsl as ->.
  apply consumes_rep_char in Hd as (d & -> & Hld & Hd).
  apply (consumes_lit_char 45%N) in Hda as ->.
  apply consumes_rep_char in He as (e & -> & Hle & He).
  exists a, b, c, d, e. split_and!; try lia.
  - change (py ".") with [46%N]. change (py "/") with [47%N].
    change (py "-") with [45%N]. by rewrite <- !app_assoc.
  - rewrite !Forall_app. by split_and!.
Qed.

(** X5. Without a hint, a result of type CNPJ is for Brazil, its value has
    the layout [dd.ddd.ddd/dddd-dd] (eighteen characters, the digits being
    decimal digits) and stands as such in the text. *)
Theorem extract_tax_id_cnpj_layout (text : str) (t : tax_id) :
  extract_tax_id text None = Some t ->
  tax_type t = py "CNPJ" ->
  tax_country t = py "BR"
  /\ occurs_in (tax_value t) text
  /\ exists a b c d e,
      tax_value t
      = a ++ py "." ++ b ++ py "." ++ c ++ py "/" ++ d ++ py "-" ++ e
      /\ (length a = 2 /\ length b = 3 /\ length c = 3
          /\ length d = 4 /\ length e = 2)%nat
      /\ Forall (fun x => isdecimal x = true) (a ++ b ++ c ++ d ++ e).
Proof.
  intros [Hh | [Hb | Hv]]%extract_tax_id_inv Htype.
  - discriminate.
  - apply br_match_inv in Hb as [Ht Hb]. split_and!.
    + by rewrite Ht.
    + by apply re_search_occurs in Hb.
    + apply search_from_sound in Hb as (before & after & p0 & p1 & _ & Hc).
      apply br_pattern_layout in Hc as (a & b & c & d & e & Hs & Hl & Hd).
      apply app_inv_tail in Hs. by exists a, b, c, d, e.
  - apply vat_match_inv in Hv as [Ht _]. rewrite Ht in Htype.
    simpl in Htype. by vm_compute in Htype.
Qed.

(** The names of the table are not the name of the generic result, nor is
    the Brazilian one. *)
Lemma table_name_not_generic (k : str) (info : pattern_info) :
  table_get k patterns = Some info -> name info <> py "VAT Number".
Proof.
  unfold patterns. simpl.
  repeat match goal with
         | |- context [if ?b then _ else _] => destruct b
         end;
    intros [= <-]; simpl; intros Heq; by vm_compute in Heq.
Qed.

(** X6. A result that carries the name [VAT Number] comes from the generic
    pattern: its value is two letters A-Z followed by nine to twelve decimal
    digits, its country is those two letters, and the value stands in the
    upper-cased text. *)
Theorem extract_tax_id_generic_shape
    (text : str) (cc : option str) (t : tax_id) :
  extract_tax_id text cc = Some t ->
  tax_name t = py "VAT Number" ->
  tax_type t = py "VAT"
  /\ occurs_in (tax_value t) (upper text)
  /\ exists letters ds,
      tax_value t = letters ++ ds
      /\ tax_country t = letters
      /\ length letters = 2%nat
      /\ Forall (fun x => (65 <= x <= 90)%N) letters
      /\ (9 <= length ds <= 12)%nat
      /\ Forall (fun x => isdecimal x = true) ds.
Proof.
  intros [Hh | [Hb | Hv]]%extract_tax_id_inv Hname.
  - exfalso. revert Hh Hname. unfold hinted_match.
    destruct cc as [cc|]; [|discriminate].
    destruct (negb (Queue.is_empty cc)); [|discriminate].
    destruct (table_get (upper cc) patterns) as [info|] eqn:Hinfo;
      [|discriminate].
    destruct (re_search true (pattern info) text); [|discriminate].
    intros [= <-]. simpl. by apply table_name_not_generic in Hinfo.
  - apply br_match_inv in Hb as [Ht _]. rewrite Ht in Hname.
    simpl in Hname. by vm_compute in Hname.
  - apply vat_match_inv in Hv as [Ht Hv]. split_and!.
    + by rewrite Ht.
    + by apply re_search_occurs in Hv.
    + apply search_from_sound in Hv as (before & after & p0 & p1 & _ & Hc).
      unfold eu_vat_pattern in Hc.
      apply consumes_seqs_cons in Hc as (q1 & s1 & Hl & Hc).
      apply consumes_seqs_cons in Hc as (q2 & s2 & Hd & Hc).
      apply consumes_seqs_nil in Hc as ->.
      apply consumes_rep_char in Hl as (letters & Hs & Hll & Hl).
      apply consumes_rep_char in Hd as (ds & -> & Hld & Hd).
      rewrite app_assoc in Hs. apply app_inv_tail in Hs.
      exists letters, ds. split_and!; try done; try lia.
      * rewrite Ht. simpl. rewrite Hs.
        rewrite take_app_length'; [done | lia].
      * eapply Forall_impl; [exact Hl|]. intros x Hx. simpl in Hx.
        rewrite orb_false_r in Hx.
        apply andb_true_iff in Hx as [H1 H2].
        apply N.leb_le in H1, H2. lia.
Qed.
End Values.

Lemma extract_tax_id_value_occurs_witness :
  extract_tax_id (U := ascii_db) (py "vat de123456789 ok") None
  = Some (MkTaxId (py "VAT") (py "DE123456789") (py "DE") (py "VAT Number"))
  /\ (occurs_in (py "DE123456789") (py "vat de123456789 ok")
      \/ (py "VAT Number" = py "VAT Number"
          /\ occurs_in (py "DE123456789") (py "VAT DE123456789 OK"))).
Proof.
  split; [vm_compute; reflexivity|].
  apply (extract_tax_id_value_occurs (U := ascii_db)
           (py "vat de123456789 ok") None
           (MkTaxId (py "VAT") (py "DE123456789") (py "DE") (py "VAT Number"))).
  vm_compute. reflexivity.
Defined.

Lemma extract_tax_id_cnpj_layout_witness :
  tax_country (MkTaxId (py "CNPJ") (py "12.345.678/0001-90") (py "BR") CNPJ_name)
  = py "BR"
  /\ occurs_in (py "12.345.678/0001-90") (py "CNPJ: 12.345.678/0001-90.").
Proof.
  pose proof (extract_tax_id_cnpj_layout (U := ascii_db)
                (py "CNPJ: 12.345.678/0001-90.")
                (MkTaxId (py "CNPJ") (py "12.345.678/0001-90") (py "BR")
                   CNPJ_name)) as H.
  destruct H as (Hc & Ho & _); [vm_compute; reflexivity | reflexivity |].
  split; [exact Hc | exact Ho].
Defined.

Lemma extract_tax_id_generic_shape_witness :
  tax_type (MkTaxId (py "VAT") (py "DE123456789") (py "DE") (py "VAT Number"))
  = py "VAT"
  /\ occurs_in (py "DE123456789") (py "VAT DE123456789 OK").
Proof.
  pose proof (extract_tax_id_generic_shape (U := ascii_db)
                (py "vat de123456789 ok") (Some (py "US"))
                (MkTaxId (py "VAT") (py "DE123456789") (py "DE")
                   (py "VAT Number"))) as H.
  destruct H as (Ht & Ho & _); [vm_compute; reflexivity | reflexivity |].
  split; [exact Ht | exact Ho].
Defined.

(** With the hint [US] and no EIN in the text, a text that holds a CNPJ and
    a German VAT number gives the VAT number: the Brazilian pattern is not
    consulted. *)
Lemma extract_tax_id_hint_not_br_witness :
  extract_tax_id (U := ascii_db)
    (py "12.345.678/0001-90 de123456789") (Some (py "US"))
  = Some (MkTaxId (py "VAT") (py "DE123456789") (py "DE") (py "VAT Number")).
Proof.
  rewrite (TaxIdFacts.extract_tax_id_hint_not_br (U := ascii_db)
             (py "12.345.678/0001-90 de123456789") (py "US")).
  - vm_compute. reflexivity.
  - vm_compute. discriminate.
  - vm_compute. discriminate.
  - vm_compute. discriminate.
Defined.

End TaxIdValues.

(** ** More on the queue readers *)

Module QueueMore.
Import Queue.

Section Readers.
Variable json_loads : str -> option pyval.

Lemma iter_jsonl_objects_app (a b : list str) :
  iter_jsonl_objects json_loads (a ++ b)
  = iter_jsonl_objects json_loads a ++ iter_jsonl_objects json_loads b.
Proof.
  induction a as [|line a IH]; [reflexivity|]. simpl.
  destruct (objects_line json_loads false line); simpl; by rewrite IH.
Qed.

Lemma objects_line_marker (s : str) :
  strip s = END_TOKEN -> objects_line json_loads false s = Skip.
Proof.
  intros Hs. unfold objects_line. rewrite Hs. cbn [negb andb].
  rewrite str_eqb_refl. by rewrite orb_true_r.
Qed.

(** X1. The reader of the backfill does not stop at the marker: a marker
    line is passed over like a blank one and the objects of the lines after
    it are handed out as well, after those of the lines before it. *)
Theorem iter_jsonl_objects_reads_past_marker (pre post : list str) (s : str) :
  strip s = END_TOKEN ->
  iter_jsonl_objects json_loads (pre ++ s :: post)
  = iter_jsonl_objects json_loads pre ++ iter_jsonl_objects json_loads post.
Proof.
  intros Hs. rewrite iter_jsonl_objects_app. f_equal. simpl.
  by rewrite (objects_line_marker s Hs).
Qed.

(** X3. Where [json.loads] rejects the marker (it is no JSON text), the
    eager loader of [load_items] and the lazy reader give the same objects
    for the same lines. *)
Theorem load_items_jsonl_agrees (lines : list str) :
  json_loads END_TOKEN = None ->
  load_items_jsonl json_loads lines = iter_jsonl_objects json_loads lines.
Proof.
  intros Hend. induction lines as [|line lines IH]; [reflexivity|].
  simpl. rewrite IH.
  assert (Hline : objects_line json_loads true line
                  = objects_line json_loads false line).
  { unfold objects_line. cbn [negb andb]. rewrite orb_false_r.
    destruct (is_empty (strip line)); [reflexivity|]. cbn [orb].
    destruct (str_eqb (strip line) END_TOKEN) eqn:Heq; [|reflexivity].
    apply str_eqb_eq in Heq. by rewrite Heq, Hend. }
  by rewrite Hline.
Qed.
End Readers.

Lemma iter_jsonl_objects_reads_past_marker_witness :
  let loads := Scenario.json_loads_on Scenario.known_values in
  iter_jsonl_objects loads
    ([Scenario.json_text Scenario.lead_a ++ nl]
       ++ (py "__END__" ++ nl) :: [Scenario.json_text Scenario.lead_b ++ nl])
  = [Scenario.lead_a; Scenario.lead_b].
Proof.
  intros loads.
  etrans; [apply (iter_jsonl_objects_reads_past_marker loads
                    [Scenario.json_text Scenario.lead_a ++ nl]
                    [Scenario.json_text Scenario.lead_b ++ nl]
                    (py "__END__" ++ nl)); reflexivity|].
  reflexivity.
Defined.

Lemma load_items_jsonl_agrees_witness :
  let loads := Scenario.json_loads_on Scenario.known_values in
  load_items_jsonl loads
    [Scenario.json_text Scenario.lead_a ++ nl; py "__END__" ++ nl; nl]
  = [Scenario.lead_a].
Proof.
  intros loads.
  etrans; [apply (load_items_jsonl_agrees loads
                    [Scenario.json_text Scenario.lead_a ++ nl;
                     py "__END__" ++ nl; nl]); reflexivity|].
  reflexivity.
Defined.

(** The finished queue of one lead: the follow reader hands out again what
    the first reader handed out. *)
Lemma both_readers_yield_the_lines_before_marker_witness :
  let loads := Scenario.json_loads_on Scenario.known_values in
  yielded (iter_jsonl_lines_follow loads
             (List.map Line
                ([Scenario.json_text Scenario.lead_a ++ nl]
                   ++ (py "__END__" ++ nl) :: [])))
  = [Scenario.lead_a].
Proof.
  intros loads.
  etrans; [apply (QueueFacts.both_readers_yield_the_lines_before_marker loads
                    [Scenario.json_text Scenario.lead_a ++ nl] []
                    (py "__END__" ++ nl))|].
  - repeat constructor. vm_compute. discriminate.
  - reflexivity.
  - reflexivity.
Defined.

End QueueMore.

(** ** More on the detectors *)

Module SignalsMore.
Import Signals.

Lemma map_filter_sublist {A B} (f : A -> B) (P : A -> bool) (l : list A) :
  sublist (List.map f (List.filter P l)) (List.map f l).
Proof.
  induction l as [|x l IH]; simpl; [constructor|].
  destruct (P x); simpl; by constructor.
Qed.

(** X8. The labels [detect_tech_stack] returns come in the order of its
    table, none twice, and a label is returned exactly when the markup is
    not empty and one of the label's keywords occurs in the lower-cased
    markup. *)
Theorem detect_tech_stack_labels {U : UnicodeDB} (html_content : str) :
  sublist (detect_tech_stack html_content) (List.map fst checks)
  /\ NoDup (detect_tech_stack html_content)
  /\ forall label,
       label ∈ detect_tech_stack html_content
       <-> html_content <> []
           /\ exists keywords k,
                (label, keywords) ∈ checks /\ k ∈ keywords
                /\ contains k (lower html_content) = true.
Proof.
  assert (Hnd : NoDup (List.map fst checks)).
  { refine (bool_decide_unpack _ _). vm_compute. exact I. }
  assert (Hsub : sublist (detect_tech_stack html_content)
                   (List.map fst checks)).
  { unfold detect_tech_stack. destruct (Queue.is_empty html_content).
    - apply sublist_nil_l.
    - apply map_filter_sublist. }
  split_and!; [exact Hsub | by eapply sublist_NoDup |].
  intros label. unfold detect_tech_stack.
  destruct html_content as [|c html]; simpl Queue.is_empty; cbv iota.
  - split; [by intros ?%elem_of_nil | by intros [? _]].
  - rewrite list_elem_of_In, in_map_iff. split.
    + intros ([l kws] & <- & Hin). apply filter_In in Hin as [Hin Hex].
      apply existsb_exists in Hex as (k & Hk & Hc). split; [done|].
      exists kws, k. by rewrite !list_elem_of_In.
    + intros (_ & kws & k & Hin & Hk & Hc). exists (label, kws).
      split; [done|]. apply filter_In. rewrite list_elem_of_In in Hin.
      split; [done|]. apply existsb_exists. exists k.
      by rewrite list_elem_of_In in Hk.
Qed.

Lemma detect_tech_stack_labels_witness :
  py "Shopify" ∈ detect_tech_stack (U := ascii_db)
                   (py "<script src=cdn.SHOPIFY.com>").
Proof.
  apply (detect_tech_stack_labels (U := ascii_db)
           (py "<script src=cdn.SHOPIFY.com>")).
  split; [vm_compute; discriminate|].
  exists [py "shopify"], (py "shopify"). split_and!.
  - apply list_elem_of_In. vm_compute. tauto.
  - apply list_elem_of_In. vm_compute. tauto.
  - vm_compute. reflexivity.
Defined.

(** X14. Every link [detect_whatsapp] produces is the messaging URL of
    [55] followed by eleven digits, which are the digits of the phone, the
    leading [55] left out when the phone has thirteen. *)
Theorem detect_whatsapp_link_shape {U : UnicodeDB} (phone link : str) :
  detect_whatsapp phone = Some link ->
  exists national,
    link = py "https://wa.me/55" ++ national
    /\ length national = 11%nat
    /\ Forall (fun x => isdigit x = true) national
    /\ (List.filter isdigit phone = national
        \/ List.filter isdigit phone = py "55" ++ national).
Proof.
  unfold detect_whatsapp. destruct (Queue.is_empty phone); [discriminate|].
  set (digits := List.filter isdigit phone).
  assert (Hall : Forall (fun x => isdigit x = true) digits).
  { apply Forall_forall. intros x Hx.
    apply list_elem_of_In, filter_In in Hx. tauto. }
  unfold whatsapp_of_digits.
  destruct (Nat.eqb_spec (length digits) 11) as [H11|H11].
  { intros [= <-]. exists digits. split_and!; auto. }
  destruct (Nat.eqb_spec (length digits) 10); [discriminate|].
  destruct ((12 <=? length digits)%nat && startswith digits (py "55"))
    eqn:Hg; [|discriminate].
  destruct (Nat.eqb_spec (length digits) 13) as [H13|H13]; [|discriminate].
  intros [= <-]. apply andb_true_iff in Hg as [_ H55].
  apply startswith_prefix in H55 as [national Hd].
  exists national. rewrite Hd in *. split_and!.
  - change (py "https://wa.me/55") with (py "https://wa.me/" ++ py "55").
    by rewrite <- app_assoc.
  - rewrite length_app in H13. simpl in H13. lia.
  - by apply Forall_app in Hall as [_ Hall].
  - by right.
Qed.

Lemma detect_whatsapp_link_shape_witness :
  exists national,
    py "https://wa.me/5511999999999" = py "https://wa.me/55" ++ national
    /\ length national = 11%nat
    /\ Forall (fun x => ascii_isdigit x = true) national
    /\ (List.filter ascii_isdigit (py "+55 (11) 99999-9999") = national
        \/ List.filter ascii_isdigit (py "+55 (11) 99999-9999")
           = py "55" ++ national).
Proof.
  apply (detect_whatsapp_link_shape (U := ascii_db)
           (py "+55 (11) 99999-9999") (py "https://wa.me/5511999999999")).
  vm_compute. reflexivity.
Defined.

End SignalsMore.

(** ** More on the crawl planner *)

Module PlannerMore.
Import Planner Traces.

Lemma endswith_last (s : str) (c : char) :
  endswith s [c] = true -> s = removelast s ++ [c].
Proof.
  unfold endswith. change (rev [c]) with [c]. intros H.
  apply startswith_prefix in H as [t Ht]. simpl in Ht.
  assert (Hs : s = rev t ++ [c]).
  { rewrite <- (rev_involutive s), Ht. reflexivity. }
  rewrite Hs at 2. by rewrite removelast_last.
Qed.

Lemma startswith_two (c : char) (s : str) :
  startswith (if startswith s [c] then drop 1 s else s) [c]
  = startswith s [c; c].
Proof.
  destruct s as [|d t]; [reflexivity|]. simpl.
  destruct (d =? c)%N eqn:Hd; simpl; [|by rewrite Hd].
  by destruct t.
Qed.

Lemma endswith_two (c : char) (s : str) :
  endswith (if endswith s [c] then removelast s else s) [c]
  = endswith s [c; c].
Proof.
  destruct (endswith s [c]) eqn:Hs.
  - rewrite (endswith_last s c Hs) at 2. unfold endswith.
    rewrite rev_app_distr. simpl. rewrite N.eqb_refl. simpl.
    by destruct (rev (removelast s)).
  - rewrite Hs. unfold endswith in *. simpl in *.
    destruct (rev s) as [|d t]; [done|]. simpl in *.
    rewrite andb_true_r in Hs. by rewrite Hs.
Qed.

(** X9. A link that does not begin with [http] is joined to the base in
    this way: the base less one slash at its end, if it has one, then a
    slash, then the link less one slash at its start, if it has one. So one
    slash on either side is not doubled; what is left of the base ends with
    a slash only when the base ended with two, and what is left of the link
    begins with one only when the link began with two (a link such as
    [//cdn.site.com/a.js] keeps a doubled slash). *)
Theorem normalize_url_joins_with_one_slash (link_url base : str) :
  startswith link_url (py "http") = false ->
  exists b l,
    normalize_url link_url base = b ++ [slash] ++ l
    /\ b = (if endswith base [slash] then removelast base else base)
    /\ l = (if startswith link_url [slash] then drop 1 link_url
            else link_url)
    /\ endswith b [slash] = endswith base [slash; slash]
    /\ startswith l [slash] = startswith link_url [slash; slash].
Proof.
  intros Hrel. eexists _, _. split_and!; [|reflexivity|reflexivity| |].
  - unfold normalize_url. rewrite Hrel. cbn [negb].
    destruct (endswith base [slash]) eqn:Hb;
      destruct (startswith link_url [slash]) eqn:Hl; cbn [negb andb].
    + rewrite (endswith_last base slash Hb) at 1. by rewrite <- app_assoc.
    + rewrite (endswith_last base slash Hb) at 1. by rewrite <- app_assoc.
    + apply startswith_prefix in Hl as [t ->]. reflexivity.
    + reflexivity.
  - apply endswith_two.
  - apply startswith_two.
Qed.

Lemma normalize_url_joins_with_one_slash_witness :
  normalize_url (py "/contato") (py "http://site.com/")
  = py "http://site.com/contato"
  /\ normalize_url (py "contato") (py "http://site.com")
     = py "http://site.com/contato"
  /\ normalize_url (py "//cdn.site.com/a.js") (py "http://site.com")
     = py "http://site.com//cdn.site.com/a.js".
Proof.
  split_and!.
  - pose proof (normalize_url_joins_with_one_slash (py "/contato")
                  (py "http://site.com/") eq_refl)
      as (b & l & -> & -> & -> & _). reflexivity.
  - pose proof (normalize_url_joins_with_one_slash (py "contato")
                  (py "http://site.com") eq_refl)
      as (b & l & -> & -> & -> & _). reflexivity.
  - pose proof (normalize_url_joins_with_one_slash (py "//cdn.site.com/a.js")
                  (py "http://site.com") eq_refl)
      as (b & l & -> & -> & -> & _). reflexivity.
Defined.

Section Plans.
Context {U : UnicodeDB}.
Variable base_url : str.

Lemma plan_step_seen_mono (p : plan) (href u : str) :
  u ∈ unique_internal_urls p ->
  u ∈ unique_internal_urls (plan_step base_url p href).
Proof.
  intros Hu. unfold plan_step.
  repeat match goal with
         | |- context [if ?b then _ else _] => destruct b
         end; simpl; try done; apply elem_of_union; by left.
Qed.

Lemma plan_step_seen_new (p : plan) (href : str) :
  href <> []
  /\ rstrip_char slash (normalize_url href base_url)
     <> rstrip_char slash base_url ->
  normalize_url href base_url
  ∈ unique_internal_urls (plan_step base_url p href).
Proof.
  intros [Hne Hroot]. unfold plan_step.
  destruct href as [|c href]; [done|]. cbn [Queue.is_empty].
  set (full_url := normalize_url (c :: href) base_url) in *.
  destruct (bool_decide (full_url ∈ unique_internal_urls p)) eqn:Hseen.
  - by apply bool_decide_eq_true in Hseen.
  - apply str_eqb_neq in Hroot. rewrite Hroot. cbn [orb].
    destruct (is_priority (c :: href)); simpl; apply elem_of_union; right;
      by apply elem_of_singleton.
Qed.

Lemma plan_fold_seen (links : list str) :
  forall p href,
    (href ∈ links /\ href <> []
     /\ rstrip_char slash (normalize_url href base_url)
        <> rstrip_char slash base_url
     \/ normalize_url href base_url ∈ unique_internal_urls p) ->
    normalize_url href base_url
    ∈ unique_internal_urls (fold_left (plan_step base_url) links p).
Proof.
  induction links as [|h links IH]; intros p href H; simpl.
  - destruct H as [[Hin _] | H]; [by apply elem_of_nil in Hin | done].
  - apply IH. destruct H as [[Hin Hk] | H].
    + apply elem_of_cons in Hin as [-> | Hin]; [|left; by split].
      right. by apply plan_step_seen_new.
    + right. by apply plan_step_seen_mono.
Qed.

Lemma classified_more (links : list str) (href : str) (p : plan) :
  classified base_url links p -> classified base_url (links ++ [href]) p.
Proof.
  intros [Hp Ho]. split; intros u Hu.
  - destruct (Hp u Hu) as (h & Hh & Hk & ->). exists h.
    split_and!; [apply elem_of_app; by left | done | done].
  - destruct (Ho u Hu) as (h & Hh & Hk & ->). exists h.
    split_and!; [apply elem_of_app; by left | done | done].
Qed.

Lemma plan_step_classified (links : list str) (p : plan) (href : str) :
  classified base_url links p ->
  classified base_url (links ++ [href]) (plan_step base_url p href).
Proof.
  intros Hc. pose proof (classified_more links href p Hc) as [Hp Ho].
  unfold plan_step.
  destruct (Queue.is_empty href); [by split|].
  destruct (_ || _); [by split|].
  assert (Hin : href ∈ links ++ [href]).
  { apply elem_of_app. right. by apply list_elem_of_singleton. }
  destruct (is_priority href) eqn:Hk; split; simpl; try done.
  - intros u [Hu | ->%list_elem_of_singleton]%elem_of_app; [by apply Hp|].
    by exists href.
  - intros u [Hu | ->%list_elem_of_singleton]%elem_of_app; [by apply Ho|].
    by exists href.
Qed.

Lemma plan_fold_classified (links done_links : list str) (p : plan) :
  classified base_url done_links p ->
  classified base_url (done_links ++ links)
    (fold_left (plan_step base_url) links p).
Proof.
  revert done_links p. induction links as [|href links IH];
    intros done_links p Hc; simpl.
  - by rewrite app_nil_r.
  - replace (done_links ++ href :: links)
      with ((done_links ++ [href]) ++ links) by (by rewrite <- app_assoc).
    apply IH. by apply plan_step_classified.
Qed.
End Plans.

(** X10. The crawl plan leaves out nothing but repeats and the root: every
    discovered link that has an href and whose normalized form is not the
    root (up to trailing slashes) is in the list of pages to crawl, however
    many there are. *)
Theorem crawl_plan_keeps_every_other_link {U : UnicodeDB}
    (base_url : str) (internal_links : list str) (href : str) :
  href ∈ internal_links ->
  href <> [] ->
  rstrip_char slash (normalize_url href base_url)
  <> rstrip_char slash base_url ->
  normalize_url href base_url ∈ final_crawl_list base_url internal_links.
Proof.
  intros Hin Hne Hroot. unfold final_crawl_list.
  apply (ok_seen _ _ _ (PlannerFacts.plan_internal_ok base_url internal_links)).
  apply plan_fold_seen. left. by repeat split.
Qed.

Lemma crawl_plan_keeps_every_other_link_witness :
  py "http://site.com/blog"
  ∈ final_crawl_list (U := ascii_db) (py "http://site.com")
      [py "/contato"; py "/"; py "blog"].
Proof.
  apply (crawl_plan_keeps_every_other_link (U := ascii_db)
           (py "http://site.com") [py "/contato"; py "/"; py "blog"]
           (py "blog")).
  - apply list_elem_of_In. simpl. tauto.
  - discriminate.
  - vm_compute. discriminate.
Defined.

Lemma is_priority_keyword {U : UnicodeDB} (href : str) :
  is_priority href = true
  <-> exists key words w,
        (key, words) ∈ keywords /\ w ∈ words
        /\ contains w (lower href) = true.
Proof.
  unfold is_priority. cbv zeta. rewrite existsb_exists. split.
  - intros [[key words] [Hkw Hw]]. apply existsb_exists in Hw as [w [Hin Hw]].
    exists key, words, w. split_and!; [|by apply list_elem_of_In|done].
    by apply list_elem_of_In.
  - intros (key & words & w & Hkw & Hin & Hw). exists (key, words). split.
    + by apply list_elem_of_In.
    + apply existsb_exists. exists w. split; [by apply list_elem_of_In|done].
Qed.

(** X11. A URL is on the priority list only if it is the normalized form
    of a link whose lower-cased href holds one of the words of the keyword
    table ([contato], [contact], [fale], [atendimento], [sobre], [about],
    [quem-somos], [institucional], [empresa], [imobiliaria], [servicos],
    [services], [produtos], [products], [imoveis]), and on the general list
    only if it is that of a link whose lower-cased href holds none of
    them. *)
Theorem crawl_plan_classification {U : UnicodeDB}
    (base_url : str) (internal_links : list str) (u : str) :
  (u ∈ priority_links (plan_internal base_url internal_links) ->
   exists href w,
     href ∈ internal_links /\ u = normalize_url href base_url
     /\ w ∈ [py "contato"; py "contact"; py "fale"; py "atendimento";
             py "sobre"; py "about"; py "quem-somos"; py "institucional";
             py "empresa"; py "imobiliaria"; py "servicos"; py "services";
             py "produtos"; py "products"; py "imoveis"]
     /\ contains w (lower href) = true)
  /\ (u ∈ other_links (plan_internal base_url internal_links) ->
      exists href,
        href ∈ internal_links /\ u = normalize_url href base_url
        /\ Forall (fun w => contains w (lower href) = false)
             [py "contato"; py "contact"; py "fale"; py "atendimento";
              py "sobre"; py "about"; py "quem-somos"; py "institucional";
              py "empresa"; py "imobiliaria"; py "servicos"; py "services";
              py "produtos"; py "products"; py "imoveis"]).
Proof.
  assert (Hc : classified base_url internal_links
                 (plan_internal base_url internal_links)).
  { apply (plan_fold_classified base_url internal_links [] empty_plan).
    split; intros x Hx; by apply elem_of_nil in Hx. }
  assert (Hwords : forall w,
             w ∈ [py "contato"; py "contact"; py "fale"; py "atendimento";
                  py "sobre"; py "about"; py "quem-somos";
                  py "institucional"; py "empresa"; py "imobiliaria";
                  py "servicos"; py "services"; py "produtos";
                  py "products"; py "imoveis"]
             <-> exists key words, (key, words) ∈ keywords /\ w ∈ words).
  { intros w.
    change [py "contato"; py "contact"; py "fale"; py "atendimento";
            py "sobre"; py "about"; py "quem-somos"; py "institucional";
            py "empresa"; py "imobiliaria"; py "servicos"; py "services";
            py "produtos"; py "products"; py "imoveis"]
      with (concat (List.map snd keywords)).
    rewrite list_elem_of_In, in_concat. split.
    - intros (words & [[key words'] [<- Hkw]]%in_map_iff & Hw).
      exists key, words'. split; by apply list_elem_of_In.
    - intros (key & words & Hkw & Hw). exists words. split.
      + apply in_map_iff. exists (key, words).
        split; [done | by apply list_elem_of_In].
      + by apply list_elem_of_In. }
  destruct Hc as [Hp Ho]. split.
  - intros Hu. destruct (Hp u Hu) as (href & Hin & Hk & ->).
    apply is_priority_keyword in Hk as (key & words & w & Hkw & Hw & Hc).
    exists href, w. split_and!; try done. apply Hwords. by exists key, words.
  - intros Hu. destruct (Ho u Hu) as (href & Hin & Hk & ->).
    exists href. split_and!; try done.
    apply Forall_forall. intros w Hw.
    apply Hwords in Hw as (key & words & Hkw & Hw).
    destruct (contains w (lower href)) eqn:Hc; [|done].
    assert (is_priority href = true); [|congruence].
    apply is_priority_keyword. by exists key, words, w.
Qed.

Lemma crawl_plan_classification_witness :
  exists href w,
    href ∈ [py "/Contato"; py "/blog"]
    /\ py "http://site.com/Contato" = normalize_url href (py "http://site.com")
    /\ w ∈ [py "contato"; py "contact"; py "fale"; py "atendimento";
            py "sobre"; py "about"; py "quem-somos"; py "institucional";
            py "empresa"; py "imobiliaria"; py "servicos"; py "services";
            py "produtos"; py "products"; py "imoveis"]
    /\ contains w (lower (UnicodeDB := ascii_db) href) = true.
Proof.
  apply (crawl_plan_classification (U := ascii_db) (py "http://site.com")
           [py "/Contato"; py "/blog"] (py "http://site.com/Contato")).
  apply list_elem_of_In. vm_compute. tauto.
Defined.

End PlannerMore.

(** ** The social links *)

Module SocialFacts.
Import Planner Traces.

Lemma has_key_elem (k : str) (d : list (str * str)) :
  has_key k d = true <-> k ∈ map fst d.
Proof.
  unfold has_key. rewrite existsb_exists. split.
  - intros [kv [Hin Heq]]. apply str_eqb_eq in Heq as <-.
    apply list_elem_of_fmap. exists kv.
    split; [done | by apply list_elem_of_In].
  - intros [kv [-> Hin]]%list_elem_of_fmap. exists kv.
    split; [by apply list_elem_of_In | apply str_eqb_refl].
Qed.

Lemma social_keywords_functional (k : str) (d1 d2 : list str) :
  (k, d1) ∈ social_keywords -> (k, d2) ∈ social_keywords -> d1 = d2.
Proof.
  intros H1 H2. apply list_elem_of_In in H1, H2.
  vm_compute in H1, H2. intuition congruence.
Qed.

Section Social.
Context {U : UnicodeDB}.

Section OneLink.
Variable done_links : list str.
Variable href : str.

Lemma try_platform_ok (social : list (str * str)) (kd : str * list str) :
  kd ∈ social_keywords ->
  social_mid done_links href social ->
  social_mid done_links href (try_platform href social kd)
  /\ (forall k, k ∈ map fst social ->
                k ∈ map fst (try_platform href social kd))
  /\ (social_match (snd kd) href = true ->
      fst kd ∈ map fst (try_platform href social kd)).
Proof.
  destruct kd as [k domains]. unfold social_mid, try_platform.
  intros Hkd (Hnd & Hfirst & Hall). cbn [fst snd].
  destruct (has_key k social) eqn:Hk; cbn [negb andb].
  { apply has_key_elem in Hk. by repeat split. }
  destruct (social_match domains href) eqn:Hm;
    [|repeat split; try done; intros; try done].
  assert (Hnew : k ∉ map fst social).
  { intros Hin%has_key_elem. congruence. }
  repeat split.
  - rewrite map_app. apply NoDup_app.
    repeat split; [done | |apply NoDup_singleton].
    intros x Hx ->%list_elem_of_singleton. by apply Hnew.
  - intros k' h [Hin | Hin%list_elem_of_singleton]%elem_of_app;
      [by apply Hfirst|].
    injection Hin as -> ->. exists domains, done_links, [].
    repeat split; try done.
    intros h' Hh'. destruct (social_match domains h') eqn:Hm'; [|done].
    exfalso. apply Hnew. by apply (Hall k domains h').
  - intros k' domains' h Hk' Hh Hm'. rewrite map_app. apply elem_of_app.
    left. by apply (Hall k' domains' h).
  - intros k' Hk'. rewrite map_app. apply elem_of_app. by left.
  - intros _. rewrite map_app. apply elem_of_app. right.
    by apply list_elem_of_singleton.
Qed.

Lemma try_platforms_ok (kws : list (str * list str)) :
  forall social,
    (forall kd, kd ∈ kws -> kd ∈ social_keywords) ->
    social_mid done_links href social ->
    social_mid done_links href (fold_left (try_platform href) kws social)
    /\ (forall k, k ∈ map fst social ->
                  k ∈ map fst (fold_left (try_platform href) kws social))
    /\ (forall kd, kd ∈ kws -> social_match (snd kd) href = true ->
                   fst kd
                   ∈ map fst (fold_left (try_platform href) kws social)).
Proof.
  induction kws as [|kd kws IH]; intros social Hsub Hmid; simpl.
  - split; [done|]. split; [done|].
    intros kd Hin. by apply elem_of_nil in Hin.
  - destruct (try_platform_ok social kd) as (Hmid1 & Hmono1 & Hnew1);
      [apply Hsub; by left | done |].
    destruct (IH (try_platform href social kd)) as (Hmid2 & Hmono2 & Hnew2);
      [intros kd' Hin; apply Hsub; by right | done |].
    split; [done|]. split.
    + intros k Hk. by apply Hmono2, Hmono1.
    + intros kd' [-> | Hin]%elem_of_cons Hm.
      * by apply Hmono2, Hnew1.
      * by apply Hnew2.
Qed.

Lemma social_step_ok (social : list (str * str)) :
  social_ok done_links social ->
  social_ok (done_links ++ [href]) (social_step social href).
Proof.
  intros [Hnd Hfirst Hall].
  destruct (try_platforms_ok social_keywords social) as (Hmid & Hmono & Hnew).
  { done. }
  { unfold social_mid. repeat split; [done | | done].
    intros k h Hin.
    destruct (Hfirst k h Hin) as (domains & pre & post & Hk & -> & Hm & Hpre).
    exists domains, pre, (post ++ [href]).
    repeat split; try done. by rewrite <- app_assoc. }
  destruct Hmid as (Hnd' & Hfirst' & Hall').
  split; [done | done |].
  intros k domains h Hk [Hh | ->%list_elem_of_singleton]%elem_of_app Hm.
  - by apply (Hall' k domains h).
  - by apply (Hnew (k, domains)).
Qed.
End OneLink.

Lemma social_fold_ok (links done_links : list str)
    (social : list (str * str)) :
  social_ok done_links social ->
  social_ok (done_links ++ links) (fold_left social_step links social).
Proof.
  revert done_links social. induction links as [|href links IH];
    intros done_links social Hok; simpl.
  - by rewrite app_nil_r.
  - replace (done_links ++ href :: links)
      with ((done_links ++ [href]) ++ links) by (by rewrite <- app_assoc).
    apply IH. by apply social_step_ok.
Qed.

Lemma plan_social_ok (external_links : list str) :
  social_ok external_links (plan_social external_links).
Proof.
  apply (social_fold_ok external_links [] []). split.
  - constructor.
  - intros k h Hin. by apply elem_of_nil in Hin.
  - intros k domains h _ Hin. by apply elem_of_nil in Hin.
Qed.
End Social.

(** X12. The social links hold at most one link per platform; every link
    recorded is one of the external links, with its href as it was found,
    and its lower-cased href holds a domain of the platform it is recorded
    under. *)
Theorem plan_social_one_link_per_platform {U : UnicodeDB}
    (external_links : list str) :
  NoDup (map fst (plan_social external_links))
  /\ forall k h,
      (k, h) ∈ plan_social external_links ->
      h ∈ external_links
      /\ exists domains,
          (k, domains) ∈ social_keywords
          /\ social_match domains h = true.
Proof.
  destruct (plan_social_ok external_links) as [Hnd Hfirst _].
  split; [done|]. intros k h Hin.
  destruct (Hfirst k h Hin) as (domains & pre & post & Hk & -> & Hm & _).
  split; [|by exists domains].
  apply elem_of_app. right. by left.
Qed.

Lemma plan_social_one_link_per_platform_witness :
  py "https://Instagram.com/padaria"
  ∈ [py "https://maps.example/x"; py "https://Instagram.com/padaria"]
  /\ exists domains,
      (py "instagram", domains) ∈ social_keywords
      /\ social_match (U := ascii_db) domains
           (py "https://Instagram.com/padaria") = true.
Proof.
  apply (plan_social_one_link_per_platform (U := ascii_db)
           [py "https://maps.example/x"; py "https://Instagram.com/padaria"]).
  apply list_elem_of_In. vm_compute. tauto.
Defined.

(** X13. For each platform the first matching link wins: the link recorded
    under a platform is preceded in the list of external links by no link
    that matches the platform, and a platform that some external link
    matches always has an entry. *)
Theorem plan_social_takes_first_match {U : UnicodeDB}
    (external_links : list str) (k : str) (domains : list str) :
  (k, domains) ∈ social_keywords ->
  (forall h,
      (k, h) ∈ plan_social external_links ->
      exists pre post,
        external_links = pre ++ h :: post
        /\ social_match domains h = true
        /\ forall h', h' ∈ pre -> social_match domains h' = false)
  /\ (forall h,
        h ∈ external_links -> social_match domains h = true ->
        exists h0, (k, h0) ∈ plan_social external_links).
Proof.
  intros Hk. destruct (plan_social_ok external_links) as [_ Hfirst Hall].
  split.
  - intros h Hin.
    destruct (Hfirst k h Hin) as (domains' & pre & post & Hk' & -> & Hm & Hpre).
    rewrite (social_keywords_functional k domains domains' Hk Hk').
    by exists pre, post.
  - intros h Hh Hm.
    pose proof (Hall k domains h Hk Hh Hm) as Hin.
    apply list_elem_of_fmap in Hin as [[k' h0] [-> Hin]]. by exists h0.
Qed.

Lemma plan_social_takes_first_match_witness :
  exists h0,
    (py "facebook", h0)
    ∈ plan_social (U := ascii_db)
        [py "https://instagram.com/a"; py "https://facebook.com/b";
         py "https://facebook.com/c"].
Proof.
  refine (proj2 (plan_social_takes_first_match (U := ascii_db)
                   [py "https://instagram.com/a"; py "https://facebook.com/b";
                    py "https://facebook.com/c"]
                   (py "facebook") [py "facebook.com"] _)
            (py "https://facebook.com/c") _ _).
  - apply list_elem_of_In. vm_compute. tauto.
  - apply list_elem_of_In. vm_compute. tauto.
  - vm_compute. reflexivity.
Defined.

End SocialFacts.

(** ** What a whole run asks of the outside *)

Module PipelineMore.
Import Dyn Pipeline Traces PipelineFacts.

Section ReturnFacts.
Context {W : Type}.

Lemma returns_ret {A} (Q : A -> Prop) (a : A) :
  Q a -> returns Q (ret (W := W) a).
Proof. intros H w. exact H. Qed.

Lemma returns_raise {A} (Q : A -> Prop) (e : exn) :
  returns Q (raise (W := W) e).
Proof. intros w. exact I. Qed.

Lemma returns_out_of_fuel {A} (Q : A -> Prop) :
  returns Q (out_of_fuel (W := W)).
Proof. intros w. exact I. Qed.

Lemma returns_lift {A} (Q : A -> Prop) (r : res A) :
  (forall a, r = inr a -> Q a) -> returns Q (lift (W := W) r).
Proof.
  intros H. destruct r as [e|a]; [apply returns_raise|].
  apply returns_ret. by apply H.
Qed.

Lemma returns_call {A} (Q : A -> Prop) (f : W -> W * A) (ev : A -> event) :
  (forall w, Q (snd (f w))) -> returns Q (call f ev).
Proof.
  intros H w. unfold call, outcome_of. specialize (H w).
  by destruct (f w) as [w1 a].
Qed.

Lemma returns_bind {A B} (P : A -> Prop) (Q : B -> Prop)
    (m : M W A) (f : A -> M W B) :
  returns P m -> (forall a, P a -> returns Q (f a)) -> returns Q (bind m f).
Proof.
  intros Hm Hf w. specialize (Hm w). unfold bind, outcome_of in *.
  destruct (m w) as [[[a| e |] w1] t1]; simpl in *; try done.
  specialize (Hf a Hm w1). unfold outcome_of in Hf.
  by destruct (f a w1) as [[r w2] t2].
Qed.

Lemma returns_any {A} (m : M W A) : returns (fun _ => True) m.
Proof. intros w. by destruct (outcome_of (m w)). Qed.

Lemma returns_then {A B} (Q : B -> Prop) (m : M W A) (f : A -> M W B) :
  (forall a, returns Q (f a)) -> returns Q (bind m f).
Proof.
  intros Hf. apply (returns_bind (fun _ => True)); [apply returns_any|].
  intros a _. apply Hf.
Qed.

Lemma returns_try {A} (Q : A -> Prop) (m h : M W A) :
  returns Q m -> returns Q h -> returns Q (try_except m h).
Proof.
  intros Hm Hh w. specialize (Hm w). unfold try_except, outcome_of in *.
  destruct (m w) as [[[a| e |] w1] t1]; simpl in *; try done.
  specialize (Hh w1). unfold outcome_of in Hh.
  by destruct (h w1) as [[r w2] t2].
Qed.

Lemma returns_for_each {A S} (I : S -> Prop) (l : list A)
    (body : S -> A -> M W S) (s : S) :
  I s -> (forall s x, I s -> returns I (body s x)) ->
  returns I (for_each l body s).
Proof.
  intros Hs Hb. revert s Hs. induction l as [|x l IH]; intros s Hs; simpl.
  - by apply returns_ret.
  - apply (returns_bind I); [by apply Hb | apply IH].
Qed.

Lemma emits_bind_returns {A B} (P : event -> Prop) (Q : A -> Prop)
    (m : M W A) (f : A -> M W B) :
  returns Q m -> emits P m -> (forall a, Q a -> emits P (f a)) ->
  emits P (bind m f).
Proof.
  intros Hr Hm Hf w. specialize (Hr w). specialize (Hm w).
  unfold bind, trace_of, outcome_of in *.
  destruct (m w) as [[[a| e |] w1] t1]; simpl in *; try done.
  specialize (Hf a Hr w1). unfold trace_of in Hf.
  destruct (f a w1) as [[r w2] t2]. simpl in *.
  apply Forall_app. by split.
Qed.

Lemma emits_weaken {A} (P Q : event -> Prop) (m : M W A) :
  (forall e, P e -> Q e) -> emits P m -> emits Q m.
Proof. intros HPQ Hm w. eapply Forall_impl; [apply Hm | exact HPQ]. Qed.
End ReturnFacts.

(** Syntax-directed steps for a predicate on the actions that is trivial
    on most of them. *)
Ltac request_step :=
  first
    [ assumption
    | solve [auto with pipeline]
    | apply emits_ret | apply emits_raise | apply emits_out_of_fuel
    | apply emits_lift
    | apply emits_call; intros;
      solve [unfold request_ok; simpl; repeat split; eauto]
    | apply emits_bind; [|intros ?]
    | apply emits_try
    | apply emits_for_each; intros ? ?
    | match goal with
      | |- emits _ (match ?x with _ => _ end) => destruct x
      | |- emits _ (let _ := _ in _) => cbv zeta
      end ].

Ltac request_solve := repeat request_step.

Lemma slice_to_bound (n : N) (s : str) :
  (N.of_nat (length (slice_to n s)) <= n)%N.
Proof. unfold slice_to. rewrite length_take. lia. Qed.

Lemma join_digit_items_digits {U : UnicodeDB} (l : list pyval) (ds : str) :
  join_digit_items l = inr ds -> forallb isdigit ds = true.
Proof.
  revert ds. induction l as [|x l IH]; intros ds; simpl.
  - by intros [= <-].
  - destruct x as [| | | |s| |]; try done.
    destruct (join_digit_items l) as [e|rest]; simpl; [done|].
    intros [= <-]. specialize (IH rest eq_refl).
    destruct (str_isdigit s) eqn:Hs; [|done].
    rewrite forallb_app, IH, andb_true_r.
    unfold str_isdigit in Hs. by apply andb_true_iff in Hs as [_ Hs].
Qed.

Lemma digits_of_digits {U : UnicodeDB} (v : pyval) (ds : str) :
  digits_of v = inr ds -> forallb isdigit ds = true.
Proof.
  unfold digits_of. destruct (py_iter v) as [e|l]; simpl; [done|].
  apply join_digit_items_digits.
Qed.

Lemma digits_of_str {U : UnicodeDB} (s : str) :
  digits_of (PStr s) = inr (List.filter isdigit s).
Proof.
  unfold digits_of. simpl. induction s as [|x s IH]; [reflexivity|].
  simpl. rewrite IH. simpl. unfold str_isdigit. simpl.
  rewrite andb_true_r. by destruct (isdigit x).
Qed.

Section RequestFacts.
Context {U : UnicodeDB} {W : Type}.
Variable svc : services W.
Variable json_loads : str -> option pyval.
Variable hunter_api_key : str.
Variable COMPANY_PROFILE : pyval.
Variable final_file : str.
Variable path_ext : str -> str.
Variable output_lang : str.
Variable search_country : option str.

Lemma hunter_loop_requests (fuel k : nat) (domain : str) :
  Forall (fun b => contains b domain = false) BLACKLIST_DOMAINS ->
  emits (request_ok hunter_api_key COMPANY_PROFILE)
    (hunter_loop svc fuel k (hunter_url hunter_api_key domain)).
Proof.
  intros Hd. revert k.
  induction fuel as [|fuel IH]; intros k; simpl;
    unfold hunter_valid_emails, verify_email_address; request_solve.
Qed.

Lemma fetch_hunter_emails_requests (domain : str) :
  emits (request_ok hunter_api_key COMPANY_PROFILE)
    (fetch_hunter_emails svc hunter_api_key domain).
Proof.
  unfold fetch_hunter_emails.
  destruct (existsb _ BLACKLIST_DOMAINS) eqn:Hb; [apply emits_ret|].
  apply emits_try; [|apply emits_ret].
  apply hunter_loop_requests. apply Forall_forall. intros b Hin.
  destruct (contains b domain) eqn:Hc; [|done].
  assert (Hex : existsb (fun b => contains b domain) BLACKLIST_DOMAINS = true).
  { apply existsb_exists. exists b. split; [by apply list_elem_of_In | done]. }
  congruence.
Qed.
#[local] Hint Resolve fetch_hunter_emails_requests : pipeline.

Lemma website_stage_requests (item : pyval) (base_url : str) :
  emits (request_ok hunter_api_key COMPANY_PROFILE)
    (website_stage svc hunter_api_key item base_url).
Proof. unfold website_stage, crawl_page. request_solve. Qed.
#[local] Hint Resolve website_stage_requests : pipeline.

Lemma fetch_cnpja_data_requests (cnpj : pyval) :
  emits (request_ok hunter_api_key COMPANY_PROFILE) (fetch_cnpja_data svc cnpj).
Proof.
  unfold fetch_cnpja_data. destruct (negb (truthy cnpj)); [apply emits_ret|].
  apply (emits_bind_returns _ (fun ds => forallb isdigit ds = true)).
  - apply returns_lift. intros ds. apply digits_of_digits.
  - apply emits_lift.
  - intros ds Hds. destruct (Nat.eqb_spec (length ds) 14) as [Hlen|Hlen];
      cbn [negb]; [|apply emits_ret].
    apply emits_bind; [|intros; apply emits_ret].
    apply emits_call. intros r. unfold request_ok. by repeat split.
Qed.
#[local] Hint Resolve fetch_cnpja_data_requests : pipeline.

Lemma post_process_requests (clean_profile : pyval) :
  emits (request_ok hunter_api_key COMPANY_PROFILE)
    (post_process svc clean_profile).
Proof.
  unfold post_process, validate_emails, attach_whatsapp, registry_data,
    verify_email_address.
  request_solve.
Qed.
#[local] Hint Resolve post_process_requests : pipeline.

Lemma analyze_with_gpt_requests (full : str) (raw_lead : pyval)
    (emails : list str) :
  emits (request_ok hunter_api_key COMPANY_PROFILE)
    (analyze_with_gpt svc json_loads COMPANY_PROFILE output_lang
       search_country full raw_lead emails).
Proof.
  unfold analyze_with_gpt. apply emits_bind; [apply emits_lift|]. intros _.
  cbv zeta. apply emits_bind.
  - apply emits_call. intros r. unfold request_ok. repeat split.
    simpl. apply slice_to_bound.
  - intros [text|]; apply emits_ret.
Qed.
#[local] Hint Resolve analyze_with_gpt_requests : pipeline.

Lemma lead_body_requests (item base_url : pyval) :
  emits (request_ok hunter_api_key COMPANY_PROFILE)
    (lead_body svc json_loads hunter_api_key COMPANY_PROFILE output_lang
       search_country item base_url).
Proof. unfold lead_body, website_of. request_solve. Qed.
#[local] Hint Resolve lead_body_requests : pipeline.

Lemma process_item_requests (final_leads : list pyval) (item : pyval) :
  emits (request_ok hunter_api_key COMPANY_PROFILE)
    (process_item svc json_loads hunter_api_key COMPANY_PROFILE output_lang
       search_country final_leads item).
Proof. unfold process_item. request_solve. Qed.
#[local] Hint Resolve process_item_requests : pipeline.

Lemma read_line_requests (fd : nat) :
  emits (request_ok hunter_api_key COMPANY_PROFILE) (read_line svc fd).
Proof.
  unfold read_line. apply emits_bind.
  - apply emits_call. by intros [line|].
  - intros [line|]; [apply emits_ret | apply emits_raise].
Qed.
#[local] Hint Resolve read_line_requests : pipeline.

Lemma backfill_loop_requests (fuel fd : nat) (final_leads : list pyval) :
  emits (request_ok hunter_api_key COMPANY_PROFILE)
    (backfill_loop svc json_loads hunter_api_key COMPANY_PROFILE output_lang
       search_country fuel fd final_leads).
Proof.
  revert final_leads. induction fuel as [|fuel IH]; intros final_leads;
    simpl; request_solve.
Qed.
#[local] Hint Resolve backfill_loop_requests : pipeline.

Lemma follow_loop_requests (fuel fd : nat) (final_leads : list pyval) :
  emits (request_ok hunter_api_key COMPANY_PROFILE)
    (follow_loop svc json_loads hunter_api_key COMPANY_PROFILE output_lang
       search_country fuel fd final_leads).
Proof.
  revert final_leads. induction fuel as [|fuel IH]; intros final_leads;
    simpl; request_solve.
Qed.
#[local] Hint Resolve follow_loop_requests : pipeline.

Lemma read_lines_requests (fuel fd : nat) :
  emits (request_ok hunter_api_key COMPANY_PROFILE) (read_lines svc fuel fd).
Proof. induction fuel as [|fuel IH]; simpl; request_solve. Qed.
#[local] Hint Resolve read_lines_requests : pipeline.
End RequestFacts.

Section RunRequests.
Context {U : UnicodeDB} {W : Type}.
Variable svc : services W.
Variable json_loads : str -> option pyval.
Variable hunter_api_key : str.
Variable COMPANY_PROFILE : pyval.
Variable final_file : str.
Variable path_ext : str -> str.

Lemma main_requests (fuel : nat) (argv : list str) :
  emits (request_ok hunter_api_key COMPANY_PROFILE)
    (main svc json_loads hunter_api_key COMPANY_PROFILE final_file path_ext
       fuel argv).
Proof.
  unfold main, stream_run, bounded_run, load_items, open_queue, finish.
  pose proof (backfill_loop_requests svc json_loads hunter_api_key
                COMPANY_PROFILE) as Hback.
  pose proof (follow_loop_requests svc json_loads hunter_api_key
                COMPANY_PROFILE) as Hfollow.
  pose proof (lead_body_requests svc json_loads hunter_api_key
                COMPANY_PROFILE) as Hbody.
  pose proof (read_lines_requests svc hunter_api_key COMPANY_PROFILE)
    as Hread.
  request_solve.
Qed.

(** X15. In any run, whatever the queue holds and the services answer, the
    company registry is only ever asked about a value of exactly fourteen
    characters, all of them digits. *)
Theorem main_registry_requests_carry_14_digits
    (fuel : nat) (argv : list str) (w : W) :
  Forall registry_ok
    (trace_of (main svc json_loads hunter_api_key COMPANY_PROFILE final_file
                 path_ext fuel argv w)).
Proof.
  eapply Forall_impl; [apply main_requests|]. by intros e (H & _ & _).
Qed.

(** X16. In any run, every completion request carries at most 20000
    characters of content, and the configured company profile. *)
Theorem main_prompts_are_bounded (fuel : nat) (argv : list str) (w : W) :
  Forall (prompt_ok COMPANY_PROFILE)
    (trace_of (main svc json_loads hunter_api_key COMPANY_PROFILE final_file
                 path_ext fuel argv w)).
Proof.
  eapply Forall_impl; [apply main_requests|]. by intros e (_ & H & _).
Qed.

(** X17. In any run, every request to the email-discovery service is the
    domain search, with the API key, of a domain that holds none of the
    blacklisted names. *)
Theorem main_discovery_skips_blacklist
    (fuel : nat) (argv : list str) (w : W) :
  Forall (discovery_ok hunter_api_key)
    (trace_of (main svc json_loads hunter_api_key COMPANY_PROFILE final_file
                 path_ext fuel argv w)).
Proof.
  eapply Forall_impl; [apply main_requests|]. by intros e (_ & _ & H).
Qed.
End RunRequests.

(** *** Only validated addresses *)

Section Validated.
Context {U : UnicodeDB} {W : Type}.
Variable svc : services W.
Variable hunter_api_key : str.
Variable P : str -> Prop.
Hypothesis validator :
  forall email w a, snd (validate_email svc email w) = Normalized a -> P a.

Lemma verify_email_address_returns (email : pyval) :
  returns (fun o => forall a, o = Some a -> P a)
    (verify_email_address svc email).
Proof using validator.
  unfold verify_email_address.
  apply (returns_bind (fun r => forall a, r = Normalized a -> P a)).
  - apply returns_call. intros w a. apply validator.
  - intros r Hr. destruct r as [a| |];
      [apply returns_ret | apply returns_ret | apply returns_raise].
    + intros a' [= <-]. by apply Hr.
    + done.
Qed.

Lemma append_if_valid_kept (l : list str) (v : option str) :
  Forall (fun a => P a /\ a <> []) l ->
  (forall a, v = Some a -> P a) ->
  Forall (fun a => P a /\ a <> []) (append_if_valid l v).
Proof.
  intros Hl Hv. destruct v as [a|]; simpl; [|done].
  destruct a as [|c a]; [done|]. cbn [Queue.is_empty].
  apply Forall_app. split; [done|].
  apply Forall_singleton. split; [by apply Hv | done].
Qed.

Lemma hunter_valid_emails_returns (r : http_response) :
  returns (Forall (fun a => P a /\ a <> [])) (hunter_valid_emails svc r).
Proof using validator.
  unfold hunter_valid_emails.
  do 4 (apply returns_then; intros ?).
  apply returns_for_each; [constructor|].
  intros l e Hl. apply returns_then. intros email_val.
  destruct (truthy email_val); [|by apply returns_ret].
  eapply returns_bind; [apply verify_email_address_returns|].
  intros v Hv. apply returns_ret. by apply append_if_valid_kept.
Qed.

Lemma hunter_loop_returns (fuel k : nat) (url : str) :
  returns (Forall (fun a => P a /\ a <> [])) (hunter_loop svc fuel k url).
Proof using validator.
  revert k. induction fuel as [|fuel IH]; intros k; simpl.
  - destruct (k <? max_attempts)%nat;
      [apply returns_out_of_fuel | apply returns_ret; constructor].
  - destruct (k <? max_attempts)%nat; [|apply returns_ret; constructor].
    apply returns_then. intros [r|]; [|apply returns_raise].
    destruct (status_code r =? 200)%Z; [apply hunter_valid_emails_returns|].
    destruct (status_code r =? 429)%Z; [|apply returns_ret; constructor].
    apply returns_then. intros [e|]; [apply returns_raise | apply IH].
Qed.

Lemma fetch_hunter_emails_returns (domain : str) :
  returns (Forall (fun a => P a /\ a <> []))
    (fetch_hunter_emails svc hunter_api_key domain).
Proof using validator.
  unfold fetch_hunter_emails.
  destruct (existsb _ BLACKLIST_DOMAINS); [apply returns_ret; constructor|].
  apply returns_try; [apply hunter_loop_returns | apply returns_ret].
  constructor.
Qed.

End Validated.

(** X18. Email discovery always returns a list, and the list holds only
    non-empty addresses that the validator returned as the normalized form
    of an address it accepted: whatever property the validator guarantees of
    its results holds of every address returned. *)
Theorem fetch_hunter_emails_only_validated {U : UnicodeDB} {W : Type}
    (svc : services W) (hunter_api_key : str) (P : str -> Prop)
    (domain : str) (w : W) :
  (forall email w0 a,
      snd (validate_email svc email w0) = Normalized a -> P a) ->
  exists emails,
    outcome_of (fetch_hunter_emails svc hunter_api_key domain w) = Ok emails
    /\ Forall (fun a => P a /\ a <> []) emails.
Proof.
  intros Hvalid.
  pose proof (fetch_hunter_emails_returns svc hunter_api_key P Hvalid
                domain w) as Hret.
  assert (Hok : exists emails,
             outcome_of (fetch_hunter_emails svc hunter_api_key domain w)
             = Ok emails).
  { unfold fetch_hunter_emails, outcome_of.
    destruct (existsb _ BLACKLIST_DOMAINS); [by exists []|].
    unfold try_except.
    destruct (hunter_loop svc max_attempts 0
                (hunter_url hunter_api_key domain) w)
      as [[o w1] t1] eqn:Hloop.
    apply hunter_loop_run in Hloop; [|lia].
    apply run_total in Hloop.
    destruct o as [l|e|]; simpl; [by exists l | by exists [] | done]. }
  destruct Hok as [emails Hok]. exists emails. split; [done|].
  by rewrite Hok in Hret.
Qed.

Lemma fetch_hunter_emails_only_validated_witness :
  exists emails,
    outcome_of (Scenario.run_hunter Scenario.rate_limited_world
                  (py "site.com")) = Ok emails
    /\ Forall (fun a => contains (py "@") a = true /\ a <> []) emails.
Proof.
  apply (fetch_hunter_emails_only_validated (U := ascii_db)
           Scenario.sc_services (py "key")
           (fun a => contains (py "@") a = true) (py "site.com")
           Scenario.rate_limited_world).
  intros email w0 a. simpl. unfold Scenario.sc_validate.
  destruct email as [| | | |s| |]; try discriminate.
  destruct (contains (py "@") s) eqn:Hs; [|discriminate].
  by intros [= <-].
Defined.

Section ValidationStep.
Context {U : UnicodeDB} {W : Type}.
Variable svc : services W.

Lemma dict_get_absent (k : str) (d : list (str * pyval)) :
  dict_get k d = None -> existsb (fun kv => str_eqb (fst kv) k) d = false.
Proof.
  induction d as [|[k' v'] d IH]; simpl; [done|].
  destruct (str_eqb k' k); [done|]. exact IH.
Qed.

Lemma dict_get_present (k : str) (v : pyval) (d : list (str * pyval)) :
  dict_get k d = Some v -> existsb (fun kv => str_eqb (fst kv) k) d = true.
Proof.
  induction d as [|[k' v'] d IH]; simpl; [done|].
  destruct (str_eqb k' k); [done|]. exact IH.
Qed.

Lemma for_each_cons_run {A S} (x : A) (l : list A)
    (body : S -> A -> M W S) (s : S) (w : W) :
  for_each (x :: l) body s w
  = match body s x w with
    | (Ok a, w1, t1) =>
        let '(r, w2, t2) := for_each l body a w1 in (r, w2, t1 ++ t2)
    | (Raise e, w1, t1) => (Raise e, w1, t1)
    | (OutOfFuel, w1, t1) => (OutOfFuel, w1, t1)
    end.
Proof. reflexivity. Qed.

(** One pass of the loop over the addresses. *)
Lemma validation_pass_run (acc : list str) (mail : pyval) (w : W) :
  (v_mail <- verify_email_address svc mail ;;
   ret (append_if_valid acc v_mail)) w
  = (match snd (validate_email svc mail w) with
     | Normalized a => Ok (append_if_valid acc (Some a))
     | NotValid => Ok acc
     | CheckFailed => Raise ExternalError
     end, fst (validate_email svc mail w), [EvValidate mail]).
Proof.
  cbv beta delta [bind verify_email_address call].
  destruct (validate_email svc mail w) as [w1 r]. by destruct r.
Qed.

Lemma append_accepted (acc : list str) (r : email_check)
    (rs : list email_check) :
  r <> CheckFailed ->
  match r with
  | Normalized a => append_if_valid acc (Some a)
  | _ => acc
  end ++ omap accepted rs
  = acc ++ omap accepted (r :: rs).
Proof.
  intros Hr. destruct r as [a| |]; [|done|done].
  destruct a as [|c a]; [done|]. simpl. by rewrite <- app_assoc.
Qed.

(** The loop over the addresses, against the answers of the validator. *)
Lemma validation_loop_run (mails : list pyval) :
  forall (acc : list str) (w : W),
    let run :=
      for_each mails
        (fun acc mail =>
           v_mail <- verify_email_address svc mail ;;
           ret (append_if_valid acc v_mail)) acc w in
    let answers := fst (validator_answers svc mails w) in
    (Forall (fun r => r <> CheckFailed) answers ->
     run = (Ok (acc ++ omap accepted answers),
            snd (validator_answers svc mails w),
            List.map EvValidate mails))
    /\ (Exists (fun r => r = CheckFailed) answers ->
        outcome_of run = Raise ExternalError).
Proof.
  induction mails as [|mail mails IH]; intros acc w; cbv zeta.
  - simpl. split.
    + intros _. by rewrite app_nil_r.
    + intros H. by apply Exists_nil in H.
  - cbn [validator_answers]. rewrite !for_each_cons_run. cbv beta.
    rewrite !validation_pass_run.
    destruct (validate_email svc mail w) as [w1 r].
    destruct (validator_answers svc mails w1) as [rs w2] eqn:Hrs.
    cbn [fst snd]. split.
    + intros [Hr Hall]%Forall_cons.
      rewrite <- (append_accepted acc r rs Hr).
      destruct r as [a| |]; [| |done].
      * destruct (IH (append_if_valid acc (Some a)) w1) as [Hok _].
        rewrite Hrs in Hok. cbn [fst snd] in Hok. by rewrite (Hok Hall).
      * destruct (IH acc w1) as [Hok _].
        rewrite Hrs in Hok. cbn [fst snd] in Hok. by rewrite (Hok Hall).
    + intros [Hhd | Htl]%Exists_cons; [by rewrite Hhd|].
      destruct r as [a| |]; [| |done].
      * destruct (IH (append_if_valid acc (Some a)) w1) as [_ Hbad].
        rewrite Hrs in Hbad. cbn [fst snd] in Hbad. specialize (Hbad Htl).
        unfold outcome_of in *.
        destruct (for_each _ _ _ w1) as [[o w3] t3]. simpl in *. by subst o.
      * destruct (IH acc w1) as [_ Hbad].
        rewrite Hrs in Hbad. cbn [fst snd] in Hbad. specialize (Hbad Htl).
        unfold outcome_of in *.
        destruct (for_each _ _ _ w1) as [[o w3] t3]. simpl in *. by subst o.
Qed.

(** X19. The email-validation step of the post-processing. Without an
    [emails] key the contact details are left as they are and the validator
    is not asked. With one, every address is put to the validator in turn;
    when no check fails for another reason than an invalid address, the step
    sets [emails] to the non-empty normalized forms of the accepted
    addresses, in their order, and changes nothing else: the rejected
    addresses are dropped. A check that fails otherwise makes the step
    raise. *)
Theorem validate_emails_keeps_accepted (d : list (str * pyval))
    (raw : pyval) (mails : list pyval) (w : W) :
  (dict_get (py "emails") d = None ->
   validate_emails svc (PDict d) w = (Ok (PDict d), w, []))
  /\ (dict_get (py "emails") d = Some raw -> py_iter raw = inr mails ->
      let answers := fst (validator_answers svc mails w) in
      (Forall (fun r => r <> CheckFailed) answers ->
       validate_emails svc (PDict d) w
       = (Ok (PDict (dict_set (py "emails")
                       (PList (List.map PStr (omap accepted answers))) d)),
          snd (validator_answers svc mails w),
          List.map EvValidate mails))
      /\ (Exists (fun r => r = CheckFailed) answers ->
          outcome_of (validate_emails svc (PDict d) w)
          = Raise ExternalError)).
Proof.
  split.
  - intros Hnone. unfold validate_emails. cbn [py_in lift].
    rewrite (dict_get_absent _ _ Hnone). cbn [lift].
    by rewrite bind_ret_l.
  - intros Hsome Hiter. cbv zeta.
    assert (Hstep : validate_emails svc (PDict d) w
                    = (validated <-
                         for_each mails
                           (fun acc mail =>
                              v_mail <- verify_email_address svc mail ;;
                              ret (append_if_valid acc v_mail)) [] ;;
                       lift (py_setitem (PDict d) (py "emails")
                               (PList (List.map PStr validated)))) w).
    { unfold validate_emails. cbn [py_in lift].
      rewrite (dict_get_present _ _ _ Hsome). cbn [lift].
      rewrite bind_ret_l. cbn [py_getitem]. rewrite Hsome. cbn [lift].
      rewrite bind_ret_l, Hiter. cbn [lift]. by rewrite bind_ret_l. }
    rewrite Hstep. destruct (validation_loop_run mails [] w) as [Hok Hbad].
    split.
    + intros Hall. unfold bind at 1. rewrite (Hok Hall). simpl.
      by rewrite app_nil_r.
    + intros Hex. specialize (Hbad Hex). unfold outcome_of in *.
      unfold bind at 1.
      destruct (for_each _ _ _ w) as [[o w3] t3]. simpl in Hbad.
      by subst o.
Qed.
End ValidationStep.

Lemma validate_emails_keeps_accepted_witness :
  validate_emails Scenario.sc_services
    (PDict [(py "emails", PList [PStr (py "ana@site.com"); PStr (py "bad")])])
    Scenario.bounded_world
  = (Ok (PDict [(py "emails", PList [PStr (py "ana@site.com")])]),
     Scenario.bounded_world,
     [EvValidate (PStr (py "ana@site.com")); EvValidate (PStr (py "bad"))]).
Proof.
  etrans;
    [apply (proj2 (validate_emails_keeps_accepted
                     Scenario.sc_services
                     [(py "emails",
                       PList [PStr (py "ana@site.com"); PStr (py "bad")])]
                     (PList [PStr (py "ana@site.com"); PStr (py "bad")])
                     [PStr (py "ana@site.com"); PStr (py "bad")]
                     Scenario.bounded_world) eq_refl eq_refl)|].
  - repeat constructor; vm_compute; discriminate.
  - vm_compute. reflexivity.
Defined.

(** *** What is written *)

Lemma dict_get_set_same (k : str) (x : pyval) (d : list (str * pyval)) :
  dict_get k (dict_set k x d) = Some x.
Proof.
  induction d as [|[k' v'] d IH]; simpl.
  - by rewrite str_eqb_refl.
  - destruct (str_eqb k' k) eqn:Hk; simpl; by rewrite Hk.
Qed.

Lemma quiet_write_ok (final_file : str) (e : event) :
  quiet e -> write_ok final_file e.
Proof. by destruct e. Qed.

Section Written.
Context {U : UnicodeDB} {W : Type}.
Variable svc : services W.
Variable json_loads : str -> option pyval.
Variable hunter_api_key : str.
Variable COMPANY_PROFILE : pyval.
Variable final_file : str.
Variable path_ext : str -> str.
Variable output_lang : str.
Variable search_country : option str.

Lemma post_process_returns (clean_profile : pyval) :
  returns has_registry_field (post_process svc clean_profile).
Proof.
  unfold post_process. do 2 (apply returns_then; intros ?). cbv zeta.
  apply returns_then. intros cnpja_data. apply returns_lift. intros out.
  destruct (Scrub.clean_recursive _) as [| | | | | |d]; try done.
  intros [= <-]. exists (dict_set (py "cnpja_data") cnpja_data d).
  split; [done|]. rewrite dict_get_set_same. by eexists.
Qed.

Lemma lead_body_returns (item base_url : pyval) :
  returns (fun o => forall p, o = Some p -> has_registry_field p)
    (lead_body svc json_loads hunter_api_key COMPANY_PROFILE output_lang
       search_country item base_url).
Proof.
  unfold lead_body. do 2 (apply returns_then; intros ?). cbv zeta.
  apply returns_then. intros clean_profile.
  destruct (truthy clean_profile); [|by apply returns_ret].
  eapply returns_bind; [apply post_process_returns|].
  intros final Hfinal. apply returns_ret. by intros p [= <-].
Qed.

Lemma process_item_returns (final_leads : list pyval) (item : pyval) :
  Forall has_registry_field final_leads ->
  returns (Forall has_registry_field)
    (process_item svc json_loads hunter_api_key COMPANY_PROFILE output_lang
       search_country final_leads item).
Proof.
  intros Hl. unfold process_item. apply returns_then. intros base_url.
  eapply returns_bind; [apply lead_body_returns|].
  intros added Hadded. apply returns_ret. apply Forall_app. split; [done|].
  destruct added as [p|]; simpl; [|constructor].
  apply Forall_singleton. by apply Hadded.
Qed.

Lemma backfill_loop_returns (fuel fd : nat) (final_leads : list pyval) :
  Forall has_registry_field final_leads ->
  returns (Forall has_registry_field)
    (backfill_loop svc json_loads hunter_api_key COMPANY_PROFILE output_lang
       search_country fuel fd final_leads).
Proof.
  revert final_leads. induction fuel as [|fuel IH]; intros final_leads Hl;
    simpl; [apply returns_out_of_fuel|].
  apply returns_then. intros line.
  destruct (Queue.is_empty line); [by apply returns_ret|].
  destruct (Queue.objects_line json_loads false line); try by apply IH.
  eapply returns_bind; [by apply process_item_returns | apply IH].
Qed.

Lemma follow_loop_returns (fuel fd : nat) (final_leads : list pyval) :
  Forall has_registry_field final_leads ->
  returns (Forall has_registry_field)
    (follow_loop svc json_loads hunter_api_key COMPANY_PROFILE output_lang
       search_country fuel fd final_leads).
Proof.
  revert final_leads. induction fuel as [|fuel IH]; intros final_leads Hl;
    simpl; [apply returns_out_of_fuel|].
  apply returns_then. intros line.
  destruct (Queue.follow_line json_loads line).
  - apply returns_then. intros _. by apply IH.
  - by apply IH.
  - by apply returns_ret.
  - eapply returns_bind; [by apply process_item_returns | apply IH].
Qed.

Lemma stream_run_returns (fuel : nat) (json_file : str) :
  returns (Forall has_registry_field)
    (stream_run svc json_loads hunter_api_key COMPANY_PROFILE output_lang
       search_country fuel json_file).
Proof.
  unfold stream_run. apply returns_then. intros fd1.
  eapply returns_bind; [apply backfill_loop_returns; constructor|].
  intros leads Hleads. apply returns_then. intros fd2.
  by apply follow_loop_returns.
Qed.

Lemma bounded_run_returns (items : pyval) :
  returns (Forall has_registry_field)
    (bounded_run svc json_loads hunter_api_key COMPANY_PROFILE output_lang
       search_country items).
Proof.
  unfold bounded_run. apply returns_then. intros its.
  apply returns_then. intros last_vars.
  destruct last_vars as [[item base_url]|]; [|apply returns_raise].
  eapply returns_bind; [apply lead_body_returns|].
  intros added Hadded. apply returns_ret.
  destruct added as [p|]; simpl; [|constructor].
  apply Forall_singleton. by apply Hadded.
Qed.

Lemma finish_writes (stream_mode : bool) (json_file : str)
    (final_leads : list pyval) :
  Forall has_registry_field final_leads ->
  emits (write_ok final_file)
    (finish svc final_file stream_mode json_file final_leads).
Proof.
  intros Hl. unfold finish. apply emits_bind.
  - apply emits_call. intros failed. by split.
  - intros [e|]; [apply emits_raise|]. request_solve.
Qed.
End Written.

(** X20. Every write of a run goes to the output file, and every profile
    it holds is a dict that carries the [cnpja_data] key (with the registry
    data, or [None]). *)
Theorem main_writes_only_complete_profiles {U : UnicodeDB} {W : Type}
    (svc : services W) (json_loads : str -> option pyval)
    (hunter_api_key : str) (COMPANY_PROFILE : pyval) (final_file : str)
    (path_ext : str -> str) (fuel : nat) (argv : list str) (w : W) :
  Forall (write_ok final_file)
    (trace_of (main svc json_loads hunter_api_key COMPANY_PROFILE final_file
                 path_ext fuel argv w)).
Proof.
  revert w. change (emits (write_ok final_file)
                      (main svc json_loads hunter_api_key COMPANY_PROFILE
                         final_file path_ext fuel argv)).
  unfold main. destruct argv as [|script [|json_file options]];
    try apply emits_ret.
  apply emits_bind; [by apply emits_call|]. intros there.
  destruct there; cbn [negb]; [|apply emits_ret].
  apply emits_bind.
  { destruct (stream_mode_of json_file); [apply emits_ret|].
    eapply emits_weaken; [apply quiet_write_ok | apply load_items_quiet]. }
  intros items.
  apply (emits_bind_returns _ (Forall has_registry_field)).
  - destruct (stream_mode_of json_file);
      [apply stream_run_returns | apply bounded_run_returns].
  - eapply emits_weaken; [apply quiet_write_ok|].
    destruct (stream_mode_of json_file);
      [apply stream_run_quiet | apply bounded_run_quiet].
  - intros final_leads Hl. by apply finish_writes.
Qed.

(** X21. A bounded run on a queue that holds an empty array stops with
    [UnboundLocalError] right after loading it: the per-lead logic that
    follows the loop reads variables the loop never set. Nothing is written
    and the queue is not deleted. *)
Theorem main_empty_array_raises {U : UnicodeDB} {W : Type}
    (svc : services W) (json_loads : str -> option pyval)
    (hunter_api_key : str) (COMPANY_PROFILE : pyval) (final_file : str)
    (path_ext : str -> str) (fuel : nat) (script json_file : str)
    (options : list str) (w w1 w2 : W) :
  stream_mode_of json_file = false ->
  str_eqb (path_ext (lower json_file)) (py ".jsonl") = false ->
  os_path_exists svc json_file w = (w1, true) ->
  load_json svc json_file w1 = (w2, Some (PList [])) ->
  main svc json_loads hunter_api_key COMPANY_PROFILE final_file path_ext
    fuel (script :: json_file :: options) w
  = (Raise UnboundLocalError, w2,
     [EvExists json_file; EvLoadJson json_file]).
Proof.
  intros Hsm Hext Hthere Hload. unfold main. rewrite Hsm.
  unfold load_items. rewrite Hext.
  unfold bind, call. rewrite Hthere. cbn [negb]. rewrite Hload.
  reflexivity.
Qed.

Lemma main_empty_array_raises_witness :
  Scenario.run_main
    (Scenario.World [] [(py "leads.json", PList [])] [] [] []) 10
    [py "enrich_leads.py"; py "leads.json"]
  = (Raise UnboundLocalError,
     Scenario.World [] [(py "leads.json", PList [])] [] [] [],
     [EvExists (py "leads.json"); EvLoadJson (py "leads.json")]).
Proof.
  apply (main_empty_array_raises (U := ascii_db) Scenario.sc_services
           (Scenario.json_loads_on Scenario.known_values) (py "key")
           (PDict []) Scenario.final_file Scenario.sc_ext 10
           (py "enrich_leads.py") (py "leads.json") []
           (Scenario.World [] [(py "leads.json", PList [])] [] [] [])
           (Scenario.World [] [(py "leads.json", PList [])] [] [] [])
           (Scenario.World [] [(py "leads.json", PList [])] [] [] []));
    vm_compute; reflexivity.
Defined.

(** *** The pages fetched for one lead *)

Lemma crawled_app (t1 t2 : list event) :
  crawled (t1 ++ t2) = crawled t1 ++ crawled t2.
Proof. apply omap_app. Qed.

Lemma crawled_none (t : list event) :
  Forall (fun e => crawled [e] = []) t -> crawled t = [].
Proof.
  induction 1 as [|e t He _ IH]; [done|].
  change (e :: t) with ([e] ++ t). by rewrite crawled_app, He, IH.
Qed.

Section Crawl.
Context {U : UnicodeDB} {W : Type}.
Variable svc : services W.
Variable hunter_api_key : str.

Lemma trace_bind_ok {A B} (m : M W A) (f : A -> M W B) (w w1 : W) (a : A)
    (t1 : list event) :
  m w = (Ok a, w1, t1) ->
  trace_of (bind m f w) = t1 ++ trace_of (f a w1).
Proof.
  intros Hm. unfold bind, trace_of. rewrite Hm.
  by destruct (f a w1) as [[r w2] t2].
Qed.

Lemma bind_ok {A B} (m : M W A) (f : A -> M W B) (w w1 w2 : W) (a : A)
    (r : outcome B) (t1 t2 : list event) :
  m w = (Ok a, w1, t1) -> f a w1 = (r, w2, t2) ->
  bind m f w = (r, w2, t1 ++ t2).
Proof. intros Hm Hf. unfold bind. by rewrite Hm, Hf. Qed.

(** A loop whose every pass fetches one page and goes on. *)
Lemma for_each_crawls {A S} (I : S -> Prop) (g : A -> str)
    (body : S -> A -> M W S) :
  (forall s x w, I s ->
     exists s' w', body s x w = (Ok s', w', [EvCrawl (g x)]) /\ I s') ->
  forall l s w, I s ->
    exists s' w' t,
      for_each l body s w = (Ok s', w', t) /\ crawled t = List.map g l.
Proof.
  intros Hbody l. induction l as [|x l IH]; intros s w Hs; simpl.
  - by exists s, w, [].
  - destruct (Hbody s x w Hs) as (s1 & w1 & Hrun1 & Hs1).
    destruct (IH s1 w1 Hs1) as (s' & w' & t & Hrun & Ht).
    exists s', w', ([EvCrawl (g x)] ++ t). split.
    + by apply (bind_ok _ _ w w1 w' s1).
    + simpl. by rewrite Ht.
Qed.

Lemma page_loop_run (links : list str) (acc : str) (w : W) :
  exists acc' w' t,
    for_each links
      (fun acc link_url =>
         sub <- crawl_page svc link_url ;;
         match sub with
         | Some r =>
             ret (acc ++ nl ++ py "# Page: " ++ link_url ++ nl
                  ++ markdown r ++ nl)
         | None => ret acc
         end) acc w
    = (Ok acc', w', t)
    /\ crawled t = List.map id links.
Proof.
  apply (for_each_crawls (fun _ => True) id); [|done].
  intros s u w0 _. unfold bind, crawl_page, call, id.
  destruct (crawl svc u w0) as [w1 [r|]]; simpl; eauto.
Qed.

Lemma social_loop_run (social : list (str * str)) (acc : str * pyval)
    (w : W) :
  (exists d, snd acc = PDict d) ->
  exists acc' w' t,
    for_each social
      (fun (acc : str * pyval) kl =>
         sub <- crawl_page svc (snd kl) ;;
         match sub with
         | Some r =>
             item' <- lift (py_setitem (snd acc) (fst kl) (PStr (snd kl))) ;;
             ret (fst acc ++ nl ++ py "# Social Media ("
                  ++ capitalize (fst kl) ++ py ")" ++ nl
                  ++ slice_to 2000%N (markdown r) ++ nl, item')
         | None => ret acc
         end) acc w
    = (Ok acc', w', t)
    /\ crawled t = List.map snd social.
Proof.
  apply (for_each_crawls (fun acc => exists d, snd acc = PDict d) snd).
  intros s kl w0 [d Hd]. unfold bind, crawl_page, call.
  destruct (crawl svc (snd kl) w0) as [w1 [r|]]; simpl.
  - rewrite Hd. simpl. eauto 6.
  - eauto 6.
Qed.

Lemma hunter_loop_no_crawl (fuel k : nat) (url : str) :
  emits (fun e => crawled [e] = []) (hunter_loop svc fuel k url).
Proof.
  revert k. induction fuel as [|fuel IH]; intros k; simpl;
    unfold hunter_valid_emails, verify_email_address; request_solve.
Qed.

Lemma fetch_hunter_emails_no_crawl (domain : str) :
  emits (fun e => crawled [e] = [])
    (fetch_hunter_emails svc hunter_api_key domain).
Proof.
  pose proof hunter_loop_no_crawl.
  unfold fetch_hunter_emails. request_solve.
Qed.

(** X22. The pages fetched for a lead with a website, in order: the home
    page; then, when the home page could be fetched, every page of the crawl
    plan once, priority pages first, and the social links, one per platform.
    Nothing else is fetched, and when the home page fails no other page
    is. *)
Theorem website_stage_crawl_order (d : list (str * pyval)) (base_url : str)
    (w : W) :
  crawled (trace_of (website_stage svc hunter_api_key (PDict d) base_url w))
  = match snd (crawl svc base_url w) with
    | Some home =>
        base_url
        :: Planner.final_crawl_list base_url (internal home)
        ++ List.map snd (Planner.plan_social (external home))
    | None => [base_url]
    end.
Proof.
  unfold website_stage.
  destruct (crawl svc base_url w) as [w1 home] eqn:Hhome.
  rewrite (trace_bind_ok _ _ w w1 home [EvCrawl base_url])
    by (unfold crawl_page, call; by rewrite Hhome).
  cbv zeta. cbn [snd].
  match goal with
  | |- context [for_each ?links _ ?acc] =>
      destruct (page_loop_run links acc w1) as (acc1 & w2 & t2 & Hrun2 & Ht2)
  end.
  rewrite (trace_bind_ok _ _ w1 w2 acc1 t2 Hrun2).
  match goal with
  | |- context [for_each ?social _ (acc1, PDict d)] =>
      destruct (social_loop_run social (acc1, PDict d) w2)
        as (acc3 & w3 & t3 & Hrun3 & Ht3); [by exists d|]
  end.
  rewrite (trace_bind_ok _ _ w2 w3 acc3 t3 Hrun3).
  rewrite !crawled_app, Ht2, Ht3, List.map_id.
  change (crawled [EvCrawl base_url]) with [base_url].
  rewrite crawled_none.
  - destruct home as [home|]; simpl; [|done]. by rewrite app_nil_r.
  - revert w3 Hrun3. clear.
    intros w3 _.
    pose proof (fetch_hunter_emails_no_crawl) as Hh.
    assert (Hrest : emits (fun e => crawled [e] = [])
                      (emails <-
                         try_except
                           (if Queue.is_empty base_url then ret []
                            else
                              fetch_hunter_emails svc hunter_api_key
                                (split_head Planner.slash
                                   (replace (py "https://") []
                                      (replace (py "http://") [] base_url))))
                           (ret []) ;;
                       ret (SiteData home (fst acc3) (snd acc3) emails))).
    { request_solve. }
    apply Hrest.
Qed.
End Crawl.

(** *** The post-processing steps *)

Section Steps.
Context {U : UnicodeDB} {W : Type}.
Variable svc : services W.

Lemma bind_raise_l {A B} (e : exn) (f : A -> M W B) (w : W) :
  bind (raise e) f w = (Raise e, w, []).
Proof. reflexivity. Qed.

Lemma whatsapp_loop_run (phones : list str) (acc : list pyval) (w : W) :
  for_each (List.map PStr phones)
    (fun acc p =>
       wa <- lift (detect_whatsapp_val p) ;;
       match wa with
       | Some link =>
           ret (acc ++ [PDict [(py "phone", p); (py "link", PStr link)]])
       | None => ret acc
       end) acc w
  = (Ok (acc ++ omap whatsapp_entry phones), w, []).
Proof.
  revert acc. induction phones as [|p phones IH]; intros acc; simpl.
  - by rewrite app_nil_r.
  - rewrite SignalsFacts.detect_whatsapp_val_str. cbn [lift].
    unfold bind at 1. rewrite bind_ret_l. unfold whatsapp_entry at 1.
    destruct (Signals.detect_whatsapp p) as [link|]; unfold ret at 1;
      rewrite IH; cbn [app]; [by rewrite <- app_assoc | done].
Qed.

(** X26. The WhatsApp step on contact details whose [phones] is a list of
    strings: it takes no outside action and does not fail; the key
    [whatsapp_verified] is set to one entry per phone that is taken for a
    WhatsApp number, in the order of the phones, each with the phone and
    its link; when no phone qualifies the details are left as they are. *)
Theorem attach_whatsapp_entries (d : list (str * pyval))
    (phones : list str) (w : W) :
  dict_get (py "phones") d = Some (PList (List.map PStr phones)) ->
  attach_whatsapp (PDict d) w
  = (Ok (match omap whatsapp_entry phones with
         | [] => PDict d
         | entries =>
             PDict (dict_set (py "whatsapp_verified") (PList entries) d)
         end), w, []).
Proof.
  intros Hphones. unfold attach_whatsapp. cbn [py_in lift].
  rewrite (dict_get_present _ _ _ Hphones). cbn [lift]. rewrite bind_ret_l.
  cbn [py_getitem]. rewrite Hphones. cbn [lift]. rewrite bind_ret_l.
  cbn [lift py_iter]. rewrite bind_ret_l. unfold bind at 1.
  rewrite whatsapp_loop_run. cbn [app].
  by destruct (omap whatsapp_entry phones).
Qed.

Lemma fetch_cnpja_data_trace (cnpj : pyval) (w : W) (digits : str) :
  EvRegistry digits ∈ trace_of (fetch_cnpja_data svc cnpj w) ->
  digits_of cnpj = inr digits.
Proof.
  unfold fetch_cnpja_data.
  destruct (negb (truthy cnpj)); [by intros ?%elem_of_nil|].
  destruct (digits_of cnpj) as [e|ds]; cbn [lift];
    [by intros ?%elem_of_nil|].
  rewrite bind_ret_l.
  destruct (negb (length ds =? 14)%nat); [by intros ?%elem_of_nil|].
  unfold bind, call, trace_of. destruct (registry svc ds w) as [w1 r].
  simpl. intros [= ->]%list_elem_of_singleton. done.
Qed.

(** X25. The registry step asks the company registry only about a
    Brazilian identifier: a request for some digits means that the profile
    holds, under [company_info], a non-empty [tax_id] dict whose type reads
    [CNPJ] or whose country reads [BR] once put in upper case, and the
    digits are those of its value. *)
Theorem registry_data_only_for_brazil (profile : pyval) (w : W)
    (digits : str) :
  EvRegistry digits ∈ trace_of (registry_data svc profile w) ->
  exists info t ty c,
    py_get_default profile (py "company_info") (PDict []) = inr info
    /\ py_get info (py "tax_id") = inr (PDict t)
    /\ t <> []
    /\ py_upper (or_empty (default PNone (dict_get (py "type") t))) = inr ty
    /\ py_upper (or_empty (default PNone (dict_get (py "country") t)))
       = inr c
    /\ (ty = py "CNPJ" \/ c = py "BR")
    /\ digits_of (default PNone (dict_get (py "value") t)) = inr digits.
Proof.
  unfold registry_data.
  destruct (py_get_default profile (py "company_info") (PDict []))
    as [e|info] eqn:Hinfo; cbn [lift]; [by intros ?%elem_of_nil|].
  rewrite bind_ret_l.
  destruct (py_get info (py "tax_id")) as [e|tax_id_info] eqn:Hti;
    cbn [lift]; [by intros ?%elem_of_nil|].
  rewrite bind_ret_l.
  destruct tax_id_info as [| | | | | |t]; try by intros ?%elem_of_nil.
  destruct t as [|kv t]; [by intros ?%elem_of_nil|].
  set (td := kv :: t) in *. cbn [py_get lift]. rewrite bind_ret_l.
  destruct (py_upper (or_empty (default PNone (dict_get (py "type") td))))
    as [e|ty] eqn:Hty; cbn [lift]; [by intros ?%elem_of_nil|].
  rewrite !bind_ret_l.
  destruct (py_upper (or_empty (default PNone (dict_get (py "country") td))))
    as [e|c] eqn:Hc; cbn [lift]; [by intros ?%elem_of_nil|].
  rewrite bind_ret_l.
  destruct (str_eqb ty (py "CNPJ") || str_eqb c (py "BR")) eqn:Hbr;
    [|by intros ?%elem_of_nil].
  destruct (truthy _); [|by intros ?%elem_of_nil].
  intros Hreq%fetch_cnpja_data_trace.
  exists info, td, ty, c. split_and!; try done.
  apply orb_true_iff in Hbr as [H|H]; apply str_eqb_eq in H; auto.
Qed.
End Steps.

Lemma attach_whatsapp_entries_witness :
  attach_whatsapp (U := ascii_db)
    (PDict [(py "phones",
             PList [PStr (py "(11) 99999-9999"); PStr (py "1234")])])
    Scenario.bounded_world
  = (Ok (PDict
           [(py "phones",
             PList [PStr (py "(11) 99999-9999"); PStr (py "1234")]);
            (py "whatsapp_verified",
             PList [PDict [(py "phone", PStr (py "(11) 99999-9999"));
                           (py "link",
                            PStr (py "https://wa.me/5511999999999"))]])]),
     Scenario.bounded_world, []).
Proof.
  etrans;
    [apply (attach_whatsapp_entries (U := ascii_db)
              [(py "phones",
                PList [PStr (py "(11) 99999-9999"); PStr (py "1234")])]
              [py "(11) 99999-9999"; py "1234"] Scenario.bounded_world);
     reflexivity|].
  vm_compute. reflexivity.
Defined.

Lemma registry_data_only_for_brazil_witness :
  let value := py "12.345.678/0001-90" in
  let t := [(py "type", PStr (py "cnpj")); (py "value", PStr value)] in
  let profile :=
    PDict [(py "company_info", PDict [(py "tax_id", PDict t)])] in
  exists info t ty c,
    py_get_default profile (py "company_info") (PDict []) = inr info
    /\ py_get info (py "tax_id") = inr (PDict t)
    /\ t <> []
    /\ py_upper (U := ascii_db)
         (or_empty (default PNone (dict_get (py "type") t))) = inr ty
    /\ py_upper (U := ascii_db)
         (or_empty (default PNone (dict_get (py "country") t))) = inr c
    /\ (ty = py "CNPJ" \/ c = py "BR")
    /\ digits_of (U := ascii_db)
         (default PNone (dict_get (py "value") t))
       = inr (py "12345678000190").
Proof.
  intros value t profile.
  apply (registry_data_only_for_brazil (U := ascii_db) Scenario.sc_services
           profile Scenario.bounded_world (py "12345678000190")).
  apply list_elem_of_In. vm_compute. tauto.
Defined.

Lemma lead_body_without_website_fuses_witness :
  let d := [(py "nome_empresa", PStr (py "Padaria A"))] in
  exists req rest,
    trace_of (lead_body (U := ascii_db) Scenario.sc_services
                (Scenario.json_loads_on Scenario.known_values) (py "key")
                (PDict []) (py "en") None (PDict d)
                (default PNone (dict_get (py "website") d))
                Scenario.bounded_world)
    = EvCompletion req :: rest
    /\ raw_lead_data req = PDict d
    /\ hunter_data req = []
    /\ Forall (fun e => ~ is_site_action e) rest.
Proof.
  intros d.
  apply (lead_body_without_website_fuses (U := ascii_db) Scenario.sc_services
           (Scenario.json_loads_on Scenario.known_values) (py "key")
           (PDict []) (py "en") None d Scenario.bounded_world).
  left. reflexivity.
Defined.

End PipelineMore.

(** ** More on the placeholder scrub *)

Module ScrubMore.
Import Scrub ScrubFacts.

(** X7. The scrub settles in one pass: afterwards no dict value, at any
    depth, is a string that holds the token, and a second pass changes
    nothing. It removes and adds no key and keeps their order. *)
Theorem clean_recursive_settles (v : pyval) (d : list (str * pyval)) :
  fields_clean (clean_recursive v) = true
  /\ clean_recursive (clean_recursive v) = clean_recursive v
  /\ exists d',
      clean_recursive (PDict d) = PDict d'
      /\ List.map fst d' = List.map fst d.
Proof.
  split_and!.
  - apply clean_recursive_cleans_fields.
  - apply clean_recursive_keeps_clean, clean_recursive_cleans_fields.
  - simpl. eexists. split; [reflexivity|].
    rewrite List.map_map. apply List.map_ext. intros [k x]. simpl.
    destruct x as [| | | |s| |]; try reflexivity.
    by destruct (contains PENDING s).
Qed.

End ScrubMore.
